(** * NIP-42 relay authentication and kind-30078 publication

    A shallow embedding of the two [NostrAuthService] classes of the
    repository ([src/lib/relay-auth.ts], over a raw WebSocket, and
    [src/lib/nostr-auth.ts], over a pooled relay object) and of the state
    holder [UseNostrAuth] ([src/composables/useNostrAuth.ts]) as
    event-driven state machines, and the properties of the handshake and of
    the publication exchange that hold of them. *)

From Stdlib Require Import ZArith String Ascii Bool Lia.
From stdpp Require Import base option list strings pretty.

Set Warnings "-register-all".
Local Open Scope Z_scope.

(** * JavaScript values that travel on the wire *)

Module Js.

(** What [JSON.parse] can return.  Numbers are the integers; no other
    number is inspected by the code. *)
Inductive json : Type :=
| JNull
| JBool (b : bool)
| JNum (n : Z)
| JStr (s : string)
| JArr (elems : list json)
| JObj (members : list (string * json)).

(** A JavaScript value: [None] is [undefined]. *)
Definition value : Type := option json.

Definition undefined : value := None.
Definition null : value := Some JNull.
Definition str (s : string) : value := Some (JStr s).

(** Exceptions and rejection reasons. *)
Inductive Exn : Type :=
| Error (message : string)        (* new Error(message) *)
| TypeError                       (* property of null/undefined, call of a non-function *)
| SyntaxError                     (* JSON.parse, new WebSocket on a bad URL *)
| InvalidStateError               (* send() on a socket that is still connecting *)
| SignerRejection (reason : string). (* the external signer refused *)

(** How the evaluation of an expression or statement ends. *)
Inductive Completion (A : Type) : Type :=
| Normal (a : A)
| Throw (e : Exn).
Arguments Normal {A} a.
Arguments Throw {A} e.

(** [v === 'lit'], [v === true/false], [v === n] *)
Definition is_str (v : value) (lit : string) : bool :=
  match v with Some (JStr s) => String.eqb s lit | _ => false end.

Definition is_bool (v : value) (lit : bool) : bool :=
  match v with Some (JBool b) => Bool.eqb b lit | _ => false end.

Definition is_num (v : value) (lit : Z) : bool :=
  match v with Some (JNum n) => Z.eqb n lit | _ => false end.

(** ToBoolean *)
Definition truthy (v : value) : bool :=
  match v with
  | None | Some JNull => false
  | Some (JBool b) => b
  | Some (JNum n) => negb (Z.eqb n 0)
  | Some (JStr s) => negb (String.eqb s EmptyString)
  | Some (JArr _) | Some (JObj _) => true
  end.

(** Own property of a parsed object; a key given twice keeps its last value. *)
Fixpoint obj_get (k : string) (members : list (string * json)) : value :=
  match members with
  | [] => None
  | (k', v) :: rest =>
      match obj_get k rest with
      | Some v' => Some v'
      | None => if String.eqb k' k then Some v else None
      end
  end.

(** [v[i]] for a literal index [i]. *)
Definition index (v : value) (i : nat) : Completion value :=
  match v with
  | None | Some JNull => Throw TypeError
  | Some (JArr elems) => Normal (elems !! i)
  | Some (JStr s) =>
      Normal (match String.get i s with
              | Some c => Some (JStr (String c EmptyString))
              | None => None
              end)
  | Some (JObj members) => Normal (obj_get (pretty i) members)
  | Some (JBool _) | Some (JNum _) => Normal None
  end.

(** [v.length] *)
Definition length_of (v : value) : Completion value :=
  match v with
  | None | Some JNull => Throw TypeError
  | Some (JStr s) => Normal (Some (JNum (Z.of_nat (String.length s))))
  | Some (JArr elems) => Normal (Some (JNum (Z.of_nat (length elems))))
  | Some (JObj members) => Normal (obj_get "length" members)
  | Some (JBool _) | Some (JNum _) => Normal None
  end.

Definition is_substring (needle s : string) : bool :=
  match String.index 0 needle s with Some _ => true | None => false end.

(** [v.includes(needle)]: a string method and an array method; on any other
    value the property is not a function and the call throws. *)
Definition includes (v : value) (needle : string) : Completion bool :=
  match v with
  | Some (JStr s) => Normal (is_substring needle s)
  | Some (JArr elems) => Normal (existsb (fun x => is_str (Some x) needle) elems)
  | _ => Throw TypeError
  end.

(** [v.startsWith(needle)]: a string method only. *)
Definition startsWith (v : value) (needle : string) : Completion bool :=
  match v with
  | Some (JStr s) => Normal (String.prefix needle s)
  | _ => Throw TypeError
  end.

(** ToString, as a template literal applies it.  An object that carries
    its own [toString] member has a non-callable one, and the conversion
    throws. *)
Fixpoint toString (j : json) : Completion string :=
  match j with
  | JNull => Normal "null"
  | JBool true => Normal "true"
  | JBool false => Normal "false"
  | JNum n => Normal (pretty n)
  | JStr s => Normal s
  | JArr elems =>
      (fix join (l : list json) : Completion string :=
         match l with
         | [] => Normal EmptyString
         | x :: rest =>
             match (match x with JNull => Normal EmptyString | _ => toString x end) with
             | Throw e => Throw e
             | Normal sx =>
                 match rest with
                 | [] => Normal sx
                 | _ => match join rest with
                        | Throw e => Throw e
                        | Normal sr => Normal (sx +:+ "," +:+ sr)
                        end
                 end
             end
         end) elems
  | JObj members =>
      match obj_get "toString" members with
      | Some _ => Throw TypeError
      | None => Normal "[object Object]"
      end
  end.

End Js.


(** * Statements: state passing with exceptions *)

Module Eff.
Import Js.

Definition Stmt (S A : Type) : Type := S -> Completion A * S.

Definition ret {S A} (a : A) : Stmt S A := fun w => (Normal a, w).
Definition throw {S A} (e : Exn) : Stmt S A := fun w => (Throw e, w).
Definition bind {S A B} (m : Stmt S A) (k : A -> Stmt S B) : Stmt S B :=
  fun w => match m w with
           | (Normal a, w') => k a w'
           | (Throw e, w') => (Throw e, w')
           end.
(** [try { body } catch (e) { handler }] *)
Definition try_catch {S A} (body : Stmt S A) (handler : Exn -> Stmt S A) : Stmt S A :=
  fun w => match body w with
           | (Normal a, w') => (Normal a, w')
           | (Throw e, w') => handler e w'
           end.
Definition lift {S A} (c : Completion A) : Stmt S A := fun w => (c, w).
Definition gets {S A} (f : S -> A) : Stmt S A := fun w => (Normal (f w), w).
Definition modify {S} (f : S -> S) : Stmt S unit := fun w => (Normal tt, f w).

Declare Scope js_scope.
Delimit Scope js_scope with js.
Notation "x <- c1 ;; c2" := (bind c1 (fun x => c2))
  (at level 100, c1 at next level, right associativity) : js_scope.
Notation "c1 ;; c2" := (bind c1 (fun _ => c2))
  (at level 100, right associativity) : js_scope.

(** A statement respects a relation on states when each of its runs
    relates the state it starts from to the state it ends in. *)
Definition respects {S A} (R : S -> S -> Prop) (m : Stmt S A) : Prop :=
  forall w, R w (snd (m w)).

(** ** Promises and timers *)

Inductive PromiseState : Type :=
| Pending
| Fulfilled (v : json)
| Rejected (e : Exn).

(** A [setTimeout] whose callback is [reject(reason)]. *)
Record Timer : Type := {
  armed : bool;
  delay : Z;
  rejects : nat;
  reason : Exn
}.

(** [clearTimeout] on one timer. *)
Definition disarm (t : Timer) : Timer :=
  {| armed := false; delay := delay t; rejects := rejects t; reason := reason t |}.

End Eff.

(** * Records, configuration and the error taxonomy *)

Module Nostr.
Import Js.

(** The object literal handed to [signer.signEvent]. *)
Record Event : Type := {
  kind : Z;
  created_at : Z;
  tags : list (list value);
  content : string;
  pubkey : string
}.

(** What the signer hands back: by the Signer Adapter's contract, the
    original fields plus an identifier and a signature. *)
Record SignedEvent : Type := {
  unsigned : Event;
  id : string;
  sig : string
}.

Record AuthConfig : Type := {
  relayUrl : string;
  timeout : option Z
}.

(** [this.config.timeout || 10000] *)
Definition timeout_or_default (config : AuthConfig) : Z :=
  match timeout config with
  | Some t => if t =? 0 then 10000 else t
  | None => 10000
  end.

(** The messages of the [Error]s the services raise, under the names the
    specification gives them. *)
Definition SignerUnavailable : Exn :=
  Error "NIP-07 extension not found. Please install a Nostr extension like Alby or nos2x.".
Definition AuthenticationTimeout : Exn := Error "Authentication timeout".
Definition AuthenticationFailed : Exn := Error "Authentication required but failed".
Definition TransportError : Exn := Error "WebSocket connection failed".
Definition NotAuthenticated : Exn := Error "Must authenticate first before publishing".
Definition PublishTimeout : Exn := Error "Publish timeout".
Definition PublishFailed (detail : string) : Exn := Error ("Publish failed: " +:+ detail).

(** [Math.floor(ms / 1000)] *)
Definition unix_seconds (ms : Z) : Z := ms / 1000.

(** The NIP-42 proof record of [authenticate]. *)
Definition authEvent_of (relayUrl : string) (challenge : value) (now : Z) (pubkey : string) : Event :=
  {| kind := 22242;
     created_at := unix_seconds now;
     tags := [ [str "relay"; str relayUrl]; [str "challenge"; challenge] ];
     content := EmptyString;
     pubkey := pubkey |}.

(** The kind-30078 record of [publishKind30078Event]. *)
Definition publishEvent_of (content dTag : string) (additionalTags : list (list string))
    (now : Z) (pubkey : string) : Event :=
  {| kind := 30078;
     created_at := unix_seconds now;
     tags := [str "d"; str dTag] :: map (map str) additionalTags;
     content := content;
     pubkey := pubkey |}.

(** A tag entry is a distinguishing tag when its first element is ['d']. *)
Definition is_d_tag (tag : list value) : bool :=
  match tag with
  | name :: _ => is_str name "d"
  | [] => false
  end.

Definition count_d_tags (ts : list (list value)) : nat :=
  length (List.filter is_d_tag ts).

(** [`${v || 'Unknown error'}`] *)
Definition text_or_unknown (v : value) : Completion string :=
  match v with
  | Some j => if truthy v then toString j else Normal "Unknown error"
  | None => Normal "Unknown error"
  end.

(** [`${v}`] for a value that may be [undefined]. *)
Definition toString_value (v : value) : Completion string :=
  match v with
  | Some j => toString j
  | None => Normal "undefined"
  end.

End Nostr.

(** * [src/lib/relay-auth.ts]: the service over a raw WebSocket *)

Module RelayAuth.
Import Js Nostr Eff.

(** Sockets, promises, timers and suspended tasks are named by their
    position in the tables of the world. *)
Abbreviation SockId := nat (only parsing).
Abbreviation PromiseId := nat (only parsing).
Abbreviation TimerId := nat (only parsing).
Abbreviation TaskId := nat (only parsing).

(** The arrays handed to [JSON.stringify] and then to [send]. *)
Inductive Frame : Type :=
| REQ (subscription : string) (kinds : list Z) (limit : Z)
| AUTH (signedAuthEvent : SignedEvent)
| EVENT (signedEvent : SignedEvent).

(** The closures assigned to [onmessage], with what they capture. *)
Inductive MessageHandler : Type :=
| AuthOnMessage (promise : PromiseId) (timer : TimerId) (pubkey : string)
| PublishOnMessage (originalOnMessage : option MessageHandler)
    (promise : PromiseId) (timer : TimerId) (signedEvent_id : string).

Inductive OpenHandler : Type := SendTriggerReq.
Inductive ErrorHandler : Type := FailConnection (promise : PromiseId) (timer : TimerId).
Inductive CloseHandler : Type := ClearAuthenticated.

Inductive ReadyState : Type := CONNECTING | OPEN | CLOSING | CLOSED.

Record WebSocket : Type := {
  url : string;
  readyState : ReadyState;
  onopen : option OpenHandler;
  onmessage : option MessageHandler;
  onerror : option ErrorHandler;
  onclose : option CloseHandler;
  sent : list Frame
}.

(** An [async] function suspended at an [await] on the signer. *)
Inductive Task : Type :=
| AuthenticateAwaitsPublicKey (promise : PromiseId)
| ChallengeAwaitsSignature (authEvent : Event)
| PublishAwaitsPublicKey (promise : PromiseId)
    (content dTag : string) (additionalTags : list (list string))
| PublishAwaitsSignature (promise : PromiseId) (event : Event).

(** The private fields of the service object. *)
Record Service : Type := {
  relay : option SockId;
  isAuthenticated : bool;
  authChallenge : value
}.

(** The service together with the host objects it reaches. *)
Record World : Type := {
  this : Service;
  window_nostr : bool;            (* [window.nostr] is present *)
  clock : Z;                      (* [Date.now()] *)
  sockets : list WebSocket;
  promises : list PromiseState;
  timers : list Timer;
  tasks : list (option Task)
}.

Definition new_service : Service :=
  {| relay := None; isAuthenticated := false; authChallenge := null |}.

Definition new_world (nostr : bool) (now : Z) : World :=
  {| this := new_service; window_nostr := nostr; clock := now;
     sockets := []; promises := []; timers := []; tasks := [] |}.

Definition with_this (f : Service -> Service) (w : World) : World :=
  {| this := f (this w); window_nostr := window_nostr w; clock := clock w;
     sockets := sockets w; promises := promises w; timers := timers w; tasks := tasks w |}.
Definition with_sockets (f : list WebSocket -> list WebSocket) (w : World) : World :=
  {| this := this w; window_nostr := window_nostr w; clock := clock w;
     sockets := f (sockets w); promises := promises w; timers := timers w; tasks := tasks w |}.
Definition with_promises (f : list PromiseState -> list PromiseState) (w : World) : World :=
  {| this := this w; window_nostr := window_nostr w; clock := clock w;
     sockets := sockets w; promises := f (promises w); timers := timers w; tasks := tasks w |}.
Definition with_timers (f : list Timer -> list Timer) (w : World) : World :=
  {| this := this w; window_nostr := window_nostr w; clock := clock w;
     sockets := sockets w; promises := promises w; timers := f (timers w); tasks := tasks w |}.
Definition with_tasks (f : list (option Task) -> list (option Task)) (w : World) : World :=
  {| this := this w; window_nostr := window_nostr w; clock := clock w;
     sockets := sockets w; promises := promises w; timers := timers w; tasks := f (tasks w) |}.

Definition set_relay (r : option SockId) (s : Service) : Service :=
  {| relay := r; isAuthenticated := isAuthenticated s; authChallenge := authChallenge s |}.
Definition set_isAuthenticated (b : bool) (s : Service) : Service :=
  {| relay := relay s; isAuthenticated := b; authChallenge := authChallenge s |}.
Definition set_authChallenge (c : value) (s : Service) : Service :=
  {| relay := relay s; isAuthenticated := isAuthenticated s; authChallenge := c |}.

Definition set_readyState (st : ReadyState) (ws : WebSocket) : WebSocket :=
  {| url := url ws; readyState := st; onopen := onopen ws; onmessage := onmessage ws;
     onerror := onerror ws; onclose := onclose ws; sent := sent ws |}.
Definition set_onmessage (h : option MessageHandler) (ws : WebSocket) : WebSocket :=
  {| url := url ws; readyState := readyState ws; onopen := onopen ws; onmessage := h;
     onerror := onerror ws; onclose := onclose ws; sent := sent ws |}.
Definition push_frame (f : Frame) (ws : WebSocket) : WebSocket :=
  {| url := url ws; readyState := readyState ws; onopen := onopen ws; onmessage := onmessage ws;
     onerror := onerror ws; onclose := onclose ws; sent := sent ws ++ [f] |}.

(** A statement of the service runs on a [World]. *)
Abbreviation M := (Stmt World).

Local Open Scope js_scope.

(** ** Host primitives *)

Definition new_Promise : M PromiseId :=
  fun w => (Normal (length (promises w)), with_promises (fun ps => ps ++ [Pending]) w).

(** Settling is once only: a settled promise ignores [resolve] and [reject]. *)
Definition settle (p : PromiseId) (st : PromiseState) : M unit :=
  fun w => match promises w !! p with
           | Some Pending => (Normal tt, with_promises (fun ps => <[p := st]> ps) w)
           | _ => (Normal tt, w)
           end.
Definition resolve (p : PromiseId) (v : json) : M unit := settle p (Fulfilled v).
Definition reject (p : PromiseId) (e : Exn) : M unit := settle p (Rejected e).

Definition setTimeout (p : PromiseId) (e : Exn) (ms : Z) : M TimerId :=
  fun w => (Normal (length (timers w)),
            with_timers (fun ts => ts ++ [{| armed := true; delay := ms; rejects := p; reason := e |}]) w).
Definition clearTimeout (t : TimerId) : M unit :=
  modify (with_timers (fun ts => alter disarm t ts)).

Definition Date_now : M Z := gets clock.

Definition suspend (k : Task) : M TaskId :=
  fun w => (Normal (length (tasks w)), with_tasks (fun ts => ts ++ [Some k]) w).

(** [socket.send(frame)]: throws while connecting, transmits when open,
    and is dropped once the socket is closing or closed. *)
Definition ws_send (s : SockId) (f : Frame) : M unit :=
  fun w => match sockets w !! s with
           | Some ws =>
               match readyState ws with
               | CONNECTING => (Throw InvalidStateError, w)
               | OPEN => (Normal tt, with_sockets (fun l => <[s := push_frame f ws]> l) w)
               | CLOSING | CLOSED => (Normal tt, w)
               end
           | None => (Throw TypeError, w)
           end.

(** [socket.close()] *)
Definition ws_close (s : SockId) : M unit :=
  fun w => match sockets w !! s with
           | Some ws =>
               match readyState ws with
               | CONNECTING | OPEN =>
                   (Normal tt, with_sockets (fun l => <[s := set_readyState CLOSING ws]> l) w)
               | CLOSING | CLOSED => (Normal tt, w)
               end
           | None => (Normal tt, w)
           end.

(** [this.relay!]: the dereference that follows throws on [null]. *)
Definition this_relay : M SockId :=
  fun w => match relay (this w) with
           | Some s => (Normal s, w)
           | None => (Throw TypeError, w)
           end.

Definition get_onmessage (s : SockId) : M (option MessageHandler) :=
  fun w => match sockets w !! s with
           | Some ws => (Normal (onmessage ws), w)
           | None => (Throw TypeError, w)
           end.
Definition assign_onmessage (s : SockId) (h : option MessageHandler) : M unit :=
  modify (with_sockets (fun l => alter (set_onmessage h) s l)).

(** ** The service *)

(** What the service is constructed with and what the platform provides. *)
Class Host : Type := {
  (** [private config: AuthConfig], never reassigned *)
  config : AuthConfig;
  (** [JSON.parse]: [None] when it throws *)
  JSON_parse : string -> option json;
  (** the URL check of the [WebSocket] constructor, which throws on failure *)
  WebSocket_accepts : string -> bool
}.

Section Service.

Context {host : Host}.

Definition parse (data : string) : M json :=
  match JSON_parse data with
  | Some message => ret message
  | None => throw SyntaxError
  end.

Definition new_WebSocket (u : string) : M SockId :=
  fun w => if WebSocket_accepts u
           then (Normal (length (sockets w)),
                 with_sockets (fun l => l ++ [{| url := u; readyState := CONNECTING;
                                                 onopen := None; onmessage := None;
                                                 onerror := None; onclose := None;
                                                 sent := [] |}]) w)
           else (Throw SyntaxError, w).

Definition assign_handlers (s : SockId) (o : OpenHandler) (m : MessageHandler)
    (e : ErrorHandler) (c : CloseHandler) : M unit :=
  modify (with_sockets (fun l =>
    alter (fun ws => {| url := url ws; readyState := readyState ws;
                        onopen := Some o; onmessage := Some m;
                        onerror := Some e; onclose := Some c; sent := sent ws |}) s l)).

(** [getNip07Signer] *)
Definition getNip07Signer : M unit :=
  present <- gets window_nostr ;;
  if present then ret tt else throw SignerUnavailable.

(** [signer.signEvent(event)] followed by [await]: the call dereferences
    [window.nostr], then the caller is suspended as task [k]. *)
Definition signEvent (k : Task) : M unit :=
  present <- gets window_nostr ;;
  if present then (_ <- suspend k ;; ret tt) else throw TypeError.

(** [this.relay!.send(JSON.stringify(frame))] *)
Definition relay_send (f : Frame) : M unit :=
  s <- this_relay ;;
  ws_send s f.

(** The [onmessage] closure that [authenticate] installs. *)
Definition authOnMessage (promise : PromiseId) (timer : TimerId) (pubkey : string)
    (data : string) : M unit :=
  try_catch
    (parsed <- parse data ;;
     let message := Some parsed in
     m0 <- lift (index message 0) ;;
     if is_str m0 "AUTH" then
       m1 <- lift (index message 1) ;;
       modify (with_this (set_authChallenge m1)) ;;
       challenge <- gets (fun w => authChallenge (this w)) ;;
       _ <- lift (toString_value challenge) ;;
       now <- Date_now ;;
       let authEvent := authEvent_of (relayUrl config) challenge now pubkey in
       signEvent (ChallengeAwaitsSignature authEvent)
     else
       accepted <- (if is_str m0 "OK" then
                      m2 <- lift (index message 2) ;;
                      if is_bool m2 true then
                        m1 <- lift (index message 1) ;;
                        len <- lift (length_of m1) ;;
                        ret (is_num len 64)
                      else ret false
                    else ret false) ;;
       if accepted then
         modify (with_this (set_isAuthenticated true)) ;;
         clearTimeout timer ;;
         resolve promise (JBool true)
       else if is_str m0 "CLOSED" then
         m2 <- lift (index message 2) ;;
         if truthy m2 then (_ <- lift (startsWith m2 "auth-required") ;; ret tt) else ret tt
       else
         refused <- (if is_str m0 "OK" then
                       m2 <- lift (index message 2) ;; ret (is_bool m2 false)
                     else ret false) ;;
         if refused then
           m3 <- lift (index message 3) ;;
           _ <- lift (text_or_unknown m3) ;;
           needs_auth <- (if truthy m3 then lift (includes m3 "auth-required") else ret false) ;;
           if needs_auth then
             clearTimeout timer ;;
             reject promise AuthenticationFailed
           else ret tt
         else ret tt)
    (fun parseError => ret tt).

(** The part of the [onmessage] closure of [publishKind30078Event] that
    follows the call of the original handler. *)
Definition publishOnMessage (originalOnMessage : option MessageHandler)
    (promise : PromiseId) (timer : TimerId) (signedEvent_id : string)
    (data : string) : M unit :=
  try_catch
    (parsed <- parse data ;;
     let message := Some parsed in
     m0 <- lift (index message 0) ;;
     matches <- (if is_str m0 "OK" then
                   m1 <- lift (index message 1) ;; ret (is_str m1 signedEvent_id)
                 else ret false) ;;
     if matches then
       clearTimeout timer ;;
       m2 <- lift (index message 2) ;;
       (if is_bool m2 true then
          resolve promise (JStr signedEvent_id)
        else
          m3 <- lift (index message 3) ;;
          detail <- lift (text_or_unknown m3) ;;
          reject promise (PublishFailed detail)) ;;
       s <- this_relay ;;
       assign_onmessage s originalOnMessage
     else ret tt)
    (fun parseError => ret tt).

(** Running whatever closure sits in [onmessage]. *)
Fixpoint dispatch (h : MessageHandler) (data : string) : M unit :=
  match h with
  | AuthOnMessage promise timer pubkey => authOnMessage promise timer pubkey data
  | PublishOnMessage originalOnMessage promise timer signedEvent_id =>
      match originalOnMessage with
      | Some original => dispatch original data
      | None => ret tt
      end ;;
      publishOnMessage originalOnMessage promise timer signedEvent_id data
  end.

(** [authenticate], up to its first [await] on the signer. *)
Definition authenticate : M PromiseId :=
  promise <- new_Promise ;;
  try_catch
    (getNip07Signer ;;
     _ <- suspend (AuthenticateAwaitsPublicKey promise) ;;
     ret tt)
    (fun error => reject promise error) ;;
  ret promise.

(** [authenticate], from the public key on: the executor of the promise. *)
Definition authenticate_connect (promise : PromiseId) (pubkey : string) : M unit :=
  timer <- setTimeout promise AuthenticationTimeout (timeout_or_default config) ;;
  try_catch
    (s <- new_WebSocket (relayUrl config) ;;
     modify (with_this (set_relay (Some s))) ;;
     assign_handlers s SendTriggerReq (AuthOnMessage promise timer pubkey)
       (FailConnection promise timer) ClearAuthenticated)
    (fun error => clearTimeout timer ;; reject promise error).

(** [publishKind30078Event], up to its first [await] on the signer. *)
Definition publishKind30078Event (content dTag : string)
    (additionalTags : list (list string)) : M PromiseId :=
  promise <- new_Promise ;;
  authenticated <- gets (fun w => isAuthenticated (this w)) ;;
  r <- gets (fun w => relay (this w)) ;;
  (if negb authenticated || negb (bool_decide (is_Some r)) then
     reject promise NotAuthenticated
   else
     try_catch
       (getNip07Signer ;;
        _ <- suspend (PublishAwaitsPublicKey promise content dTag additionalTags) ;;
        ret tt)
       (fun error => reject promise error)) ;;
  ret promise.

(** [publishKind30078Event], from the public key to the [await] on the signature. *)
Definition publish_build (promise : PromiseId) (content dTag : string)
    (additionalTags : list (list string)) (pubkey : string) : M unit :=
  now <- Date_now ;;
  let event := publishEvent_of content dTag additionalTags now pubkey in
  try_catch
    (signEvent (PublishAwaitsSignature promise event))
    (fun error => reject promise error).

(** [publishKind30078Event], from the signature on: the executor of the promise. *)
Definition publish_send (promise : PromiseId) (signedEvent : SignedEvent) : M unit :=
  timer <- setTimeout promise PublishTimeout (timeout_or_default config) ;;
  try_catch
    (s <- this_relay ;;
     originalOnMessage <- get_onmessage s ;;
     assign_onmessage s
       (Some (PublishOnMessage originalOnMessage promise timer (id signedEvent))) ;;
     relay_send (EVENT signedEvent))
    (fun error => reject promise error).

(** [disconnect] *)
Definition disconnect : M unit :=
  r <- gets (fun w => relay (this w)) ;;
  match r with
  | Some s => ws_close s ;; modify (with_this (set_relay None))
  | None => ret tt
  end ;;
  modify (with_this (set_isAuthenticated false)) ;;
  modify (with_this (set_authChallenge null)).

(** [getAuthStatus] *)
Definition getAuthStatus (w : World) : bool := isAuthenticated (this w).

(** ** What the environment can do to the service *)

Inductive SignerReply : Type :=
| PublicKey (pubkey : string)
| Signature (id sig : string)
| Refused (why : string).

Inductive Input : Type :=
| Call_authenticate
| Call_publishKind30078Event (content dTag : string) (additionalTags : list (list string))
| Call_disconnect
| Ws_open (s : SockId)
| Ws_message (s : SockId) (data : string)
| Ws_error (s : SockId)
| Ws_close (s : SockId)
| Timer_fires (t : TimerId)
| Signer_replies (k : TaskId) (reply : SignerReply)
| Clock_advances (ms : Z)
| Extension_changes (present : bool).

(** The continuation of a suspended task on a reply of the signer; a reply
    of the wrong shape for the task is not a reply to it. *)
Definition resume (t : Task) (reply : SignerReply) : option (M unit) :=
  match t, reply with
  | AuthenticateAwaitsPublicKey promise, PublicKey pk =>
      Some (authenticate_connect promise pk)
  | AuthenticateAwaitsPublicKey promise, Refused why =>
      Some (reject promise (SignerRejection why))
  | ChallengeAwaitsSignature authEvent, Signature i s =>
      Some (try_catch
              (relay_send (AUTH {| unsigned := authEvent; id := i; sig := s |}))
              (fun parseError => ret tt))
  | ChallengeAwaitsSignature authEvent, Refused why =>
      Some (ret tt)
  | PublishAwaitsPublicKey promise content dTag additionalTags, PublicKey pk =>
      Some (publish_build promise content dTag additionalTags pk)
  | PublishAwaitsPublicKey promise _ _ _, Refused why =>
      Some (reject promise (SignerRejection why))
  | PublishAwaitsSignature promise event, Signature i s =>
      Some (publish_send promise {| unsigned := event; id := i; sig := s |})
  | PublishAwaitsSignature promise event, Refused why =>
      Some (reject promise (SignerRejection why))
  | _, _ => None
  end.

Definition run_onopen (h : OpenHandler) : M unit :=
  match h with
  | SendTriggerReq => relay_send (REQ "auth_trigger" [1] 1)
  end.

Definition run_onerror (h : ErrorHandler) : M unit :=
  match h with
  | FailConnection promise timer => clearTimeout timer ;; reject promise TransportError
  end.

Definition run_onclose (h : CloseHandler) : M unit :=
  match h with
  | ClearAuthenticated => modify (with_this (set_isAuthenticated false))
  end.

Definition react (i : Input) : M unit :=
  match i with
  | Call_authenticate => _ <- authenticate ;; ret tt
  | Call_publishKind30078Event content dTag additionalTags =>
      _ <- publishKind30078Event content dTag additionalTags ;; ret tt
  | Call_disconnect => disconnect
  | Ws_open s =>
      fun w => match sockets w !! s with
               | Some ws =>
                   match readyState ws, onopen ws with
                   | CONNECTING, Some h =>
                       run_onopen h (with_sockets (fun l => <[s := set_readyState OPEN ws]> l) w)
                   | CONNECTING, None =>
                       (Normal tt, with_sockets (fun l => <[s := set_readyState OPEN ws]> l) w)
                   | _, _ => (Normal tt, w)
                   end
               | None => (Normal tt, w)
               end
  | Ws_message s data =>
      fun w => match sockets w !! s with
               | Some ws =>
                   match readyState ws, onmessage ws with
                   | OPEN, Some h => dispatch h data w
                   | _, _ => (Normal tt, w)
                   end
               | None => (Normal tt, w)
               end
  | Ws_error s =>
      fun w => match sockets w !! s with
               | Some ws =>
                   match readyState ws, onerror ws with
                   | CLOSED, _ | _, None => (Normal tt, w)
                   | _, Some h => run_onerror h w
                   end
               | None => (Normal tt, w)
               end
  | Ws_close s =>
      fun w => match sockets w !! s with
               | Some ws =>
                   match readyState ws, onclose ws with
                   | CLOSED, _ => (Normal tt, w)
                   | _, Some h =>
                       run_onclose h (with_sockets (fun l => <[s := set_readyState CLOSED ws]> l) w)
                   | _, None =>
                       (Normal tt, with_sockets (fun l => <[s := set_readyState CLOSED ws]> l) w)
                   end
               | None => (Normal tt, w)
               end
  | Timer_fires t =>
      fun w => match timers w !! t with
               | Some tm =>
                   if armed tm
                   then (clearTimeout t ;; reject (rejects tm) (reason tm)) w
                   else (Normal tt, w)
               | None => (Normal tt, w)
               end
  | Signer_replies k reply =>
      fun w => match tasks w !! k with
               | Some (Some t) =>
                   match resume t reply with
                   | Some continuation =>
                       continuation (with_tasks (fun ts => <[k := None]> ts) w)
                   | None => (Normal tt, w)
                   end
               | _ => (Normal tt, w)
               end
  | Clock_advances ms => modify (fun w =>
      {| this := this w; window_nostr := window_nostr w; clock := clock w + Z.max 0 ms;
         sockets := sockets w; promises := promises w; timers := timers w; tasks := tasks w |})
  | Extension_changes present => modify (fun w =>
      {| this := this w; window_nostr := present; clock := clock w;
         sockets := sockets w; promises := promises w; timers := timers w; tasks := tasks w |})
  end.

(** An exception that escapes an event handler is reported by the host
    and goes no further. *)
Definition step (i : Input) (w : World) : World := snd (react i w).

Definition run (inputs : list Input) (w : World) : World :=
  fold_left (fun w i => step i w) inputs w.

(** ** What is kept along every run *)

(** A record is a proof record of this service, or a publication record. *)
Definition is_proof (e : Event) : Prop :=
  exists challenge now pk, e = authEvent_of (relayUrl config) challenge now pk.
Definition is_publication (e : Event) : Prop :=
  exists content dTag additionalTags now pk,
    e = publishEvent_of content dTag additionalTags now pk.

Definition frame_ok (f : Frame) : Prop :=
  match f with
  | REQ _ _ _ => True
  | AUTH signedAuthEvent => is_proof (unsigned signedAuthEvent)
  | EVENT signedEvent => is_publication (unsigned signedEvent)
  end.

Definition task_ok (t : option Task) : Prop :=
  match t with
  | Some (ChallengeAwaitsSignature authEvent) => is_proof authEvent
  | Some (PublishAwaitsSignature _ event) => is_publication event
  | _ => True
  end.

(** Every record waiting for its signature and every frame that went out
    on any socket is one the service built itself. *)
Definition wire_ok (w : World) : Prop :=
  Forall task_ok (tasks w) /\
  Forall (fun ws => Forall frame_ok (sent ws)) (sockets w).

Definition wire_kept (w w' : World) : Prop := wire_ok w -> wire_ok w'.

(** A promise that is settled stays as it is. *)
Definition settled_stay (w w' : World) : Prop :=
  forall p st, promises w !! p = Some st -> st <> Pending -> promises w' !! p = Some st.


(** What [disconnect] does to the socket the service holds. *)
Definition close_held (w : World) : World :=
  match relay (this w) with
  | Some s => snd (ws_close s w)
  | None => w
  end.

End Service.

End RelayAuth.

(** * A concrete host and the messages of the end-to-end scenarios *)

Module Scenario.
Import Js Nostr Eff RelayAuth.

Definition dquote : string := String (ascii_of_nat 34) EmptyString.

(** The JSON text of a value whose strings need no escaping. *)
Fixpoint JSON_text (j : json) : string :=
  match j with
  | JNull => "null"
  | JBool true => "true"
  | JBool false => "false"
  | JNum n => pretty n
  | JStr s => dquote +:+ s +:+ dquote
  | JArr elems =>
      "[" +:+
      (fix items (l : list json) : string :=
         match l with
         | [] => EmptyString
         | [x] => JSON_text x
         | x :: rest => JSON_text x +:+ "," +:+ items rest
         end) elems
      +:+ "]"
  | JObj members =>
      "{" +:+
      (fix items (l : list (string * json)) : string :=
         match l with
         | [] => EmptyString
         | [(k, x)] => dquote +:+ k +:+ dquote +:+ ":" +:+ JSON_text x
         | (k, x) :: rest => dquote +:+ k +:+ dquote +:+ ":" +:+ JSON_text x +:+ "," +:+ items rest
         end) members
      +:+ "}"
  end.

(** A 64-character identifier made of one repeated hexadecimal digit. *)
Definition id64 (c : ascii) : string := string_of_list_ascii (replicate 64 c).

Definition proofId : string := id64 "a".
Definition otherId : string := id64 "b".
Definition eventId : string := id64 "e".
Definition secondId : string := id64 "f".

Definition challenge_c1 : json := JArr [JStr "AUTH"; JStr "c1"].
Definition challenge_c2 : json := JArr [JStr "AUTH"; JStr "c2"].
Definition ok_proof : json := JArr [JStr "OK"; JStr proofId; JBool true; JStr EmptyString].
Definition ok_other : json := JArr [JStr "OK"; JStr otherId; JBool true; JStr EmptyString].
Definition ok_event : json := JArr [JStr "OK"; JStr eventId; JBool true; JStr EmptyString].
Definition ok_second : json := JArr [JStr "OK"; JStr secondId; JBool true; JStr EmptyString].
Definition refused_other : json :=
  JArr [JStr "OK"; JStr otherId; JBool false; JStr "auth-required: please authenticate"].
Definition rate_limited : json := JArr [JStr "OK"; JStr eventId; JBool false; JStr "rate-limited"].

Definition corpus : list json :=
  [challenge_c1; challenge_c2; ok_proof; ok_other; ok_event; ok_second; refused_other; rate_limited].

(** [JSON.parse] on the texts of the corpus; every other payload used in
    the scenarios is not JSON at all. *)
Definition parse_corpus (data : string) : option json :=
  find (fun j => String.eqb (JSON_text j) data) corpus.

Definition relay_example : AuthConfig :=
  {| relayUrl := "wss://relay.example"; timeout := None |}.

#[export] Instance browser : Host :=
  {| config := relay_example;
     JSON_parse := parse_corpus;
     WebSocket_accepts := fun u => String.prefix "ws" u |}.

(** A page with the extension installed, at some instant. *)
Definition page : World := new_world true 1700000000123.

(** The socket is open and the trigger request is out. *)
Definition connected : World :=
  run [ Call_authenticate;
        Signer_replies 0%nat (PublicKey "npub");
        Ws_open 0%nat ] page.

(** Scenario B up to the moment the signed proof is on the wire. *)
Definition proof_sent : World :=
  run [ Ws_message 0%nat (JSON_text challenge_c1);
        Signer_replies 1%nat (Signature proofId "sig") ] connected.

(** Scenario B completed. *)
Definition authenticated : World :=
  step (Ws_message 0%nat (JSON_text ok_proof)) proof_sent.

(** Scenario C up to the moment the signed record is on the wire. *)
Definition first_publish : list Input :=
  [ Call_publishKind30078Event "hello" "note-1" [["t"; "demo"]];
    Signer_replies 2%nat (PublicKey "npub");
    Signer_replies 3%nat (Signature eventId "sig") ].

Definition publishing : World := run first_publish authenticated.

(** A second publication while the first one is in flight. *)
Definition second_publish : list Input :=
  [ Call_publishKind30078Event "again" "note-2" [];
    Signer_replies 4%nat (PublicKey "npub");
    Signer_replies 5%nat (Signature secondId "sig") ].

(** A publication whose caller passes a distinguishing tag of its own. *)
Definition publish_with_d_tag : list Input :=
  [ Call_publishKind30078Event "hello" "note-1" [["d"; "note-2"]];
    Signer_replies 2%nat (PublicKey "npub");
    Signer_replies 3%nat (Signature eventId "sig") ].

(** A second challenge arrives while the signer is still working on the
    proof for the first one. *)
Definition two_challenges : list Input :=
  [ Ws_message 0%nat (JSON_text challenge_c1);
    Ws_message 0%nat (JSON_text challenge_c2);
    Signer_replies 1%nat (Signature proofId "sig") ].

(** The timer of the handshake expires, and only then does the relay
    challenge and accept. *)
Definition acceptance_after_timeout : list Input :=
  [ Timer_fires 0%nat;
    Ws_message 0%nat (JSON_text challenge_c1);
    Signer_replies 1%nat (Signature proofId "sig");
    Ws_message 0%nat (JSON_text ok_proof) ].

(** The timer of the first publication expires; a second publication
    follows; then the late result for the first one arrives, and after it
    the result for the second. *)
Definition late_result_after_timeout : list Input :=
  Timer_fires 1%nat ::
  second_publish ++
  [ Ws_message 0%nat (JSON_text ok_event);
    Ws_message 0%nat (JSON_text ok_second) ].

End Scenario.

(** * [src/lib/nostr-auth.ts]: the service over a pooled relay object *)

Module NostrAuth.
Import Js Nostr Eff.

Abbreviation RelayId := nat (only parsing).
Abbreviation PromiseId := nat (only parsing).
Abbreviation TimerId := nat (only parsing).
Abbreviation TaskId := nat (only parsing).

(** The arrays handed to [relay.send]. *)
Inductive Frame : Type :=
| REQ (subscription : string) (limit : Z)
| AUTH (signedAuthEvent : SignedEvent)
| EVENT (signedEvent : SignedEvent).

(** The closure registered with [relay.on('auth', ...)]. *)
Inductive AuthListener : Type :=
| OnAuth (promise : PromiseId) (timer : TimerId) (pubkey : string).

(** The closures handed to [relay.on('ok', ...)].  Nothing stores them
    (see [relay_on_ok]), so their bodies never run. *)
Inductive OkListener : Type :=
| AuthOk (promise : PromiseId) (timer : TimerId)
| PublishOk (promise : PromiseId) (timer : TimerId) (signedEvent_id : string).

(** The relay object of the pool, as far as the service reaches into it.
    The file imports [getEventHash], [getSignature] and [nip42] next to
    [SimplePool], which is the 1.x line of nostr-tools, and the relay object
    of that line is what is modelled: [on] keeps listeners for the events
    the object has, of which the service asks for ['auth']; there is no
    ['ok'] event and no [send] member; [close] closes it. *)
Record Relay : Type := {
  closed : bool;
  on_auth : list AuthListener
}.

Inductive Task : Type :=
| AuthenticateAwaitsPublicKey (promise : PromiseId)
| AuthenticateAwaitsRelay (promise : PromiseId) (pubkey : string)
| ChallengeAwaitsSignature (promise : PromiseId) (timer : TimerId) (authEvent : Event)
| PublishAwaitsPublicKey (promise : PromiseId)
    (content dTag : string) (additionalTags : list (list string))
| PublishAwaitsSignature (promise : PromiseId) (event : Event).

Record Service : Type := {
  relay : option RelayId;
  isAuthenticated : bool
}.

Record World : Type := {
  this : Service;
  window_nostr : bool;
  clock : Z;
  relays : list Relay;
  promises : list PromiseState;
  timers : list Timer;
  tasks : list (option Task)
}.

Definition new_service : Service := {| relay := None; isAuthenticated := false |}.

Definition new_world (nostr : bool) (now : Z) : World :=
  {| this := new_service; window_nostr := nostr; clock := now;
     relays := []; promises := []; timers := []; tasks := [] |}.

Definition with_this (f : Service -> Service) (w : World) : World :=
  {| this := f (this w); window_nostr := window_nostr w; clock := clock w;
     relays := relays w; promises := promises w; timers := timers w; tasks := tasks w |}.
Definition with_relays (f : list Relay -> list Relay) (w : World) : World :=
  {| this := this w; window_nostr := window_nostr w; clock := clock w;
     relays := f (relays w); promises := promises w; timers := timers w; tasks := tasks w |}.
Definition with_promises (f : list PromiseState -> list PromiseState) (w : World) : World :=
  {| this := this w; window_nostr := window_nostr w; clock := clock w;
     relays := relays w; promises := f (promises w); timers := timers w; tasks := tasks w |}.
Definition with_timers (f : list Timer -> list Timer) (w : World) : World :=
  {| this := this w; window_nostr := window_nostr w; clock := clock w;
     relays := relays w; promises := promises w; timers := f (timers w); tasks := tasks w |}.
Definition with_tasks (f : list (option Task) -> list (option Task)) (w : World) : World :=
  {| this := this w; window_nostr := window_nostr w; clock := clock w;
     relays := relays w; promises := promises w; timers := timers w; tasks := f (tasks w) |}.

Definition set_relay (r : option RelayId) (s : Service) : Service :=
  {| relay := r; isAuthenticated := isAuthenticated s |}.
Definition set_isAuthenticated (b : bool) (s : Service) : Service :=
  {| relay := relay s; isAuthenticated := b |}.

Definition add_auth_listener (l : AuthListener) (r : Relay) : Relay :=
  {| closed := closed r; on_auth := on_auth r ++ [l] |}.
Definition close_relay (r : Relay) : Relay :=
  {| closed := true; on_auth := on_auth r |}.
Definition reopen (r : Relay) : Relay :=
  {| closed := false; on_auth := on_auth r |}.

Abbreviation M := (Stmt World).
Local Open Scope js_scope.

Definition new_Promise : M PromiseId :=
  fun w => (Normal (length (promises w)), with_promises (fun ps => ps ++ [Pending]) w).
Definition settle (p : PromiseId) (st : PromiseState) : M unit :=
  fun w => match promises w !! p with
           | Some Pending => (Normal tt, with_promises (fun ps => <[p := st]> ps) w)
           | _ => (Normal tt, w)
           end.
Definition resolve (p : PromiseId) (v : json) : M unit := settle p (Fulfilled v).
Definition reject (p : PromiseId) (e : Exn) : M unit := settle p (Rejected e).
Definition setTimeout (p : PromiseId) (e : Exn) (ms : Z) : M TimerId :=
  fun w => (Normal (length (timers w)),
            with_timers (fun ts => ts ++ [{| armed := true; delay := ms; rejects := p; reason := e |}]) w).
Definition clearTimeout (t : TimerId) : M unit :=
  modify (with_timers (fun ts => alter disarm t ts)).
Definition Date_now : M Z := gets clock.
Definition suspend (k : Task) : M TaskId :=
  fun w => (Normal (length (tasks w)), with_tasks (fun ts => ts ++ [Some k]) w).

(** [this.relay]: the member access that follows throws on [null]. *)
Definition this_relay : M RelayId :=
  fun w => match relay (this w) with
           | Some r => (Normal r, w)
           | None => (Throw TypeError, w)
           end.

Definition relay_on_auth (l : AuthListener) : M unit :=
  r <- this_relay ;; modify (with_relays (fun rs => alter (add_auth_listener l) r rs)).

(** [this.relay.on('ok', l)]: the relay object keeps no list of listeners
    for ['ok'], and the call throws before [l] is stored anywhere. *)
Definition relay_on_ok (l : OkListener) : M unit :=
  _ <- this_relay ;; throw TypeError.

(** [this.relay.send(f)]: the relay object has no [send], and calling the
    missing member throws.  Nothing goes out. *)
Definition relay_send (f : Frame) : M unit :=
  _ <- this_relay ;; throw TypeError.

(** [this.pool.ensureRelay(this.config.relayUrl)], once it has connected.
    The pool keeps one relay object for a URL: it makes it on the first
    call, and on a later call hands the same object back, connected
    again.  The service only ever asks for the configured URL. *)
Definition ensureRelay : M RelayId :=
  fun w => match relays w with
           | [] => (Normal 0%nat,
                    with_relays (fun _ => [{| closed := false; on_auth := [] |}]) w)
           | _ :: _ => (Normal 0%nat, with_relays (fun rs => alter reopen 0%nat rs) w)
           end.

Section Service.

Variable config : AuthConfig.

Definition getNip07Signer : M unit :=
  present <- gets window_nostr ;;
  if present then ret tt else throw SignerUnavailable.

Definition signEvent (k : Task) : M unit :=
  present <- gets window_nostr ;;
  if present then (_ <- suspend k ;; ret tt) else throw TypeError.

(** The listener for ['auth'], up to its [await] on the signer. *)
Definition onAuth (promise : PromiseId) (timer : TimerId) (pubkey : string)
    (challenge : string) : M unit :=
  try_catch
    (now <- Date_now ;;
     let authEvent := authEvent_of (relayUrl config) (str challenge) now pubkey in
     signEvent (ChallengeAwaitsSignature promise timer authEvent))
    (fun error => clearTimeout timer ;; reject promise error).

(** The listener for ['auth'], from the signature on.  The [send] throws
    inside the [try], so the [relay.on('ok', ...)] after it is not
    reached. *)
Definition onAuth_signed (promise : PromiseId) (timer : TimerId)
    (signedAuthEvent : SignedEvent) : M unit :=
  try_catch
    (relay_send (AUTH signedAuthEvent) ;;
     relay_on_ok (AuthOk promise timer))
    (fun error => clearTimeout timer ;; reject promise error).

Definition authenticate : M PromiseId :=
  promise <- new_Promise ;;
  try_catch
    (getNip07Signer ;;
     _ <- suspend (AuthenticateAwaitsPublicKey promise) ;;
     ret tt)
    (fun error => reject promise error) ;;
  ret promise.

(** [authenticate], from the relay of the pool on.  What the executor
    of the promise throws rejects the promise. *)
Definition authenticate_listen (promise : PromiseId) (pubkey : string) : M unit :=
  r <- ensureRelay ;;
  modify (with_this (set_relay (Some r))) ;;
  timer <- setTimeout promise AuthenticationTimeout (timeout_or_default config) ;;
  try_catch
    (relay_on_auth (OnAuth promise timer pubkey) ;;
     relay_send (REQ "auth-trigger" 1))
    (fun error => reject promise error).

Definition publishKind30078Event (content dTag : string)
    (additionalTags : list (list string)) : M PromiseId :=
  promise <- new_Promise ;;
  authenticated <- gets (fun w => isAuthenticated (this w)) ;;
  r <- gets (fun w => relay (this w)) ;;
  (if negb authenticated || negb (bool_decide (is_Some r)) then
     reject promise NotAuthenticated
   else
     try_catch
       (getNip07Signer ;;
        _ <- suspend (PublishAwaitsPublicKey promise content dTag additionalTags) ;;
        ret tt)
       (fun error => reject promise error)) ;;
  ret promise.

Definition publish_build (promise : PromiseId) (content dTag : string)
    (additionalTags : list (list string)) (pubkey : string) : M unit :=
  now <- Date_now ;;
  let event := publishEvent_of content dTag additionalTags now pubkey in
  try_catch
    (signEvent (PublishAwaitsSignature promise event))
    (fun error => reject promise error).

Definition publish_send (promise : PromiseId) (signedEvent : SignedEvent) : M unit :=
  timer <- setTimeout promise PublishTimeout (timeout_or_default config) ;;
  try_catch
    (relay_on_ok (PublishOk promise timer (id signedEvent)) ;;
     relay_send (EVENT signedEvent))
    (fun error => reject promise error).

(** [this.pool.close([this.config.relayUrl])]: the pool closes its
    connections to that URL, and every relay object here came from it. *)
Definition pool_close : M unit :=
  modify (with_relays (fun rs => map close_relay rs)).

Definition disconnect : M unit :=
  r <- gets (fun w => relay (this w)) ;;
  match r with
  | Some i =>
      modify (with_relays (fun rs => alter close_relay i rs)) ;;
      modify (with_this (set_relay None))
  | None => ret tt
  end ;;
  pool_close ;;
  modify (with_this (set_isAuthenticated false)).

Definition getAuthStatus (w : World) : bool := isAuthenticated (this w).

(** ** What the environment can do *)

Inductive Reply : Type :=
| PublicKey (pubkey : string)
| Connected
| Signature (id sig : string)
| Refused (why : string).

Inductive Input : Type :=
| Call_authenticate
| Call_publishKind30078Event (content dTag : string) (additionalTags : list (list string))
| Call_disconnect
| Relay_auth (r : RelayId) (challenge : string)
| Timer_fires (t : TimerId)
| Replies (k : TaskId) (reply : Reply).

Definition resume (t : Task) (reply : Reply) : option (M unit) :=
  match t, reply with
  | AuthenticateAwaitsPublicKey promise, PublicKey pk =>
      Some (_ <- suspend (AuthenticateAwaitsRelay promise pk) ;; ret tt)
  | AuthenticateAwaitsPublicKey promise, Refused why =>
      Some (reject promise (SignerRejection why))
  | AuthenticateAwaitsRelay promise pk, Connected =>
      Some (authenticate_listen promise pk)
  | AuthenticateAwaitsRelay promise pk, Refused why =>
      Some (reject promise (Error why))
  | ChallengeAwaitsSignature promise timer authEvent, Signature i s =>
      Some (onAuth_signed promise timer {| unsigned := authEvent; id := i; sig := s |})
  | ChallengeAwaitsSignature promise timer authEvent, Refused why =>
      Some (clearTimeout timer ;; reject promise (SignerRejection why))
  | PublishAwaitsPublicKey promise content dTag additionalTags, PublicKey pk =>
      Some (publish_build promise content dTag additionalTags pk)
  | PublishAwaitsPublicKey promise _ _ _, Refused why =>
      Some (reject promise (SignerRejection why))
  | PublishAwaitsSignature promise event, Signature i s =>
      Some (publish_send promise {| unsigned := event; id := i; sig := s |})
  | PublishAwaitsSignature promise event, Refused why =>
      Some (reject promise (SignerRejection why))
  | _, _ => None
  end.

(** Calling every listener of a list, in order. *)
Fixpoint emit {L} (call : L -> M unit) (listeners : list L) : M unit :=
  match listeners with
  | [] => ret tt
  | l :: rest => (try_catch (call l) (fun _ => ret tt)) ;; emit call rest
  end.

Definition react (i : Input) : M unit :=
  match i with
  | Call_authenticate => _ <- authenticate ;; ret tt
  | Call_publishKind30078Event content dTag additionalTags =>
      _ <- publishKind30078Event content dTag additionalTags ;; ret tt
  | Call_disconnect => disconnect
  | Relay_auth r challenge =>
      fun w => match relays w !! r with
               | Some o =>
                   if closed o then (Normal tt, w)
                   else emit (fun l => match l with
                                       | OnAuth promise timer pubkey =>
                                           onAuth promise timer pubkey challenge
                                       end) (on_auth o) w
               | None => (Normal tt, w)
               end
  | Timer_fires t =>
      fun w => match timers w !! t with
               | Some tm =>
                   if armed tm
                   then (clearTimeout t ;; reject (rejects tm) (reason tm)) w
                   else (Normal tt, w)
               | None => (Normal tt, w)
               end
  | Replies k reply =>
      fun w => match tasks w !! k with
               | Some (Some t) =>
                   match resume t reply with
                   | Some continuation =>
                       continuation (with_tasks (fun ts => <[k := None]> ts) w)
                   | None => (Normal tt, w)
                   end
               | _ => (Normal tt, w)
               end
  end.

Definition step (i : Input) (w : World) : World := snd (react i w).

Definition run (inputs : list Input) (w : World) : World :=
  fold_left (fun w i => step i w) inputs w.

End Service.

(** ** A page for the examples *)

Definition relay_example : AuthConfig :=
  {| relayUrl := "wss://relay.example"; timeout := None |}.

Definition proofId : string := Scenario.id64 "a".

(** [authenticate] with the extension present, as far as it gets. *)
Definition triggered : World :=
  run relay_example
    [ Call_authenticate;
      Replies 0%nat (PublicKey "npub");
      Replies 1%nat Connected ]
    (new_world true 1700000000123).

(** The relay has challenged, and the proof record is with the signer. *)
Definition signing_proof : World :=
  step relay_example (Relay_auth 0%nat "c1") triggered.

(** The signer has signed it. *)
Definition proof_signed : World :=
  step relay_example (Replies 2%nat (Signature proofId "sig")) signing_proof.

End NostrAuth.

(** * More of what the WebSocket service keeps *)

Module RelayAuthKeeps.
Import Js Nostr Eff RelayAuth.

Section Keeps.

Context {host : Host}.

(** A timer of the service: the configured delay, and one of the two
    timeout errors as its reason. *)
Definition timer_ok (tm : Timer) : Prop :=
  delay tm = timeout_or_default config /\
  (reason tm = AuthenticationTimeout \/ reason tm = PublishTimeout).

Definition timers_kept (w w' : World) : Prop :=
  Forall timer_ok (timers w) -> Forall timer_ok (timers w').

(** The flag is not raised between [w] and [w']. *)
Definition flag_kept (w w' : World) : Prop :=
  isAuthenticated (this w') = true -> isAuthenticated (this w) = true.

(** The fields of the service are the same in [w] and [w']. *)
Definition this_kept (w w' : World) : Prop := this w' = this w.

(** The payload is an acceptance for the closure of [authenticate]: an
    array (or array-like value) headed ["OK"], with [true] at index 2 and
    at index 1 a value whose [length] is 64. *)
Definition is_acceptance (data : string) : Prop :=
  exists msg m1,
    JSON_parse data = Some msg /\
    index (Some msg) 0 = Normal (str "OK") /\
    index (Some msg) 2 = Normal (Some (JBool true)) /\
    index (Some msg) 1 = Normal m1 /\
    length_of m1 = Normal (Some (JNum 64)).

(** What waits at [k] for the signer in [w] still waits there, unchanged,
    in [w']. *)
Definition task_kept (k : nat) (t : Task) (w w' : World) : Prop :=
  tasks w !! k = Some (Some t) -> tasks w' !! k = Some (Some t).

(** The payload is a challenge message that carries [c]: it parses to a
    value with ['AUTH'] at index 0 and [c] at index 1. *)
Definition carries_challenge (data : string) (c : value) : Prop :=
  exists msg,
    JSON_parse data = Some msg /\
    index (Some msg) 0 = Normal (str "AUTH") /\
    index (Some msg) 1 = Normal c.

(** [c] came in with one of the messages among [inputs]. *)
Definition received (inputs : list Input) (c : value) : Prop :=
  exists s data, Ws_message s data ∈ inputs /\ carries_challenge data c.

(** A proof record of this service for a challenge that was heard. *)
Definition answers (heard : value -> Prop) (e : Event) : Prop :=
  exists c now pk, heard c /\ e = authEvent_of (relayUrl config) c now pk.

Definition frame_answers (heard : value -> Prop) (f : Frame) : Prop :=
  match f with
  | AUTH signedAuthEvent => answers heard (unsigned signedAuthEvent)
  | REQ _ _ _ | EVENT _ => True
  end.

Definition task_answers (heard : value -> Prop) (t : option Task) : Prop :=
  match t with
  | Some (ChallengeAwaitsSignature authEvent) => answers heard authEvent
  | _ => True
  end.

(** Every proof record waiting for its signature and every one that went
    out on any socket answers a challenge that was heard. *)
Definition answers_ok (heard : value -> Prop) (w : World) : Prop :=
  Forall (task_answers heard) (tasks w) /\
  Forall (fun ws => Forall (frame_answers heard) (sent ws)) (sockets w).

Definition answers_kept (heard : value -> Prop) (w w' : World) : Prop :=
  answers_ok heard w -> answers_ok heard w'.

(** [`${text || 'Unknown error'}`] for a text that is a string. *)
Definition reason_or_unknown (text : string) : string :=
  if String.eqb text EmptyString then "Unknown error" else text.

End Keeps.

End RelayAuthKeeps.

(** * More hosts and moments for the scenarios *)

Module Moments.
Import Js Nostr Eff RelayAuth Scenario.

(** What the trigger subscription and the relay may also say. *)
Definition end_of_stored_events : json := JArr [JStr "EOSE"; JStr "auth_trigger"].
Definition closed_advisory : json :=
  JArr [JStr "CLOSED"; JStr "auth_trigger"; JStr "auth-required: subscription needs auth"].

Definition talkative_corpus : list json :=
  corpus ++ [end_of_stored_events; closed_advisory].

(** The same page with a relay that also sends those. *)
Definition talkative : Host :=
  {| config := relay_example;
     JSON_parse := fun data => find (fun j => String.eqb (JSON_text j) data) talkative_corpus;
     WebSocket_accepts := fun u => String.prefix "ws" u |}.

(** A service configured with a URL that is no WebSocket URL, and with a
    timeout of 0. *)
Definition mistyped : Host :=
  {| config := {| relayUrl := "http://relay.example"; timeout := Some 0 |};
     JSON_parse := parse_corpus;
     WebSocket_accepts := fun u => String.prefix "ws" u |}.

(** The challenge has arrived and the proof record is with the signer. *)
Definition signing_proof : World :=
  step (Ws_message 0%nat (JSON_text challenge_c1)) connected.

(** A publication has been called and waits for the public key. *)
Definition publish_called : World :=
  step (Call_publishKind30078Event "hello" "note-1" [["t"; "demo"]]) authenticated.

(** It has the public key and waits for the signature. *)
Definition signing_publication : World :=
  step (Signer_replies 2%nat (PublicKey "npub")) publish_called.

(** [authenticate] has been called on the mistyped service and waits for
    the public key. *)
Definition mistyped_called : World :=
  step (host := mistyped) Call_authenticate page.

End Moments.

(** * What the pooled-relay service keeps *)

Module NostrAuthKeeps.
Import Js Nostr Eff NostrAuth.

(** The service is not marked authenticated and none of its promises
    has been fulfilled. *)
Definition unauthenticated (w : World) : Prop :=
  isAuthenticated (this w) = false /\
  forall p v, promises w !! p <> Some (Fulfilled v).

Definition unauthenticated_kept (w w' : World) : Prop :=
  unauthenticated w -> unauthenticated w'.

End NostrAuthKeeps.

(** * [src/composables/useNostrAuth.ts]: the state holder over the pooled service *)

Module UseNostrAuth.
Import Js Nostr Eff.
Local Open Scope js_scope.

Abbreviation ListenerId := nat (only parsing).
Abbreviation ResultId := nat (only parsing).
Abbreviation TaskId := nat (only parsing).

(** A field left out is [None]; [autoConnect] left out is falsy. *)
Record UseNostrAuthOptions : Type := {
  relayUrl : option string;
  timeout : option Z;
  autoConnect : bool
}.

Record NostrAuthState : Type := {
  isAuthenticated : bool;
  isConnecting : bool;
  error : option string;
  eventId : option string
}.

(** One member of the object literal handed to [updateState]. *)
Inductive Update : Type :=
| Set_isAuthenticated (b : bool)
| Set_isConnecting (b : bool)
| Set_error (e : option string)
| Set_eventId (e : option string).

Definition assign (s : NostrAuthState) (u : Update) : NostrAuthState :=
  match u with
  | Set_isAuthenticated b =>
      {| isAuthenticated := b; isConnecting := isConnecting s;
         error := error s; eventId := eventId s |}
  | Set_isConnecting b =>
      {| isAuthenticated := isAuthenticated s; isConnecting := b;
         error := error s; eventId := eventId s |}
  | Set_error e =>
      {| isAuthenticated := isAuthenticated s; isConnecting := isConnecting s;
         error := e; eventId := eventId s |}
  | Set_eventId e =>
      {| isAuthenticated := isAuthenticated s; isConnecting := isConnecting s;
         error := error s; eventId := e |}
  end.

(** [{ ...this.state, ...updates }] *)
Definition merge (s : NostrAuthState) (updates : list Update) : NostrAuthState :=
  fold_left assign updates s.

Definition initial_state : NostrAuthState :=
  {| isAuthenticated := false; isConnecting := false; error := None; eventId := None |}.

(** How a call of one of the [async] methods has ended so far. *)
Inductive Outcome : Type :=
| Running
| Returns (v : value)
| Throws (e : Exn).

(** The part of an [async] method after its [await]. *)
Inductive Task : Type :=
| AuthenticateAwaits (result : ResultId) (promise : nat)
| PublishAwaits (result : ResultId) (promise : nat)
| DisconnectAwaits (result : ResultId).

(** The object and what it lives in.  [service] is the pooled service
    with its relay objects, signer, timers and promises; the constructor
    assigns it and nothing sets it to [null], so the [!this.service]
    branches are never taken and it is always there.  A listener is known by
    a number, [listeners] is the [Set] in insertion order, and [calls] are
    the calls made to listeners so far, oldest first, with the copy of the
    state each one received.  A listener is taken to return normally and
    to call nothing of the holder while it runs. *)
Record World : Type := {
  service : NostrAuth.World;
  state : NostrAuthState;
  listeners : list ListenerId;
  calls : list (ListenerId * NostrAuthState);
  returned : list Outcome;
  tasks : list (option Task)
}.

Definition with_service (f : NostrAuth.World -> NostrAuth.World) (w : World) : World :=
  {| service := f (service w); state := state w; listeners := listeners w;
     calls := calls w; returned := returned w; tasks := tasks w |}.
Definition with_state (f : NostrAuthState -> NostrAuthState) (w : World) : World :=
  {| service := service w; state := f (state w); listeners := listeners w;
     calls := calls w; returned := returned w; tasks := tasks w |}.
Definition with_listeners (f : list ListenerId -> list ListenerId) (w : World) : World :=
  {| service := service w; state := state w; listeners := f (listeners w);
     calls := calls w; returned := returned w; tasks := tasks w |}.
Definition with_calls
    (f : list (ListenerId * NostrAuthState) -> list (ListenerId * NostrAuthState))
    (w : World) : World :=
  {| service := service w; state := state w; listeners := listeners w;
     calls := f (calls w); returned := returned w; tasks := tasks w |}.
Definition with_returned (f : list Outcome -> list Outcome) (w : World) : World :=
  {| service := service w; state := state w; listeners := listeners w;
     calls := calls w; returned := f (returned w); tasks := tasks w |}.
Definition with_tasks (f : list (option Task) -> list (option Task)) (w : World) : World :=
  {| service := service w; state := state w; listeners := listeners w;
     calls := calls w; returned := returned w; tasks := f (tasks w) |}.

Abbreviation M := (Stmt World).

(** The promise an [async] method hands back. *)
Definition new_result : M ResultId :=
  fun w => (Normal (length (returned w)), with_returned (fun rs => rs ++ [Running]) w).
Definition finish (result : ResultId) (o : Outcome) : M unit :=
  fun w => match returned w !! result with
           | Some Running => (Normal tt, with_returned (fun rs => <[result := o]> rs) w)
           | _ => (Normal tt, w)
           end.
Definition suspend (k : Task) : M TaskId :=
  fun w => (Normal (length (tasks w)), with_tasks (fun ts => ts ++ [Some k]) w).

(** A method of the service, run on the service. *)
Definition on_service {A} (m : NostrAuth.M A) : M A :=
  fun w => let (c, s) := m (service w) in (c, with_service (fun _ => s) w).

(** [a || b] on strings that may be missing. *)
Definition or_else (a : option string) (b : string) : string :=
  match a with
  | Some s => if String.eqb s EmptyString then b else s
  | None => b
  end.

(** [error instanceof Error ? error.message : fallback].  [message_of]
    answers for the values the model does not build with [new Error]:
    [Some m] for an [Error] with message [m], [None] for any other value. *)
Definition error_message (message_of : Exn -> option string) (e : Exn) (fallback : string)
    : string :=
  match e with
  | Error m => m
  | _ => match message_of e with
         | Some m => m
         | None => fallback
         end
  end.

(** The identifier the service resolved with, where it is a string. *)
Definition as_string (v : json) : option string :=
  match v with JStr s => Some s | _ => None end.

Section UseNostrAuth.

Variable options : UseNostrAuthOptions.
(** [process.env.HIVETALK_RELAYS], [None] without [process] or without
    the variable. *)
Variable HIVETALK_RELAYS : option string.
Variable message_of : Exn -> option string.

(** The [config] of the constructor. *)
Definition config : AuthConfig :=
  {| Nostr.relayUrl :=
       or_else (relayUrl options) (or_else HIVETALK_RELAYS "ws://localhost:3334");
     Nostr.timeout :=
       Some (match timeout options with
             | Some t => if t =? 0 then 15000 else t
             | None => 15000
             end) |}.

(** [new UseNostrAuth(options)] in a page whose [window.nostr] is there or
    not, at a time of the clock. *)
Definition new_UseNostrAuth (nostr : bool) (now : Z) : World :=
  {| service := NostrAuth.new_world nostr now; state := initial_state;
     listeners := []; calls := []; returned := []; tasks := [] |}.

Definition subscribe (listener : ListenerId) : M unit :=
  modify (with_listeners (fun ls => if bool_decide (listener ∈ ls) then ls
                                    else ls ++ [listener])) ;;
  modify (fun w => with_calls (fun cs => cs ++ [(listener, state w)]) w).

(** The function [subscribe] returned. *)
Definition unsubscribe (listener : ListenerId) : M unit :=
  modify (with_listeners (fun ls => filter (fun l => l <> listener) ls)).

Definition updateState (updates : list Update) : M unit :=
  modify (with_state (fun s => merge s updates)) ;;
  modify (fun w => with_calls (fun cs => cs ++ map (fun l => (l, state w)) (listeners w)) w).

Definition isNip07Available : M bool :=
  gets (fun w => NostrAuth.window_nostr (service w)).

(** The [catch] of [authenticate]. *)
Definition authenticate_failed (result : ResultId) (e : Exn) : M unit :=
  updateState [ Set_isAuthenticated false; Set_isConnecting false;
                Set_error (Some (error_message message_of e "Unknown authentication error")) ] ;;
  finish result (Returns (Some (JBool false))).

Definition authenticate : M ResultId :=
  result <- new_result ;;
  available <- isNip07Available ;;
  (if negb available then
     updateState [Set_error (Some "NIP-07 extension not found")] ;;
     finish result (Returns (Some (JBool false)))
   else
     try_catch
       (updateState [Set_isConnecting true; Set_error None] ;;
        promise <- on_service NostrAuth.authenticate ;;
        _ <- suspend (AuthenticateAwaits result promise) ;;
        ret tt)
       (fun e => authenticate_failed result e)) ;;
  ret result.

(** [authenticate], from the settled promise of the service on. *)
Definition authenticate_settled (result : ResultId) (p : PromiseState) : option (M unit) :=
  match p with
  | Pending => None
  | Fulfilled success =>
      Some (try_catch
              (updateState [ Set_isAuthenticated (truthy (Some success));
                             Set_isConnecting false;
                             Set_error (if truthy (Some success) then None
                                        else Some "Authentication failed") ] ;;
               finish result (Returns (Some success)))
              (fun e => authenticate_failed result e))
  | Rejected e => Some (authenticate_failed result e)
  end.

(** The [catch] of [publishEvent]. *)
Definition publish_failed (result : ResultId) (e : Exn) : M unit :=
  updateState [Set_error (Some (error_message message_of e "Unknown publish error"))] ;;
  finish result (Returns null).

Definition publishEvent (content dTag : string) (additionalTags : list (list string))
    : M ResultId :=
  result <- new_result ;;
  authenticated <- gets (fun w => isAuthenticated (state w)) ;;
  (if negb authenticated then
     updateState [Set_error (Some "Must authenticate first")] ;;
     finish result (Returns null)
   else
     try_catch
       (updateState [Set_error None] ;;
        promise <- on_service (NostrAuth.publishKind30078Event content dTag additionalTags) ;;
        _ <- suspend (PublishAwaits result promise) ;;
        ret tt)
       (fun e => publish_failed result e)) ;;
  ret result.

Definition publish_settled (result : ResultId) (p : PromiseState) : option (M unit) :=
  match p with
  | Pending => None
  | Fulfilled i =>
      Some (try_catch
              (updateState [Set_eventId (as_string i); Set_error None] ;;
               finish result (Returns (Some i)))
              (fun e => publish_failed result e))
  | Rejected e => Some (publish_failed result e)
  end.

(** [disconnect] has no [catch]: what its body throws rejects its promise. *)
Definition disconnect : M ResultId :=
  result <- new_result ;;
  try_catch
    (on_service NostrAuth.disconnect ;;
     _ <- suspend (DisconnectAwaits result) ;;
     ret tt)
    (fun e => finish result (Throws e)) ;;
  ret result.

Definition disconnect_settled (result : ResultId) : M unit :=
  updateState [ Set_isAuthenticated false; Set_isConnecting false;
                Set_error None; Set_eventId None ] ;;
  finish result (Returns undefined).

Definition getState (w : World) : NostrAuthState := state w.
Definition getService (w : World) : NostrAuth.World := service w.

(** ** What the page and the environment can do *)

Inductive Input : Type :=
| Call_subscribe (listener : ListenerId)
| Call_unsubscribe (listener : ListenerId)
| Call_authenticate
| Call_publishEvent (content dTag : string) (additionalTags : list (list string))
| Call_disconnect
| Window_load
    (* the page's [load] event *)
| Service_sees (i : NostrAuth.Input)
    (* an event of the relay, a timer or the signer reaches the service, or
       the page calls it through [getService()] *)
| Continues (k : TaskId).
    (* the awaited promise has settled and the method goes on *)

Definition resume (t : Task) (s : NostrAuth.World) : option (M unit) :=
  match t with
  | AuthenticateAwaits result promise =>
      match NostrAuth.promises s !! promise with
      | Some p => authenticate_settled result p
      | None => None
      end
  | PublishAwaits result promise =>
      match NostrAuth.promises s !! promise with
      | Some p => publish_settled result p
      | None => None
      end
  | DisconnectAwaits result => Some (disconnect_settled result)
  end.

Definition react (i : Input) : M unit :=
  match i with
  | Call_subscribe listener => subscribe listener
  | Call_unsubscribe listener => unsubscribe listener
  | Call_authenticate => _ <- authenticate ;; ret tt
  | Call_publishEvent content dTag additionalTags =>
      _ <- publishEvent content dTag additionalTags ;; ret tt
  | Call_disconnect => _ <- disconnect ;; ret tt
  | Window_load =>
      if autoConnect options then
        present <- gets (fun w => NostrAuth.window_nostr (service w)) ;;
        if present then _ <- authenticate ;; ret tt else ret tt
      else ret tt
  | Service_sees i => modify (with_service (NostrAuth.step config i))
  | Continues k =>
      fun w => match tasks w !! k with
               | Some (Some t) =>
                   match resume t (service w) with
                   | Some continuation =>
                       continuation (with_tasks (fun ts => <[k := None]> ts) w)
                   | None => (Normal tt, w)
                   end
               | _ => (Normal tt, w)
               end
  end.

Definition step (i : Input) (w : World) : World := snd (react i w).

Definition run (inputs : list Input) (w : World) : World :=
  fold_left (fun w i => step i w) inputs w.

(** The calls one listener has received. *)
Definition calls_to (listener : ListenerId) (w : World) : list NostrAuthState :=
  map snd (filter (fun c => fst c = listener) (calls w)).

(** Nothing between [w] and [w'] has called a listener that was not
    subscribed, or subscribed it. *)
Definition stays_quiet (listener : ListenerId) (w w' : World) : Prop :=
  listener ∉ listeners w ->
  (listener ∉ listeners w') /\ calls_to listener w' = calls_to listener w.

(** No promise of a method has been rejected. *)
Definition none_rejected (w : World) : Prop :=
  forall result e, returned w !! result <> Some (Throws e).

Definition rejected_kept (w w' : World) : Prop := none_rejected w -> none_rejected w'.

(** Neither the service nor the holder is marked authenticated, no
    promise of the service has been fulfilled, and no identifier of a
    published event is recorded. *)
Definition never_authenticated (w : World) : Prop :=
  NostrAuthKeeps.unauthenticated (service w) /\
  isAuthenticated (state w) = false /\
  eventId (state w) = None.

Definition never_kept (w w' : World) : Prop :=
  never_authenticated w -> never_authenticated w'.

(** An update that neither raises the flag nor records an identifier. *)
Definition harmless (u : Update) : Prop :=
  match u with
  | Set_isAuthenticated b => b = false
  | Set_eventId e => e = None
  | Set_isConnecting _ | Set_error _ => True
  end.

(** Between [w] and [w'] every listener of [w] has been called once more,
    in the order of subscription, with the state of [w']; no other call
    was made and nobody subscribed or unsubscribed. *)
Definition announced (w w' : World) : Prop :=
  listeners w' = listeners w /\
  calls w' = calls w ++ map (fun l => (l, state w')) (listeners w).

End UseNostrAuth.

(** ** [NostrAuthUtils.createUIManager]: what its listener writes *)

(** The four elements, all given. *)
Record Elements : Type := {
  statusElement_className : string;
  statusElement_textContent : string;
  authButton_disabled : bool;
  authButton_textContent : string;
  authButton_display : string;
  publishSection_display : string;
  disconnectButton_display : string
}.

(** [statusClass] and [message] *)
Definition status (s : NostrAuthState) : string * string :=
  if isConnecting s then ("info", "Connecting and authenticating...")
  else if isAuthenticated s then ("success", "✅ Authenticated successfully!")
  else match error s with
       | Some e =>
           if truthy (str e) then ("error", "❌ " +:+ e)
           else ("info", "Ready to authenticate")
       | None => ("info", "Ready to authenticate")
       end.

Definition render (s : NostrAuthState) : Elements :=
  {| statusElement_className := "status " +:+ fst (status s);
     statusElement_textContent := snd (status s);
     authButton_disabled := isConnecting s;
     authButton_textContent :=
       if isConnecting s then "🔄 Authenticating..." else "🔑 Authenticate with Relay";
     authButton_display := if isAuthenticated s then "none" else "inline-block";
     publishSection_display := if isAuthenticated s then "block" else "none";
     disconnectButton_display := if isAuthenticated s then "inline-block" else "none" |}.

(** ** A page for the examples *)

Definition defaults : UseNostrAuthOptions :=
  {| relayUrl := None; timeout := None; autoConnect := false |}.

(** The message the engine gives the one [TypeError] the examples meet. *)
Definition engine_message : Exn -> option string :=
  fun e => match e with
           | TypeError => Some "this.relay.send is not a function"
           | _ => None
           end.

Definition page : World := new_UseNostrAuth true 1700000000123.

(** The same page without the extension, with one listener. *)
Definition page_without_extension : World :=
  step defaults None engine_message (Call_subscribe 7%nat)
    (new_UseNostrAuth false 1700000000123).

(** [authenticate] through the holder, as far as the service gets: the
    service's promise has been rejected, the holder still waits. *)
Definition failed : World :=
  run defaults None engine_message
    [ Call_subscribe 7%nat;
      Call_authenticate;
      Service_sees (NostrAuth.Replies 0%nat (NostrAuth.PublicKey "npub"));
      Service_sees (NostrAuth.Replies 1%nat NostrAuth.Connected) ]
    page.

(** The holder has gone on after the [await]. *)
Definition reported : World :=
  step defaults None engine_message (Continues 0%nat) failed.

End UseNostrAuth.
(** * Properties of the WebSocket service *)

Module RelayAuthFacts.
Import Js Nostr Eff RelayAuth.
Local Open Scope js_scope.

Section Facts.

Context {host : Host}.

Ltac unfold_m :=
  unfold bind, ret, throw, lift, gets, modify, try_catch in *.

Lemma lookup_fresh {A} (l : list A) (x : A) : (l ++ [x]) !! length l = Some x.
Proof. rewrite lookup_app_r by lia. now rewrite Nat.sub_diag. Qed.

Lemma insert_fresh {A} (l : list A) (x y : A) : <[length l := y]> (l ++ [x]) = l ++ [y].
Proof.
  replace (length l) with (length l + 0)%nat at 1 by lia.
  now rewrite insert_app_r.
Qed.

Lemma lookup_fresh_None {A} (l : list A) : l !! length l = None.
Proof. apply lookup_ge_None. lia. Qed.

(** A promise created and rejected in the same breath. *)
Lemma new_then_reject (e : Exn) (w : World) :
  bind new_Promise (fun p => bind (reject p e) (fun _ => ret p)) w
  = (Normal (length (promises w)), with_promises (fun ps => ps ++ [Rejected e]) w).
Proof.
  unfold bind, new_Promise, reject, settle, ret. simpl.
  rewrite lookup_fresh. simpl. unfold with_promises. simpl.
  now rewrite insert_fresh.
Qed.

Lemma authOnMessage_unparseable promise timer pubkey data w :
  JSON_parse data = None ->
  authOnMessage promise timer pubkey data w = (Normal tt, w).
Proof.
  intros Hp. unfold authOnMessage, parse. rewrite Hp. now unfold_m.
Qed.

Lemma publishOnMessage_unparseable original promise timer eid data w :
  JSON_parse data = None ->
  publishOnMessage original promise timer eid data w = (Normal tt, w).
Proof.
  intros Hp. unfold publishOnMessage, parse. rewrite Hp. now unfold_m.
Qed.

Lemma dispatch_unparseable data :
  JSON_parse data = None ->
  forall h w, dispatch h data w = (Normal tt, w).
Proof.
  intros Hp.
  fix IH 1. intros [promise timer pubkey | original promise timer eid] w; simpl.
  - now apply authOnMessage_unparseable.
  - unfold bind. destruct original as [h'|].
    + rewrite IH. now apply publishOnMessage_unparseable.
    + unfold ret. now apply publishOnMessage_unparseable.
Qed.

(** C10. An inbound payload that [JSON.parse] refuses is swallowed by both
    message closures, however they are stacked: the closure returns
    normally and the world (the service's fields, every promise, timer,
    socket and suspended task) is what it was; so is it after the
    transport has delivered that payload on any socket. *)
Theorem unparseable_payload_is_ignored (data : string) :
  JSON_parse data = None ->
  (forall h w, dispatch h data w = (Normal tt, w)) /\
  (forall s w, step (Ws_message s data) w = w).
Proof.
  intros Hp. split.
  - now apply dispatch_unparseable.
  - intros s w. unfold step. simpl.
    destruct (sockets w !! s) as [ws|]; [|reflexivity].
    destruct (readyState ws); try reflexivity.
    destruct (onmessage ws); [|reflexivity].
    now rewrite dispatch_unparseable.
Qed.

(** C9. Without [window.nostr], [authenticate] returns a fresh promise
    already rejected with the extension-not-found error; no socket is
    created, no timer is armed, nothing is left suspended, and the
    service's fields are untouched. *)
Theorem authenticate_without_signer (w : World) :
  window_nostr w = false ->
  exists p w',
    authenticate w = (Normal p, w') /\
    promises w !! p = None /\
    promises w' !! p = Some (Rejected SignerUnavailable) /\
    sockets w' = sockets w /\
    this w' = this w /\
    timers w' = timers w /\
    tasks w' = tasks w.
Proof.
  intros Hn.
  exists (length (promises w)), (with_promises (fun ps => ps ++ [Rejected SignerUnavailable]) w).
  split.
  - rewrite <- new_then_reject.
    unfold authenticate, getNip07Signer. unfold_m. simpl. now rewrite Hn.
  - simpl. rewrite lookup_fresh, lookup_fresh_None. tauto.
Qed.

(** While [isAuthenticated] is false (or no relay is held),
    [publishKind30078Event] returns a fresh promise already rejected with
    the must-authenticate-first error, whatever the configuration; no
    socket is touched, so nothing is sent, and nothing is left suspended
    that could send later. *)
Lemma ws_publish_requires_authentication (w : World)
    (content dTag : string) (additionalTags : list (list string)) :
  isAuthenticated (this w) = false \/ relay (this w) = None ->
  exists p w',
    publishKind30078Event content dTag additionalTags w = (Normal p, w') /\
    promises w !! p = None /\
    promises w' !! p = Some (Rejected NotAuthenticated) /\
    sockets w' = sockets w /\
    tasks w' = tasks w /\
    timers w' = timers w /\
    this w' = this w.
Proof.
  intros Hna.
  exists (length (promises w)), (with_promises (fun ps => ps ++ [Rejected NotAuthenticated]) w).
  split.
  - rewrite <- new_then_reject.
    unfold publishKind30078Event. unfold_m. simpl.
    destruct Hna as [-> | ->]; simpl; [reflexivity|].
    rewrite orb_true_r. reflexivity.
  - simpl. rewrite lookup_fresh, lookup_fresh_None. tauto.
Qed.

Lemma ws_close_normal s w : fst (ws_close s w) = Normal tt.
Proof.
  unfold ws_close. destruct (sockets w !! s) as [ws|]; [|reflexivity].
  now destruct (readyState ws).
Qed.

Lemma ws_close_this s w : this (snd (ws_close s w)) = this w.
Proof.
  unfold ws_close. destruct (sockets w !! s) as [ws|]; [|reflexivity].
  now destruct (readyState ws).
Qed.

(** [disconnect] in one equation: close what is held, then reset the fields. *)
Lemma disconnect_eq (w : World) :
  disconnect w = (Normal tt, with_this (fun _ => new_service) (close_held w)).
Proof.
  unfold disconnect, close_held. unfold_m.
  destruct (relay (this w)) as [s|] eqn:Hr.
  - pose proof (ws_close_normal s w) as Hn. pose proof (ws_close_this s w) as Ht.
    destruct (ws_close s w) as [c w1]. simpl in *. subst c. reflexivity.
  - unfold with_this, set_isAuthenticated, set_authChallenge, new_service. simpl.
    now rewrite Hr.
Qed.


(** ** The handshake closure on correlation results *)

(** What the closure of [authenticate] does with [["OK", eid, ok, text, ...]]. *)
Lemma authOnMessage_OK promise timer pubkey data eid ok text rest w :
  JSON_parse data = Some (JArr (JStr "OK" :: JStr eid :: JBool ok :: JStr text :: rest)) ->
  authOnMessage promise timer pubkey data w =
  (Normal tt,
   if ok then
     if (String.length eid =? 64)%nat
     then snd (resolve promise (JBool true)
                 (with_timers (fun ts => alter disarm timer ts)
                    (with_this (set_isAuthenticated true) w)))
     else w
   else
     if is_substring "auth-required" text
     then snd (reject promise AuthenticationFailed
                 (with_timers (fun ts => alter disarm timer ts) w))
     else w).
Proof.
  intros Hp. unfold authOnMessage, parse. rewrite Hp. unfold_m. simpl.
  destruct ok; simpl.
  - replace (Z.of_nat (String.length eid) =? 64) with (String.length eid =? 64)%nat.
    2:{ destruct (Nat.eqb_spec (String.length eid) 64) as [->|Hne]; [reflexivity|].
        symmetry. apply Z.eqb_neq. lia. }
    destruct (String.length eid =? 64)%nat; simpl; [|reflexivity].
    unfold clearTimeout, modify, resolve.
    now destruct (settle promise (Fulfilled (JBool true)) _) as [[[]|e] w'].
  - destruct text as [|c text']; [reflexivity|]. simpl.
    destruct (is_substring "auth-required" (String c text')); simpl; [|reflexivity].
    unfold clearTimeout, modify, reject.
    now destruct (settle promise (Rejected AuthenticationFailed) _) as [[[]|e] w'].
Qed.

Lemma settle_pending p st w :
  promises w !! p = Some Pending ->
  settle p st w = (Normal tt, with_promises (fun ps => <[p := st]> ps) w).
Proof. intros H. unfold settle. now rewrite H. Qed.

Lemma settle_this p st w : this (snd (settle p st w)) = this w.
Proof. unfold settle. now destruct (promises w !! p) as [[]|]. Qed.

Lemma settle_sockets p st w : sockets (snd (settle p st w)) = sockets w.
Proof. unfold settle. now destruct (promises w !! p) as [[]|]. Qed.

Lemma settle_timers p st w : timers (snd (settle p st w)) = timers w.
Proof. unfold settle. now destruct (promises w !! p) as [[]|]. Qed.

Lemma settle_tasks p st w : tasks (snd (settle p st w)) = tasks w.
Proof. unfold settle. now destruct (promises w !! p) as [[]|]. Qed.

Lemma settle_lookup p st w :
  promises w !! p = Some Pending ->
  promises (snd (settle p st w)) !! p = Some st.
Proof.
  intros H. rewrite settle_pending by assumption. simpl.
  apply list_lookup_insert_eq. now apply lookup_lt_Some in H.
Qed.

(** Settling one promise leaves every other one alone, and a settled
    promise stays as it is. *)
Lemma settle_other p q st w :
  p <> q -> promises (snd (settle p st w)) !! q = promises w !! q.
Proof.
  intros Hne. unfold settle. destruct (promises w !! p) as [[]|]; try reflexivity.
  simpl. now apply list_lookup_insert_ne.
Qed.

Lemma settle_settled p q st st' w :
  promises w !! q = Some st' -> st' <> Pending ->
  promises (snd (settle p st w)) !! q = Some st'.
Proof.
  intros Hq Hs. destruct (decide (p = q)) as [->|Hne].
  - unfold settle. rewrite Hq. destruct st'; [congruence| |]; assumption.
  - now rewrite settle_other.
Qed.

(** ** Delivery of transport and timer events *)

Lemma step_message s ws h data w :
  sockets w !! s = Some ws -> readyState ws = OPEN -> onmessage ws = Some h ->
  step (Ws_message s data) w = snd (dispatch h data w).
Proof. intros Hs Hst Hh. unfold step. simpl. now rewrite Hs, Hst, Hh. Qed.

Lemma step_timer t tm w :
  timers w !! t = Some tm -> armed tm = true ->
  step (Timer_fires t) w
  = snd (reject (rejects tm) (reason tm) (with_timers (fun ts => alter disarm t ts) w)).
Proof.
  intros Ht Ha. unfold step. simpl. rewrite Ht, Ha.
  unfold clearTimeout. unfold_m.
  now destruct (reject (rejects tm) (reason tm) _) as [[[]|e] w'].
Qed.

Lemma step_reply k t reply continuation w :
  tasks w !! k = Some (Some t) -> resume t reply = Some continuation ->
  step (Signer_replies k reply) w
  = snd (continuation (with_tasks (fun ts => <[k := None]> ts) w)).
Proof. intros Hk Hr. unfold step. simpl. now rewrite Hk, Hr. Qed.

(** While the closure of [authenticate] is the
    socket's [onmessage] and the handshake is pending, a correlation result
    [["OK", eid, ok, text]] settles it by its flag and the shape of [eid]
    alone: it resolves [true] exactly when [ok] is true and [eid] is 64
    characters long, it rejects exactly when [ok] is false and [text]
    contains [auth-required], and otherwise the handshake stays pending.
    No identifier of a proof record enters the decision. *)
Lemma ws_acceptance_by_flag_and_length
    w s ws promise timer pubkey data eid ok text rest :
  sockets w !! s = Some ws -> readyState ws = OPEN ->
  onmessage ws = Some (AuthOnMessage promise timer pubkey) ->
  promises w !! promise = Some Pending ->
  JSON_parse data = Some (JArr (JStr "OK" :: JStr eid :: JBool ok :: JStr text :: rest)) ->
  let w' := step (Ws_message s data) w in
  promises w' !! promise
    = Some (if ok
            then if (String.length eid =? 64)%nat then Fulfilled (JBool true) else Pending
            else if is_substring "auth-required" text
                 then Rejected AuthenticationFailed else Pending) /\
  isAuthenticated (this w')
    = (if ok && (String.length eid =? 64)%nat then true else isAuthenticated (this w)) /\
  sockets w' = sockets w.
Proof.
  intros Hs Hst Hh Hp Hm w'. subst w'.
  rewrite (step_message s ws _ data w Hs Hst Hh). simpl.
  rewrite (authOnMessage_OK _ _ _ _ _ _ _ _ _ Hm). simpl.
  destruct ok; simpl.
  - destruct (String.length eid =? 64)%nat; [|now rewrite Hp].
    unfold resolve. rewrite settle_lookup, settle_this, settle_sockets by assumption.
    now split.
  - destruct (is_substring "auth-required" text); [|now rewrite Hp].
    unfold reject. rewrite settle_lookup, settle_this, settle_sockets by assumption.
    now split.
Qed.

Lemma alter_fresh {A} (f : A -> A) (l : list A) (x : A) :
  alter f (length l) (l ++ [x]) = l ++ [f x].
Proof.
  replace (length l) with (length l + 0)%nat at 1 by lia.
  now rewrite alter_app_r.
Qed.

(** The executor of [authenticate]: one timer, one socket. *)
Lemma authenticate_connect_timer promise pubkey w :
  timers (snd (authenticate_connect promise pubkey w))
  = timers w ++ [{| armed := WebSocket_accepts (relayUrl config);
                    delay := timeout_or_default config;
                    rejects := promise;
                    reason := AuthenticationTimeout |}].
Proof.
  unfold authenticate_connect, setTimeout, new_WebSocket, assign_handlers, clearTimeout, reject.
  unfold_m. simpl.
  destruct (WebSocket_accepts (relayUrl config)); simpl; [reflexivity|].
  match goal with |- context [settle ?p ?st ?w0] =>
    pose proof (settle_timers p st w0) as Ht; destruct (settle p st w0) as [[[]|e] w1] end;
    simpl in *; rewrite Ht; simpl; now rewrite alter_fresh.
Qed.

(** C3 (as the code has it). Let a timer armed by [authenticate] for a
    pending handshake fire: the handshake is rejected with the
    authentication-timeout error and nothing else happens; the service
    keeps its relay, and no socket changes state.  Let instead a refusal
    [["OK", eid, false, text]] with [auth-required] in its text arrive,
    whatever [eid]: the handshake is rejected with the
    authentication-failed error, and again the service's fields and every
    socket are what they were.  The timer itself is the only one the
    executor of [authenticate] creates, with the configured delay, or
    10000 when none is configured. *)
Theorem authentication_failure_only_rejects w t tm promise :
  timers w !! t = Some tm -> armed tm = true ->
  rejects tm = promise -> reason tm = AuthenticationTimeout ->
  promises w !! promise = Some Pending ->
  (let w' := step (Timer_fires t) w in
   promises w' !! promise = Some (Rejected AuthenticationTimeout) /\
   this w' = this w /\ sockets w' = sockets w) /\
  (forall s ws pubkey data eid text rest,
     sockets w !! s = Some ws -> readyState ws = OPEN ->
     onmessage ws = Some (AuthOnMessage promise t pubkey) ->
     JSON_parse data = Some (JArr (JStr "OK" :: JStr eid :: JBool false :: JStr text :: rest)) ->
     is_substring "auth-required" text = true ->
     let w' := step (Ws_message s data) w in
     promises w' !! promise = Some (Rejected AuthenticationFailed) /\
     this w' = this w /\ sockets w' = sockets w) /\
  (forall w0 pubkey,
     exists tm0, timers (snd (authenticate_connect promise pubkey w0)) = timers w0 ++ [tm0] /\
       rejects tm0 = promise /\ reason tm0 = AuthenticationTimeout /\
       delay tm0 = timeout_or_default config /\
       (timeout config = None -> delay tm0 = 10000)).
Proof.
  intros Ht Ha Hr Hre Hp. split; [|split].
  - simpl. rewrite (step_timer t tm w Ht Ha), Hr, Hre. unfold reject.
    rewrite settle_lookup, settle_this, settle_sockets by assumption. now split.
  - intros s ws pubkey data eid text rest Hs Hst Hh Hm Hsub. simpl.
    rewrite (step_message s ws _ data w Hs Hst Hh). simpl.
    rewrite (authOnMessage_OK _ _ _ _ _ _ _ _ _ Hm). simpl. rewrite Hsub.
    unfold reject. rewrite settle_lookup, settle_this, settle_sockets by assumption.
    now split.
  - intros w0 pubkey. eexists. split; [apply authenticate_connect_timer|]. simpl.
    repeat split. intros Hnone. unfold timeout_or_default. now rewrite Hnone.
Qed.

(** ** The challenge and the proof record *)

(** What the closure of [authenticate] does with [["AUTH", challenge, ...]]. *)
Lemma authOnMessage_AUTH promise timer pubkey data challenge rest w :
  JSON_parse data = Some (JArr (JStr "AUTH" :: JStr challenge :: rest)) ->
  window_nostr w = true ->
  authOnMessage promise timer pubkey data w =
  (Normal tt,
   with_tasks (fun ts => ts ++ [Some (ChallengeAwaitsSignature
                                        (authEvent_of (relayUrl config) (str challenge) (clock w) pubkey))])
     (with_this (set_authChallenge (str challenge)) w)).
Proof.
  intros Hp Hn. unfold authOnMessage, parse, signEvent, suspend, Date_now. rewrite Hp.
  unfold_m. simpl. now rewrite Hn.
Qed.

(** The continuation of the closure once the signer has signed. *)
Lemma proof_is_sent k authEvent i sg s ws w :
  tasks w !! k = Some (Some (ChallengeAwaitsSignature authEvent)) ->
  relay (this w) = Some s -> sockets w !! s = Some ws -> readyState ws = OPEN ->
  sockets (step (Signer_replies k (Signature i sg)) w)
  = <[s := push_frame (AUTH {| unsigned := authEvent; id := i; sig := sg |}) ws]> (sockets w).
Proof.
  intros Hk Hr Hs Hst.
  rewrite (step_reply k _ (Signature i sg) _ w Hk eq_refl).
  unfold relay_send, this_relay, ws_send. unfold_m. simpl.
  rewrite Hr. simpl. now rewrite Hs, Hst.
Qed.

(** When a challenge [["AUTH", c]] reaches the closure of
    [authenticate] on the open socket the service holds, [c] becomes the
    stored challenge, and the record that goes to the signer and then, with
    the signer's identifier and signature, onto that socket in an [AUTH]
    frame has kind 22242, empty content, the public key obtained at the
    start, and exactly the two tags [["relay", config.relayUrl]] and
    [["challenge", c]]. *)
Lemma ws_proof_record
    w s ws promise timer pk data c rest i sg :
  relay (this w) = Some s -> sockets w !! s = Some ws -> readyState ws = OPEN ->
  onmessage ws = Some (AuthOnMessage promise timer pk) ->
  window_nostr w = true ->
  JSON_parse data = Some (JArr (JStr "AUTH" :: JStr c :: rest)) ->
  let w1 := step (Ws_message s data) w in
  let w2 := step (Signer_replies (length (tasks w)) (Signature i sg)) w1 in
  authChallenge (this w1) = str c /\
  exists authEvent ws2,
    tasks w1 !! length (tasks w) = Some (Some (ChallengeAwaitsSignature authEvent)) /\
    sockets w2 !! s = Some ws2 /\
    sent ws2 = sent ws ++ [AUTH {| unsigned := authEvent; id := i; sig := sg |}] /\
    kind authEvent = 22242 /\
    content authEvent = EmptyString /\
    pubkey authEvent = pk /\
    tags authEvent = [ [str "relay"; str (relayUrl config)]; [str "challenge"; str c] ].
Proof.
  intros Hr Hs Hst Hh Hn Hm w1 w2.
  assert (Hw1 : w1 = with_tasks (fun ts => ts ++ [Some (ChallengeAwaitsSignature
                      (authEvent_of (relayUrl config) (str c) (clock w) pk))])
                      (with_this (set_authChallenge (str c)) w)).
  { subst w1. rewrite (step_message s ws _ data w Hs Hst Hh). simpl.
    now rewrite (authOnMessage_AUTH _ _ _ _ _ _ _ Hm Hn). }
  split; [now rewrite Hw1|].
  exists (authEvent_of (relayUrl config) (str c) (clock w) pk).
  exists (push_frame (AUTH {| unsigned := authEvent_of (relayUrl config) (str c) (clock w) pk;
                              id := i; sig := sg |}) ws).
  split; [rewrite Hw1; simpl; apply lookup_fresh|].
  split.
  - subst w2.
    rewrite (proof_is_sent (length (tasks w))
               (authEvent_of (relayUrl config) (str c) (clock w) pk) i sg s ws w1).
    + rewrite Hw1. simpl. apply list_lookup_insert_eq. now apply lookup_lt_Some in Hs.
    + rewrite Hw1. simpl. apply lookup_fresh.
    + now rewrite Hw1.
    + now rewrite Hw1.
    + assumption.
  - now simpl.
Qed.

(** ** Publication *)

Lemma publish_call content dTag additionalTags s w :
  isAuthenticated (this w) = true -> relay (this w) = Some s -> window_nostr w = true ->
  publishKind30078Event content dTag additionalTags w =
  (Normal (length (promises w)),
   with_tasks (fun ts => ts ++ [Some (PublishAwaitsPublicKey (length (promises w))
                                        content dTag additionalTags)])
     (with_promises (fun ps => ps ++ [Pending]) w)).
Proof.
  intros Ha Hr Hn. unfold publishKind30078Event, getNip07Signer, new_Promise, suspend.
  unfold_m. simpl. rewrite Ha, Hr. simpl. rewrite Hn. reflexivity.
Qed.

Lemma publish_build_eq promise content dTag additionalTags pk w :
  window_nostr w = true ->
  publish_build promise content dTag additionalTags pk w =
  (Normal tt,
   with_tasks (fun ts => ts ++ [Some (PublishAwaitsSignature promise
                                        (publishEvent_of content dTag additionalTags (clock w) pk))])
     w).
Proof.
  intros Hn. unfold publish_build, signEvent, suspend, Date_now. unfold_m. simpl.
  now rewrite Hn.
Qed.

Lemma insert_after_alter {A} (f : A -> A) (l : list A) (i : nat) (x : A) :
  <[i := x]> (alter f i l) = <[i := x]> l.
Proof. rewrite !list_insert_alter, list_alter_alter_eq. reflexivity. Qed.

(** The executor of the promise of [publishKind30078Event] on an open
    socket: one timer, the closure stacked on whatever [onmessage] held,
    one [EVENT] frame. *)
Lemma publish_send_eq promise signedEvent s ws w :
  relay (this w) = Some s -> sockets w !! s = Some ws -> readyState ws = OPEN ->
  publish_send promise signedEvent w =
  (Normal tt,
   with_sockets (fun l =>
       <[s := push_frame (EVENT signedEvent)
                (set_onmessage (Some (PublishOnMessage (onmessage ws) promise
                                        (length (timers w)) (id signedEvent))) ws)]> l)
     (with_timers (fun ts => ts ++ [{| armed := true; delay := timeout_or_default config;
                                       rejects := promise; reason := PublishTimeout |}]) w)).
Proof.
  intros Hr Hs Hst.
  unfold publish_send, setTimeout, this_relay, get_onmessage, assign_onmessage,
    relay_send, this_relay, ws_send.
  unfold_m. simpl. rewrite Hr. simpl. rewrite Hs. simpl. rewrite Hr. simpl.
  rewrite list_lookup_alter_eq, Hs. simpl. rewrite Hst.
  unfold with_sockets. simpl. now rewrite insert_after_alter.
Qed.

(** The three stages of one publication, run back to back on an
    authenticated service whose socket is open. *)
Lemma publish_run content dTag additionalTags pk i sg s ws w :
  isAuthenticated (this w) = true -> relay (this w) = Some s ->
  sockets w !! s = Some ws -> readyState ws = OPEN -> window_nostr w = true ->
  let signedEvent :=
    {| unsigned := publishEvent_of content dTag additionalTags (clock w) pk;
       id := i; sig := sg |} in
  let w' := run [ Call_publishKind30078Event content dTag additionalTags;
                  Signer_replies (length (tasks w)) (PublicKey pk);
                  Signer_replies (S (length (tasks w))) (Signature i sg) ] w in
  this w' = this w /\
  promises w' = promises w ++ [Pending] /\
  timers w' = timers w ++ [{| armed := true; delay := timeout_or_default config;
                              rejects := length (promises w); reason := PublishTimeout |}] /\
  sockets w' = <[s := push_frame (EVENT signedEvent)
                        (set_onmessage (Some (PublishOnMessage (onmessage ws)
                                                (length (promises w)) (length (timers w)) i)) ws)]>
                 (sockets w).
Proof.
  intros Ha Hr Hs Hst Hn signedEvent w'. subst w'. unfold run. simpl.
  set (w1 := step (Call_publishKind30078Event content dTag additionalTags) w).
  assert (Hw1 : w1 = with_tasks (fun ts => ts ++ [Some (PublishAwaitsPublicKey
                        (length (promises w)) content dTag additionalTags)])
                       (with_promises (fun ps => ps ++ [Pending]) w)).
  { subst w1. unfold step. simpl. unfold bind.
    now rewrite (publish_call content dTag additionalTags s w Ha Hr Hn). }
  set (w2 := step (Signer_replies (length (tasks w)) (PublicKey pk)) w1).
  assert (Hw2 : w2 = with_tasks (fun ts => ts ++ [Some (PublishAwaitsSignature
                        (length (promises w))
                        (publishEvent_of content dTag additionalTags (clock w) pk))])
                       (with_tasks (fun ts => <[length (tasks w) := None]> ts) w1)).
  { subst w2.
    rewrite (step_reply (length (tasks w))
               (PublishAwaitsPublicKey (length (promises w)) content dTag additionalTags)
               (PublicKey pk) _ w1 ltac:(rewrite Hw1; simpl; apply lookup_fresh) eq_refl).
    rewrite publish_build_eq by (now rewrite Hw1).
    simpl. now rewrite Hw1. }
  assert (Hk : tasks w2 !! S (length (tasks w))
               = Some (Some (PublishAwaitsSignature (length (promises w))
                               (publishEvent_of content dTag additionalTags (clock w) pk)))).
  { rewrite Hw2, Hw1. simpl.
    replace (S (length (tasks w)))
      with (length (<[length (tasks w) := None]>
                      (tasks w ++ [Some (PublishAwaitsPublicKey (length (promises w))
                                           content dTag additionalTags)]))).
    - apply lookup_fresh.
    - rewrite length_insert, length_app. simpl. lia. }
  rewrite (step_reply _ _ (Signature i sg) _ w2 Hk eq_refl).
  rewrite (publish_send_eq _ _ s ws).
  - rewrite Hw2, Hw1. simpl. tauto.
  - now rewrite Hw2, Hw1.
  - now rewrite Hw2, Hw1.
  - assumption.
Qed.

(** A publication on an authenticated service
    with an open socket puts one [EVENT] frame on that socket, whose record
    has kind 30078, the caller's content, the signer's public key, and as
    tags [["d", dTag]] followed by the caller's tags in their order.  The
    caller's tags are not inspected: the record has one distinguishing-tag
    entry more than they contain, hence exactly one precisely when they
    contain none. *)
Lemma ws_publish_record_shape w s ws text dTag additionalTags pk i sg :
  isAuthenticated (this w) = true -> relay (this w) = Some s ->
  sockets w !! s = Some ws -> readyState ws = OPEN -> window_nostr w = true ->
  let w' := run [ Call_publishKind30078Event text dTag additionalTags;
                  Signer_replies (length (tasks w)) (PublicKey pk);
                  Signer_replies (S (length (tasks w))) (Signature i sg) ] w in
  exists event ws',
    sockets w' !! s = Some ws' /\
    sent ws' = sent ws ++ [EVENT {| unsigned := event; id := i; sig := sg |}] /\
    kind event = 30078 /\
    content event = text /\
    pubkey event = pk /\
    tags event = [str "d"; str dTag] :: map (map str) additionalTags /\
    count_d_tags (tags event) = S (count_d_tags (map (map str) additionalTags)) /\
    (count_d_tags (tags event) = 1%nat <->
     count_d_tags (map (map str) additionalTags) = 0%nat).
Proof.
  intros Ha Hr Hs Hst Hn w'.
  destruct (publish_run text dTag additionalTags pk i sg s ws w Ha Hr Hs Hst Hn)
    as (_ & _ & _ & Hsock).
  fold w' in Hsock.
  exists (publishEvent_of text dTag additionalTags (clock w) pk). eexists.
  split.
  { rewrite Hsock. apply list_lookup_insert_eq. now apply lookup_lt_Some in Hs. }
  simpl. unfold count_d_tags. simpl. repeat split; lia.
Qed.

(** ** The publication closure on correlation results *)

Lemma try_catch_swallow (body : M unit) (w : World) :
  fst (try_catch body (fun _ : Exn => ret tt) w) = Normal tt.
Proof. unfold try_catch, ret. now destruct (body w) as [[[]|e] w']. Qed.

Lemma authOnMessage_normal promise timer pubkey data w :
  fst (authOnMessage promise timer pubkey data w) = Normal tt.
Proof. unfold authOnMessage. apply try_catch_swallow. Qed.

Lemma publishOnMessage_normal original promise timer eid data w :
  fst (publishOnMessage original promise timer eid data w) = Normal tt.
Proof. unfold publishOnMessage. apply try_catch_swallow. Qed.

Lemma dispatch_normal data : forall h w, fst (dispatch h data w) = Normal tt.
Proof.
  fix IH 1. intros [promise timer pubkey | original promise timer eid] w; simpl.
  - apply authOnMessage_normal.
  - unfold bind. destruct original as [h'|].
    + specialize (IH h' w). destruct (dispatch h' data w) as [c w1]. simpl in IH. subst c.
      apply publishOnMessage_normal.
    + unfold ret. apply publishOnMessage_normal.
Qed.

(** The stacked closure runs the one below it first, then its own part. *)
Lemma dispatch_stacked original promise timer eid data w :
  snd (dispatch (PublishOnMessage original promise timer eid) data w)
  = snd (publishOnMessage original promise timer eid data
           (match original with
            | Some h => snd (dispatch h data w)
            | None => w
            end)).
Proof.
  simpl. unfold bind. destruct original as [h|]; [|reflexivity].
  pose proof (dispatch_normal data h w) as Hn.
  destruct (dispatch h data w) as [c w1]. simpl in *. now subst c.
Qed.




End Facts.

(** ** The scenarios *)

Import Scenario.

(** C4 (what the code does). In the scenario with one publication in
    flight, the expiry of its timer rejects its promise with the
    publish-timeout error and leaves the service authenticated on an open
    socket; but the socket's [onmessage] is still the closure of that
    publication, which only a late matching result would remove. *)
Theorem publish_timeout_keeps_closure :
  let w := step (Timer_fires 1%nat) publishing in
  promises publishing !! 1%nat = Some Pending /\
  promises w !! 1%nat = Some (Rejected PublishTimeout) /\
  isAuthenticated (this w) = true /\
  exists ws,
    sockets w !! 0%nat = Some ws /\
    readyState ws = OPEN /\
    onmessage ws
      = Some (PublishOnMessage (Some (AuthOnMessage 0%nat 0%nat "npub"))
                1%nat 1%nat eventId).
Proof.
  vm_compute. repeat split. eexists. repeat split.
Qed.

(** The closure that a timed-out publication leaves behind is removed only
    by the late result for it, and that removal reinstates the closure it
    had found: the closure of the next publication, stacked in the
    meantime, is dropped with it, and the result for that publication
    reaches no one. *)
Lemma stale_closure_drops_next_publication :
  let w := run late_result_after_timeout publishing in
  promises w !! 1%nat = Some (Rejected PublishTimeout) /\
  promises w !! 2%nat = Some Pending /\
  exists ws,
    sockets w !! 0%nat = Some ws /\
    onmessage ws = Some (AuthOnMessage 0%nat 0%nat "npub").
Proof.
  vm_compute. repeat split. eexists. repeat split.
Qed.

(** C1, as stated, fails: the proof record on the wire carries
    [proofId]; a result for the different identifier [otherId] resolves the
    pending handshake and marks the service authenticated, and a refusal
    for [otherId] rejects it. *)
Lemma foreign_identifier_settles_handshake :
  (exists ws authEvent,
     sockets proof_sent !! 0%nat = Some ws /\
     last (sent ws) = Some (AUTH {| unsigned := authEvent; id := proofId; sig := "sig" |})) /\
  otherId <> proofId /\
  promises proof_sent !! 0%nat = Some Pending /\
  JSON_parse (JSON_text ok_other) = Some ok_other /\
  promises (step (Ws_message 0%nat (JSON_text ok_other)) proof_sent) !! 0%nat
    = Some (Fulfilled (JBool true)) /\
  isAuthenticated (this (step (Ws_message 0%nat (JSON_text ok_other)) proof_sent)) = true /\
  promises (step (Ws_message 0%nat (JSON_text refused_other)) proof_sent) !! 0%nat
    = Some (Rejected AuthenticationFailed).
Proof.
  split; [eexists _, _; split; vm_compute; reflexivity|].
  split; [discriminate|].
  repeat split; vm_compute; reflexivity.
Qed.


(** C3, as stated, fails: when the timer of the handshake fires, the
    promise is rejected, but the service still holds its relay and the
    socket is still open. *)
Lemma timeout_leaves_connection_open :
  let w := step (Timer_fires 0%nat) connected in
  promises connected !! 0%nat = Some Pending /\
  promises w !! 0%nat = Some (Rejected AuthenticationTimeout) /\
  relay (this w) = Some 0%nat /\
  exists ws, sockets w !! 0%nat = Some ws /\ readyState ws = OPEN.
Proof.
  vm_compute. repeat split. eexists. repeat split.
Qed.

(** After the timeout the closure of [authenticate] is still listening:
    a challenge that comes late is answered, and the acceptance that
    follows marks the service authenticated although the handshake was
    rejected. *)
Lemma late_acceptance_after_timeout :
  let w := run acceptance_after_timeout connected in
  promises w !! 0%nat = Some (Rejected AuthenticationTimeout) /\
  isAuthenticated (this w) = true.
Proof. vm_compute. split; reflexivity. Qed.

Lemma authentication_failure_only_rejects_witness :
  promises (step (Timer_fires 0%nat) connected) !! 0%nat
    = Some (Rejected AuthenticationTimeout) /\
  sockets (step (Timer_fires 0%nat) connected) = sockets connected /\
  promises (step (Ws_message 0%nat (JSON_text refused_other)) connected) !! 0%nat
    = Some (Rejected AuthenticationFailed).
Proof.
  pose proof (authentication_failure_only_rejects connected 0%nat _ 0%nat
                eq_refl eq_refl eq_refl eq_refl eq_refl) as (Hfire & Hrefuse & _).
  destruct Hfire as (Hp & _ & Hs).
  split; [exact Hp|]. split; [exact Hs|].
  exact (proj1 (Hrefuse 0%nat _ "npub" (JSON_text refused_other) otherId
                  "auth-required: please authenticate" []
                  eq_refl eq_refl eq_refl eq_refl eq_refl)).
Defined.

(** C6, as stated, fails: each proof record answers the challenge it was
    built for.  When a second challenge arrives on the connection before
    the signer has replied, the proof for the first one still goes out with
    the first challenge, although the challenge most recently received, and
    stored, is the second. *)
Lemma proof_answers_its_own_challenge :
  let w := run two_challenges connected in
  authChallenge (this w) = str "c2" /\
  exists ws authEvent,
    sockets w !! 0%nat = Some ws /\
    last (sent ws) = Some (AUTH {| unsigned := authEvent; id := proofId; sig := "sig" |}) /\
    tags authEvent = [ [str "relay"; str "wss://relay.example"]; [str "challenge"; str "c1"] ].
Proof.
  vm_compute. split; [reflexivity|]. eexists _, _. repeat split.
Qed.

(** C7, as stated, fails: a caller's tag list that itself holds a [d]
    entry is sent as given, and the record on the wire has two
    distinguishing-tag entries. *)
Lemma caller_d_tag_is_sent_too :
  let w := run publish_with_d_tag authenticated in
  exists ws event,
    sockets w !! 0%nat = Some ws /\
    last (sent ws) = Some (EVENT {| unsigned := event; id := eventId; sig := "sig" |}) /\
    tags event = [ [str "d"; str "note-1"]; [str "d"; str "note-2"] ] /\
    count_d_tags (tags event) = 2%nat /\
    count_d_tags (tags event) <> 1%nat.
Proof.
  vm_compute. eexists _, _. repeat split. discriminate.
Qed.

Lemma authenticate_without_signer_witness :
  exists p w',
    authenticate (new_world false 0) = (Normal p, w') /\
    promises w' !! p = Some (Rejected SignerUnavailable) /\
    sockets w' = [].
Proof.
  destruct (authenticate_without_signer (new_world false 0) eq_refl)
    as (p & w' & Hcall & _ & Hp & Hs & _).
  exists p, w'. repeat split; assumption.
Defined.

Lemma unparseable_payload_is_ignored_witness :
  JSON_parse "not json" = None /\
  step (Ws_message 0%nat "not json") publishing = publishing.
Proof.
  split; [reflexivity|].
  exact (proj2 (unparseable_payload_is_ignored "not json" eq_refl) 0%nat publishing).
Defined.

End RelayAuthFacts.

(** * What every run of the WebSocket service keeps *)

Module RelayAuthInvariants.
Import Js Nostr Eff RelayAuth.
Local Open Scope js_scope.

(** ** Statements respect a preorder piece by piece *)

Section Respects.

Context {S : Type} (R : S -> S -> Prop).
Hypothesis R_refl : forall w, R w w.
Hypothesis R_trans : forall a b c, R a b -> R b c -> R a c.

Lemma respects_ret {A} (a : A) : respects R (ret a).
Proof. intros w. apply R_refl. Qed.

Lemma respects_throw {A} (e : Exn) : respects R (throw (A := A) e).
Proof. intros w. apply R_refl. Qed.

Lemma respects_lift {A} (c : Completion A) : respects R (lift c).
Proof. intros w. apply R_refl. Qed.

Lemma respects_gets {A} (f : S -> A) : respects R (gets f).
Proof. intros w. apply R_refl. Qed.

Lemma respects_bind {A B} (m : Stmt S A) (k : A -> Stmt S B) :
  respects R m -> (forall a, respects R (k a)) -> respects R (bind m k).
Proof.
  intros Hm Hk w. unfold bind. specialize (Hm w).
  destruct (m w) as [[a|e] w1]; simpl in *; [|assumption].
  eapply R_trans; [eassumption|apply Hk].
Qed.

Lemma respects_try_catch {A} (body : Stmt S A) (handler : Exn -> Stmt S A) :
  respects R body -> (forall e, respects R (handler e)) -> respects R (try_catch body handler).
Proof.
  intros Hb Hh w. unfold try_catch. specialize (Hb w).
  destruct (body w) as [[a|e] w1]; simpl in *; [assumption|].
  eapply R_trans; [eassumption|apply Hh].
Qed.

Lemma respects_modify (f : S -> S) : (forall w, R w (f w)) -> respects R (modify f).
Proof. intros Hf w. apply Hf. Qed.

End Respects.

Ltac respects_combinator refl trans :=
  first
    [ apply respects_ret; exact refl
    | apply respects_throw; exact refl
    | apply respects_lift; exact refl
    | apply respects_gets; exact refl
    | apply respects_bind; [exact trans | | intro]
    | apply respects_try_catch; [exact trans | | intro]
    | match goal with |- respects _ (if ?b then _ else _) => destruct b end
    | match goal with |- respects _ (match ?x with _ => _ end) => destruct x end
    | match goal with |- respects _ (let _ := _ in _) => cbv zeta end ].

Section Invariants.

Context {host : Host}.

(** ** Settled promises *)

Lemma settled_stay_refl w : settled_stay w w.
Proof. intros p st H _. exact H. Qed.

Lemma settled_stay_trans a b c : settled_stay a b -> settled_stay b c -> settled_stay a c.
Proof. intros Hab Hbc p st H Hs. apply Hbc; [apply Hab|]; assumption. Qed.

Lemma settled_same_promises w w' : promises w' = promises w -> settled_stay w w'.
Proof. intros He p st H _. now rewrite He. Qed.

Lemma settled_settle p st : respects settled_stay (settle p st).
Proof.
  intros w q st' Hq Hs. now apply (RelayAuthFacts.settle_settled p q st st' w).
Qed.

Lemma settled_new_Promise : respects settled_stay new_Promise.
Proof.
  intros w p st H _. simpl. rewrite lookup_app_l; [assumption|].
  now apply lookup_lt_Some in H.
Qed.

Lemma settled_setTimeout p e ms : respects settled_stay (setTimeout p e ms).
Proof. intros w. now apply settled_same_promises. Qed.

Lemma settled_clearTimeout t : respects settled_stay (clearTimeout t).
Proof. intros w. now apply settled_same_promises. Qed.

Lemma settled_suspend k : respects settled_stay (suspend k).
Proof. intros w. now apply settled_same_promises. Qed.

Lemma settled_ws_send s f : respects settled_stay (ws_send s f).
Proof.
  intros w. apply settled_same_promises. unfold ws_send.
  destruct (sockets w !! s) as [ws|]; [|reflexivity]. now destruct (readyState ws).
Qed.

Lemma settled_ws_close s : respects settled_stay (ws_close s).
Proof.
  intros w. apply settled_same_promises. unfold ws_close.
  destruct (sockets w !! s) as [ws|]; [|reflexivity]. now destruct (readyState ws).
Qed.

Lemma settled_this_relay : respects settled_stay this_relay.
Proof.
  intros w. apply settled_same_promises. unfold this_relay. now destruct (relay (this w)).
Qed.

Lemma settled_get_onmessage s : respects settled_stay (get_onmessage s).
Proof.
  intros w. apply settled_same_promises. unfold get_onmessage.
  now destruct (sockets w !! s).
Qed.

Lemma settled_new_WebSocket u : respects settled_stay (new_WebSocket u).
Proof.
  intros w. apply settled_same_promises. unfold new_WebSocket.
  now destruct (WebSocket_accepts u).
Qed.

Lemma settled_with_this f w : settled_stay w (with_this f w).
Proof. now apply settled_same_promises. Qed.

Lemma settled_with_sockets f w : settled_stay w (with_sockets f w).
Proof. now apply settled_same_promises. Qed.

Lemma settled_with_tasks f w : settled_stay w (with_tasks f w).
Proof. now apply settled_same_promises. Qed.

Create HintDb settled discriminated.
#[local] Hint Resolve settled_settle settled_new_Promise settled_setTimeout
  settled_clearTimeout settled_suspend settled_ws_send settled_ws_close
  settled_this_relay settled_get_onmessage settled_new_WebSocket : settled.

Ltac settled_leaf :=
  first
    [ solve [auto with settled]
    | apply respects_modify; intro; first [apply settled_with_this | apply settled_with_sockets ]
    | unfold resolve, reject; apply settled_settle ].

Ltac settled_auto :=
  repeat first [ respects_combinator settled_stay_refl settled_stay_trans | settled_leaf ].

Lemma settled_parse data : respects settled_stay (parse data).
Proof. unfold parse. destruct (JSON_parse data); settled_auto. Qed.

Lemma settled_signEvent k : respects settled_stay (signEvent k).
Proof. unfold signEvent. settled_auto. Qed.

Lemma settled_relay_send f : respects settled_stay (relay_send f).
Proof. unfold relay_send. settled_auto. Qed.

#[local] Hint Resolve settled_parse settled_signEvent settled_relay_send : settled.

Lemma settled_authOnMessage promise timer pubkey data :
  respects settled_stay (authOnMessage promise timer pubkey data).
Proof. unfold authOnMessage, Date_now. settled_auto. Qed.

Lemma settled_publishOnMessage original promise timer eid data :
  respects settled_stay (publishOnMessage original promise timer eid data).
Proof. unfold publishOnMessage, assign_onmessage. settled_auto. Qed.

Lemma settled_dispatch data : forall h, respects settled_stay (dispatch h data).
Proof.
  fix IH 1. intros [promise timer pubkey | original promise timer eid]; simpl.
  - apply settled_authOnMessage.
  - apply respects_bind; [exact settled_stay_trans| |].
    + destruct original as [h'|]; [apply IH|settled_auto].
    + intros _. apply settled_publishOnMessage.
Qed.

#[local] Hint Resolve settled_authOnMessage settled_publishOnMessage settled_dispatch : settled.

Lemma settled_authenticate : respects settled_stay authenticate.
Proof. unfold authenticate, getNip07Signer. settled_auto. Qed.

Lemma settled_authenticate_connect promise pubkey :
  respects settled_stay (authenticate_connect promise pubkey).
Proof. unfold authenticate_connect, assign_handlers. settled_auto. Qed.

Lemma settled_publishKind30078Event content dTag additionalTags :
  respects settled_stay (publishKind30078Event content dTag additionalTags).
Proof. unfold publishKind30078Event, getNip07Signer. settled_auto. Qed.

Lemma settled_publish_build promise content dTag additionalTags pubkey :
  respects settled_stay (publish_build promise content dTag additionalTags pubkey).
Proof. unfold publish_build, Date_now. settled_auto. Qed.

Lemma settled_publish_send promise signedEvent :
  respects settled_stay (publish_send promise signedEvent).
Proof. unfold publish_send, assign_onmessage. settled_auto. Qed.

Lemma settled_disconnect : respects settled_stay disconnect.
Proof. unfold disconnect. settled_auto. Qed.

#[local] Hint Resolve settled_authenticate settled_authenticate_connect
  settled_publishKind30078Event settled_publish_build settled_publish_send
  settled_disconnect : settled.

Lemma settled_resume t reply continuation :
  resume t reply = Some continuation -> respects settled_stay continuation.
Proof.
  destruct t, reply; simpl; intros [= <-]; settled_auto.
Qed.

(** Whatever the environment does next, a promise that is settled keeps
    the state it was settled with: no operation yields a second result. *)
Lemma settled_step (i : Input) (w : World) : settled_stay w (step i w).
Proof.
  unfold step.
  destruct i as [ | text dTag additionalTags | | s | s data | s | s | t | k reply | ms | present ];
    simpl.
  - revert w. change (respects settled_stay (_ <- authenticate ;; ret tt)). settled_auto.
  - revert w.
    change (respects settled_stay
              (_ <- publishKind30078Event text dTag additionalTags ;; ret tt)).
    settled_auto.
  - apply settled_disconnect.
  - destruct (sockets w !! s) as [ws|]; [|apply settled_stay_refl].
    destruct (readyState ws); try apply settled_stay_refl.
    destruct (onopen ws) as [[]|]; simpl.
    + eapply settled_stay_trans; [|apply settled_relay_send]. apply settled_with_sockets.
    + apply settled_with_sockets.
  - destruct (sockets w !! s) as [ws|]; [|apply settled_stay_refl].
    destruct (readyState ws); try apply settled_stay_refl.
    destruct (onmessage ws); [apply settled_dispatch|apply settled_stay_refl].
  - destruct (sockets w !! s) as [ws|]; [|apply settled_stay_refl].
    destruct (readyState ws), (onerror ws) as [[promise timer]|];
      try apply settled_stay_refl; simpl;
      revert w; change (respects settled_stay (clearTimeout timer ;; reject promise TransportError));
      settled_auto.
  - destruct (sockets w !! s) as [ws|]; [|apply settled_stay_refl].
    destruct (readyState ws), (onclose ws) as [[]|];
      try apply settled_stay_refl; simpl; now apply settled_same_promises.
  - destruct (timers w !! t) as [tm|]; [|apply settled_stay_refl].
    destruct (armed tm); [|apply settled_stay_refl].
    revert w. change (respects settled_stay (clearTimeout t ;; reject (rejects tm) (reason tm))).
    settled_auto.
  - destruct (tasks w !! k) as [[t|]|] eqn:Hk; try apply settled_stay_refl.
    destruct (resume t reply) as [continuation|] eqn:Hr; [|apply settled_stay_refl].
    eapply settled_stay_trans; [|eapply settled_resume; eassumption].
    apply settled_with_tasks.
  - now apply settled_same_promises.
  - now apply settled_same_promises.
Qed.

Lemma settled_run (inputs : list Input) : forall w, settled_stay w (run inputs w).
Proof.
  unfold run. induction inputs as [|i rest IH]; intros w; simpl.
  - apply settled_stay_refl.
  - eapply settled_stay_trans; [apply settled_step|apply IH].
Qed.

(** ** Records on the wire *)

Lemma wire_kept_refl w : wire_kept w w.
Proof. intros H. exact H. Qed.

Lemma wire_kept_trans a b c : wire_kept a b -> wire_kept b c -> wire_kept a c.
Proof. intros Hab Hbc H. apply Hbc, Hab, H. Qed.

Lemma wire_same w w' : tasks w' = tasks w -> sockets w' = sockets w -> wire_kept w w'.
Proof. intros Ht Hs [H1 H2]. split; [now rewrite Ht|now rewrite Hs]. Qed.

Lemma wire_settle p st : respects wire_kept (settle p st).
Proof.
  intros w. apply wire_same; [apply RelayAuthFacts.settle_tasks|apply RelayAuthFacts.settle_sockets].
Qed.

Lemma wire_new_Promise : respects wire_kept new_Promise.
Proof. intros w. now apply wire_same. Qed.

Lemma wire_setTimeout p e ms : respects wire_kept (setTimeout p e ms).
Proof. intros w. now apply wire_same. Qed.

Lemma wire_clearTimeout t : respects wire_kept (clearTimeout t).
Proof. intros w. now apply wire_same. Qed.

Lemma wire_this_relay : respects wire_kept this_relay.
Proof. intros w. unfold this_relay. destruct (relay (this w)); now apply wire_same. Qed.

Lemma wire_get_onmessage s : respects wire_kept (get_onmessage s).
Proof. intros w. unfold get_onmessage. destruct (sockets w !! s); now apply wire_same. Qed.

Lemma wire_with_this f w : wire_kept w (with_this f w).
Proof. now apply wire_same. Qed.

Lemma wire_suspend k : task_ok (Some k) -> respects wire_kept (suspend k).
Proof.
  intros Hk w [Ht Hs]. split; [|exact Hs]. simpl.
  apply Forall_app. split; [exact Ht|]. now constructor.
Qed.

Lemma wire_task_done k w : wire_kept w (with_tasks (fun ts => <[k := None]> ts) w).
Proof.
  intros [Ht Hs]. split; [|exact Hs]. simpl. now apply Forall_insert.
Qed.

(** Replacing a socket by one with the same frames, or with one more good
    frame, keeps the wire as it should be. *)
Lemma wire_insert s ws ws' w :
  sockets w !! s = Some ws ->
  (Forall frame_ok (sent ws) -> Forall frame_ok (sent ws')) ->
  wire_kept w (with_sockets (fun l => <[s := ws']> l) w).
Proof.
  intros Hs Hsent [Ht Hss]. split; [exact Ht|]. simpl.
  apply Forall_insert; [exact Hss|].
  apply Hsent. now apply (Forall_lookup_1 _ _ _ _ Hss Hs).
Qed.

Lemma wire_alter (f : WebSocket -> WebSocket) s w :
  (forall ws, sent (f ws) = sent ws) ->
  wire_kept w (with_sockets (fun l => alter f s l) w).
Proof.
  intros Hf [Ht Hss]. split; [exact Ht|]. simpl.
  apply Forall_alter; [exact Hss|]. intros ws _ H. now rewrite Hf.
Qed.

Lemma wire_ws_send s f : frame_ok f -> respects wire_kept (ws_send s f).
Proof.
  intros Hf w. unfold ws_send.
  destruct (sockets w !! s) as [ws|] eqn:Hs; [|apply wire_kept_refl].
  destruct (readyState ws); try apply wire_kept_refl. simpl.
  apply (wire_insert s ws); [exact Hs|]. simpl. intros H.
  apply Forall_app. split; [exact H|]. now constructor.
Qed.

Lemma wire_ws_close s : respects wire_kept (ws_close s).
Proof.
  intros w. unfold ws_close.
  destruct (sockets w !! s) as [ws|] eqn:Hs; [|apply wire_kept_refl].
  destruct (readyState ws); try apply wire_kept_refl; simpl;
    now apply (wire_insert s ws).
Qed.

Lemma wire_new_WebSocket u : respects wire_kept (new_WebSocket u).
Proof.
  intros w. unfold new_WebSocket.
  destruct (WebSocket_accepts u); [|apply wire_kept_refl].
  intros [Ht Hs]. split; [exact Ht|]. simpl.
  apply Forall_app. split; [exact Hs|]. repeat constructor.
Qed.

Create HintDb wire discriminated.
#[local] Hint Resolve wire_settle wire_new_Promise wire_setTimeout wire_clearTimeout
  wire_this_relay wire_get_onmessage wire_ws_close wire_new_WebSocket : wire.

Ltac wire_leaf :=
  first
    [ solve [auto with wire]
    | apply respects_modify; intro;
      first [ apply wire_with_this | apply wire_alter; reflexivity ]
    | unfold resolve, reject; apply wire_settle
    | apply wire_suspend; simpl; unfold is_proof, is_publication; solve [eauto 10]
    | apply wire_ws_send; simpl; solve [auto] ].

Ltac wire_auto :=
  repeat first [ respects_combinator wire_kept_refl wire_kept_trans | wire_leaf ].

Lemma wire_parse data : respects wire_kept (parse data).
Proof. unfold parse. destruct (JSON_parse data); wire_auto. Qed.

Lemma wire_signEvent k : task_ok (Some k) -> respects wire_kept (signEvent k).
Proof.
  intros Hk. unfold signEvent.
  apply respects_bind; [exact wire_kept_trans| |intros []].
  - apply respects_gets. exact wire_kept_refl.
  - apply respects_bind; [exact wire_kept_trans|now apply wire_suspend|].
    intros _. apply respects_ret. exact wire_kept_refl.
  - apply respects_throw. exact wire_kept_refl.
Qed.

Lemma wire_relay_send f : frame_ok f -> respects wire_kept (relay_send f).
Proof.
  intros Hf. unfold relay_send.
  apply respects_bind; [exact wire_kept_trans|apply wire_this_relay|].
  intros s. now apply wire_ws_send.
Qed.

#[local] Hint Resolve wire_parse : wire.

Lemma wire_authOnMessage promise timer pubkey data :
  respects wire_kept (authOnMessage promise timer pubkey data).
Proof.
  unfold authOnMessage, Date_now.
  repeat first
    [ respects_combinator wire_kept_refl wire_kept_trans
    | apply wire_signEvent; simpl; unfold is_proof; solve [eauto 10]
    | wire_leaf ].
Qed.

Lemma wire_publishOnMessage original promise timer eid data :
  respects wire_kept (publishOnMessage original promise timer eid data).
Proof. unfold publishOnMessage, assign_onmessage. wire_auto. Qed.

Lemma wire_dispatch data : forall h, respects wire_kept (dispatch h data).
Proof.
  fix IH 1. intros [promise timer pubkey | original promise timer eid]; simpl.
  - apply wire_authOnMessage.
  - apply respects_bind; [exact wire_kept_trans| |].
    + destruct original as [h'|]; [apply IH|wire_auto].
    + intros _. apply wire_publishOnMessage.
Qed.

Lemma wire_authenticate : respects wire_kept authenticate.
Proof. unfold authenticate, getNip07Signer. wire_auto. Qed.

Lemma wire_authenticate_connect promise pubkey :
  respects wire_kept (authenticate_connect promise pubkey).
Proof. unfold authenticate_connect, assign_handlers. wire_auto. Qed.

Lemma wire_publishKind30078Event content dTag additionalTags :
  respects wire_kept (publishKind30078Event content dTag additionalTags).
Proof. unfold publishKind30078Event, getNip07Signer. wire_auto. Qed.

Lemma wire_publish_build promise content dTag additionalTags pubkey :
  respects wire_kept (publish_build promise content dTag additionalTags pubkey).
Proof.
  unfold publish_build, Date_now.
  repeat first
    [ respects_combinator wire_kept_refl wire_kept_trans
    | apply wire_signEvent; simpl; unfold is_publication; solve [eauto 10]
    | wire_leaf ].
Qed.

Lemma wire_publish_send promise signedEvent :
  is_publication (unsigned signedEvent) ->
  respects wire_kept (publish_send promise signedEvent).
Proof.
  intros Hp. unfold publish_send, assign_onmessage.
  repeat first
    [ respects_combinator wire_kept_refl wire_kept_trans
    | apply wire_relay_send; exact Hp
    | wire_leaf ].
Qed.

Lemma wire_disconnect : respects wire_kept disconnect.
Proof. unfold disconnect. wire_auto. Qed.

Lemma wire_resume t reply continuation :
  task_ok (Some t) -> resume t reply = Some continuation ->
  respects wire_kept continuation.
Proof.
  intros Hok. destruct t, reply; simpl in *; intros [= <-].
  - apply wire_authenticate_connect.
  - wire_auto.
  - apply respects_try_catch; [exact wire_kept_trans|now apply wire_relay_send|].
    intros e. apply respects_ret. exact wire_kept_refl.
  - apply respects_ret. exact wire_kept_refl.
  - apply wire_publish_build.
  - wire_auto.
  - now apply wire_publish_send.
  - wire_auto.
Qed.

(** One step of the environment keeps the wire as it should be. *)
Lemma wire_step (i : Input) (w : World) : wire_kept w (step i w).
Proof.
  unfold step.
  destruct i as [ | text dTag additionalTags | | s | s data | s | s | t | k reply | ms | present ];
    simpl.
  - revert w. change (respects wire_kept (_ <- authenticate ;; ret tt)).
    apply respects_bind; [exact wire_kept_trans|apply wire_authenticate|].
    intros _. apply respects_ret. exact wire_kept_refl.
  - revert w.
    change (respects wire_kept (_ <- publishKind30078Event text dTag additionalTags ;; ret tt)).
    apply respects_bind; [exact wire_kept_trans|apply wire_publishKind30078Event|].
    intros _. apply respects_ret. exact wire_kept_refl.
  - apply wire_disconnect.
  - destruct (sockets w !! s) as [ws|] eqn:Hs; [|apply wire_kept_refl].
    destruct (readyState ws); try apply wire_kept_refl.
    destruct (onopen ws) as [[]|]; simpl.
    + eapply wire_kept_trans; [|apply wire_relay_send; exact I].
      now apply (wire_insert s ws).
    + now apply (wire_insert s ws).
  - destruct (sockets w !! s) as [ws|]; [|apply wire_kept_refl].
    destruct (readyState ws); try apply wire_kept_refl.
    destruct (onmessage ws); [apply wire_dispatch|apply wire_kept_refl].
  - destruct (sockets w !! s) as [ws|]; [|apply wire_kept_refl].
    destruct (readyState ws), (onerror ws) as [[promise timer]|];
      try apply wire_kept_refl; simpl;
      revert w; change (respects wire_kept (clearTimeout timer ;; reject promise TransportError));
      wire_auto.
  - destruct (sockets w !! s) as [ws|] eqn:Hs; [|apply wire_kept_refl].
    destruct (readyState ws), (onclose ws) as [[]|];
      try apply wire_kept_refl; simpl;
      first [ eapply wire_kept_trans; [|apply wire_with_this]; now apply (wire_insert s ws)
            | now apply (wire_insert s ws) ].
  - destruct (timers w !! t) as [tm|]; [|apply wire_kept_refl].
    destruct (armed tm); [|apply wire_kept_refl].
    revert w. change (respects wire_kept (clearTimeout t ;; reject (rejects tm) (reason tm))).
    wire_auto.
  - destruct (tasks w !! k) as [[t|]|] eqn:Hk; try apply wire_kept_refl.
    destruct (resume t reply) as [continuation|] eqn:Hr; [|apply wire_kept_refl].
    intros Hw.
    assert (Hok : task_ok (Some t)).
    { destruct Hw as [Ht _]. exact (Forall_lookup_1 _ _ _ _ Ht Hk). }
    apply (wire_resume t reply continuation Hok Hr), wire_task_done, Hw.
  - now apply wire_same.
  - now apply wire_same.
Qed.

(** From a fresh page on, whatever the environment does and in whatever
    order, every [AUTH] frame that has gone out on any socket carries a
    record of kind 22242 with empty content whose tags are the configured
    relay URL and one challenge, and every [EVENT] frame a record of kind
    30078 whose first tag is a distinguishing tag followed by the tags of
    some caller. *)
Lemma wire_always (inputs : list Input) (nostr : bool) (now : Z) :
  let w := run inputs (new_world nostr now) in
  forall s ws f,
    sockets w !! s = Some ws -> f ∈ sent ws ->
    match f with
    | REQ _ _ _ => True
    | AUTH signedAuthEvent =>
        kind (unsigned signedAuthEvent) = 22242 /\
        content (unsigned signedAuthEvent) = EmptyString /\
        exists challenge,
          tags (unsigned signedAuthEvent)
          = [ [str "relay"; str (relayUrl config)]; [str "challenge"; challenge] ]
    | EVENT signedEvent =>
        kind (unsigned signedEvent) = 30078 /\
        exists dTag additionalTags,
          tags (unsigned signedEvent) = [str "d"; str dTag] :: map (map str) additionalTags
    end.
Proof.
  intros w.
  assert (Hw : wire_ok w).
  { subst w. generalize (new_world nostr now), (conj (Forall_nil_2 task_ok)
      (Forall_nil_2 (fun ws => Forall frame_ok (sent ws))) : wire_ok (new_world nostr now)).
    unfold run. induction inputs as [|i rest IH]; intros w0 H0; simpl; [exact H0|].
    apply IH. now apply wire_step. }
  intros s ws f Hs Hf. destruct Hw as [_ Hss].
  pose proof (Forall_lookup_1 _ _ _ _ Hss Hs) as Hsent. simpl in Hsent.
  rewrite Forall_forall in Hsent. specialize (Hsent f Hf).
  destruct f as [sub kinds limit | se | se]; simpl in Hsent; [exact I| |].
  - destruct Hsent as (challenge & t & pk & ->). simpl. eauto.
  - destruct Hsent as (text & dTag & additionalTags & t & pk & ->). simpl. eauto.
Qed.

End Invariants.

End RelayAuthInvariants.

(** * Properties of the pooled-relay service *)

Module NostrAuthFacts.
Import Js Nostr Eff NostrAuth.
Local Open Scope js_scope.

Section Facts.

Variable config : AuthConfig.

Lemma pool_settle_lookup p st w :
  promises w !! p = Some Pending ->
  promises (snd (settle p st w)) !! p = Some st.
Proof.
  intros H. unfold settle. rewrite H. simpl.
  apply list_lookup_insert_eq. now apply lookup_lt_Some in H.
Qed.

Lemma pool_settle_other p q st w :
  p <> q -> promises (snd (settle p st w)) !! q = promises w !! q.
Proof.
  intros Hne. unfold settle. destruct (promises w !! p) as [[]|]; try reflexivity.
  simpl. now apply list_lookup_insert_ne.
Qed.

Lemma pool_settle_settled p q st st' w :
  promises w !! q = Some st' -> st' <> Pending ->
  promises (snd (settle p st w)) !! q = Some st'.
Proof.
  intros Hq Hs. destruct (decide (p = q)) as [->|Hne].
  - unfold settle. rewrite Hq. destruct st'; [congruence| |]; assumption.
  - now rewrite pool_settle_other.
Qed.

Lemma pool_settle_frame p st w :
  this (snd (settle p st w)) = this w /\
  relays (snd (settle p st w)) = relays w /\
  timers (snd (settle p st w)) = timers w /\
  tasks (snd (settle p st w)) = tasks w.
Proof. unfold settle. now destruct (promises w !! p) as [[]|]. Qed.

Lemma pool_settle_normal p st w : fst (settle p st w) = Normal tt.
Proof. unfold settle. now destruct (promises w !! p) as [[]|]. Qed.

Lemma pool_new_then_reject (e : Exn) (w : World) :
  bind new_Promise (fun p => bind (reject p e) (fun _ => ret p)) w
  = (Normal (length (promises w)), with_promises (fun ps => ps ++ [Rejected e]) w).
Proof.
  unfold bind, new_Promise, reject, settle, ret. simpl.
  rewrite RelayAuthFacts.lookup_fresh. simpl. unfold with_promises. simpl.
  now rewrite RelayAuthFacts.insert_fresh.
Qed.

(** Publication before authentication, on the pooled relay. *)
Lemma pool_publish_requires_authentication (w : World)
    (content dTag : string) (additionalTags : list (list string)) :
  isAuthenticated (this w) = false \/ relay (this w) = None ->
  exists p w',
    publishKind30078Event content dTag additionalTags w = (Normal p, w') /\
    promises w !! p = None /\
    promises w' !! p = Some (Rejected NotAuthenticated) /\
    relays w' = relays w /\
    tasks w' = tasks w /\
    timers w' = timers w /\
    this w' = this w.
Proof.
  intros Hna.
  exists (length (promises w)), (with_promises (fun ps => ps ++ [Rejected NotAuthenticated]) w).
  split.
  - rewrite <- pool_new_then_reject.
    unfold publishKind30078Event. unfold bind, gets, ret. simpl.
    destruct Hna as [-> | ->]; simpl; [reflexivity|].
    rewrite orb_true_r. reflexivity.
  - simpl. rewrite RelayAuthFacts.lookup_fresh, RelayAuthFacts.lookup_fresh_None. tauto.
Qed.

Lemma close_relay_twice r : close_relay (close_relay r) = close_relay r.
Proof. reflexivity. Qed.

(** [disconnect] on the pooled relay: it never throws, leaves the service
    without relay and unauthenticated and every relay object closed, and a
    second call changes nothing. *)
Lemma pool_disconnect_idempotent (w : World) :
  exists w',
    disconnect w = (Normal tt, w') /\
    this w' = new_service /\
    (forall r o, relays w' !! r = Some o -> closed o = true) /\
    disconnect w' = (Normal tt, w').
Proof.
  unfold disconnect, pool_close, bind, gets, modify, ret. simpl.
  destruct (relay (this w)) as [r|] eqn:Hr; simpl.
  - eexists. split; [reflexivity|]. simpl. split; [reflexivity|]. split.
    + intros r' o. rewrite list_lookup_fmap.
      destruct (alter close_relay r (relays w) !! r') as [o'|]; [|discriminate].
      simpl. now intros [= <-].
    + unfold with_relays, with_this. simpl. rewrite <- list_fmap_compose. reflexivity.
  - eexists. split; [reflexivity|]. simpl. unfold set_isAuthenticated, new_service.
    simpl. rewrite Hr. split; [reflexivity|]. split.
    + intros r' o. rewrite list_lookup_fmap.
      destruct (relays w !! r') as [o'|]; [|discriminate].
      simpl. now intros [= <-].
    + unfold with_relays, with_this. simpl. rewrite Hr. simpl.
      rewrite <- list_fmap_compose. reflexivity.
Qed.

Lemma pool_step_reply k t reply continuation w :
  tasks w !! k = Some (Some t) -> resume config t reply = Some continuation ->
  step config (Replies k reply) w
  = snd (continuation (with_tasks (fun ts => <[k := None]> ts) w)).
Proof. intros Hk Hr. unfold step. simpl. now rewrite Hk, Hr. Qed.

End Facts.

End NostrAuthFacts.

(** * What waits for the signer *)

Module RelayAuthTasks.
Import Js Nostr Eff RelayAuth RelayAuthKeeps RelayAuthFacts RelayAuthInvariants.
Local Open Scope js_scope.

Section Tasks.

Context {host : Host}.

Variable k : nat.
Variable t : Task.

Lemma task_kept_refl w : task_kept k t w w.
Proof. intros H. exact H. Qed.

Lemma task_kept_trans a b c : task_kept k t a b -> task_kept k t b c -> task_kept k t a c.
Proof. intros Hab Hbc H. apply Hbc, Hab, H. Qed.

Lemma task_same w w' : tasks w' = tasks w -> task_kept k t w w'.
Proof. intros He H. now rewrite He. Qed.

Ltac task_prim := intros w; apply task_same; repeat case_match; reflexivity.

Lemma task_settle p st : respects (task_kept k t) (settle p st).
Proof. intros w. apply task_same. unfold settle. repeat case_match; reflexivity. Qed.
Lemma task_new_Promise : respects (task_kept k t) new_Promise.
Proof. task_prim. Qed.
Lemma task_setTimeout p e ms : respects (task_kept k t) (setTimeout p e ms).
Proof. task_prim. Qed.
Lemma task_clearTimeout tm : respects (task_kept k t) (clearTimeout tm).
Proof. task_prim. Qed.
Lemma task_ws_send s f : respects (task_kept k t) (ws_send s f).
Proof. intros w. apply task_same. unfold ws_send. repeat case_match; reflexivity. Qed.
Lemma task_ws_close s : respects (task_kept k t) (ws_close s).
Proof. intros w. apply task_same. unfold ws_close. repeat case_match; reflexivity. Qed.
Lemma task_this_relay : respects (task_kept k t) this_relay.
Proof. intros w. apply task_same. unfold this_relay. repeat case_match; reflexivity. Qed.
Lemma task_get_onmessage s : respects (task_kept k t) (get_onmessage s).
Proof. intros w. apply task_same. unfold get_onmessage. repeat case_match; reflexivity. Qed.
Lemma task_new_WebSocket u : respects (task_kept k t) (new_WebSocket u).
Proof. intros w. apply task_same. unfold new_WebSocket. repeat case_match; reflexivity. Qed.

(** A call that starts to wait takes a place of its own. *)
Lemma task_suspend t' : respects (task_kept k t) (suspend t').
Proof.
  intros w H. simpl. rewrite lookup_app_l; [exact H|]. now apply lookup_lt_Some in H.
Qed.

Create HintDb task_kept discriminated.
#[local] Hint Resolve task_settle task_new_Promise task_setTimeout task_clearTimeout
  task_ws_send task_ws_close task_this_relay task_get_onmessage task_new_WebSocket
  task_suspend : task_kept.

Ltac task_auto :=
  repeat first
    [ respects_combinator task_kept_refl task_kept_trans
    | solve [auto with task_kept]
    | apply respects_modify; intro; apply task_same; reflexivity
    | unfold resolve, reject; apply task_settle ].

Lemma task_relay_send f : respects (task_kept k t) (relay_send f).
Proof. unfold relay_send. task_auto. Qed.

Lemma task_dispatch data : forall h, respects (task_kept k t) (dispatch h data).
Proof.
  fix IH 1. intros [promise timer pubkey | original promise timer eid]; simpl.
  - unfold authOnMessage, parse, signEvent, Date_now.
    destruct (JSON_parse data); task_auto.
  - apply respects_bind; [exact task_kept_trans| |].
    + destruct original as [h'|]; [apply IH|task_auto].
    + intros _. unfold publishOnMessage, parse, assign_onmessage.
      destruct (JSON_parse data); task_auto.
Qed.

Lemma task_resume t' reply continuation :
  resume t' reply = Some continuation -> respects (task_kept k t) continuation.
Proof.
  destruct t', reply; simpl; intros [= <-];
    unfold authenticate_connect, assign_handlers, relay_send, publish_build,
      publish_send, signEvent, assign_onmessage, Date_now;
    task_auto.
Qed.

(** Nothing but the signer's reply to it touches what waits for the
    signer: not a later message, not another call, not a timer. *)
Lemma task_step (i : Input) (w : World) :
  (forall reply, i <> Signer_replies k reply) -> task_kept k t w (step i w).
Proof.
  intros Hi. unfold step.
  destruct i as [ | text dTag additionalTags | | s | s data | s | s | tm | k' reply
                | ms | present ];
    simpl.
  - revert w. change (respects (task_kept k t) (_ <- authenticate ;; ret tt)).
    unfold authenticate, getNip07Signer. task_auto.
  - revert w.
    change (respects (task_kept k t)
              (_ <- publishKind30078Event text dTag additionalTags ;; ret tt)).
    unfold publishKind30078Event, getNip07Signer. task_auto.
  - revert w. change (respects (task_kept k t) disconnect). unfold disconnect. task_auto.
  - destruct (sockets w !! s) as [ws|]; [|apply task_kept_refl].
    destruct (readyState ws); try apply task_kept_refl.
    destruct (onopen ws) as [[]|]; simpl; [|now apply task_same].
    eapply task_kept_trans; [|apply task_relay_send]. now apply task_same.
  - destruct (sockets w !! s) as [ws|]; [|apply task_kept_refl].
    destruct (readyState ws); try apply task_kept_refl.
    destruct (onmessage ws); [apply task_dispatch|apply task_kept_refl].
  - destruct (sockets w !! s) as [ws|]; [|apply task_kept_refl].
    destruct (readyState ws), (onerror ws) as [[promise timer]|];
      try apply task_kept_refl; simpl;
      revert w;
      change (respects (task_kept k t) (clearTimeout timer ;; reject promise TransportError));
      task_auto.
  - destruct (sockets w !! s) as [ws|]; [|apply task_kept_refl].
    destruct (readyState ws), (onclose ws) as [[]|];
      try apply task_kept_refl; simpl; now apply task_same.
  - destruct (timers w !! tm) as [x|]; [|apply task_kept_refl].
    destruct (armed x); [|apply task_kept_refl].
    revert w.
    change (respects (task_kept k t) (clearTimeout tm ;; reject (rejects x) (reason x))).
    task_auto.
  - destruct (tasks w !! k') as [[t'|]|]; try apply task_kept_refl.
    destruct (resume t' reply) as [continuation|] eqn:Hr; [|apply task_kept_refl].
    eapply task_kept_trans; [|eapply task_resume; eassumption].
    intros H. simpl. rewrite list_lookup_insert_ne; [exact H|].
    intros ->. exact (Hi reply eq_refl).
  - now apply task_same.
  - now apply task_same.
Qed.

End Tasks.

Section Sent.

Context {host : Host}.

(** When the signer hands the signed record back, it goes out as it was
    built, on the socket the service holds then; the stored challenge is
    not consulted and not changed. *)
Lemma proof_goes_out_as_built k authEvent i sg s ws w :
  tasks w !! k = Some (Some (ChallengeAwaitsSignature authEvent)) ->
  relay (this w) = Some s -> sockets w !! s = Some ws -> readyState ws = OPEN ->
  let w2 := step (Signer_replies k (Signature i sg)) w in
  authChallenge (this w2) = authChallenge (this w) /\
  exists ws2,
    sockets w2 !! s = Some ws2 /\
    sent ws2 = sent ws ++ [AUTH {| unsigned := authEvent; id := i; sig := sg |}].
Proof.
  intros Hk Hr Hs Hst w2. split.
  - subst w2. rewrite (step_reply k _ (Signature i sg) _ w Hk eq_refl).
    unfold relay_send, this_relay, ws_send, bind, try_catch, ret. simpl.
    rewrite Hr. simpl. now rewrite Hs, Hst.
  - exists (push_frame (AUTH {| unsigned := authEvent; id := i; sig := sg |}) ws).
    subst w2. rewrite (proof_is_sent k authEvent i sg s ws w Hk Hr Hs Hst).
    split; [apply list_lookup_insert_eq; now apply lookup_lt_Some in Hs|reflexivity].
Qed.

(** The record for a challenge is built while the challenge message is
    handled, from that challenge. *)
Lemma proof_is_built_from_the_challenge w s ws promise timer pk data c rest :
  sockets w !! s = Some ws -> readyState ws = OPEN ->
  onmessage ws = Some (AuthOnMessage promise timer pk) ->
  window_nostr w = true ->
  JSON_parse data = Some (JArr (JStr "AUTH" :: JStr c :: rest)) ->
  let w1 := step (Ws_message s data) w in
  authChallenge (this w1) = str c /\
  tasks w1 = tasks w ++ [Some (ChallengeAwaitsSignature
                                 (authEvent_of (relayUrl config) (str c) (clock w) pk))].
Proof.
  intros Hs Hst Hh Hn Hm w1. subst w1.
  rewrite (step_message s ws _ data w Hs Hst Hh). simpl.
  rewrite (authOnMessage_AUTH _ _ _ _ _ _ _ Hm Hn). now split.
Qed.

End Sent.

End RelayAuthTasks.

(** * Every proof record answers a challenge that was received *)

Module RelayAuthAnswers.
Import Js Nostr Eff RelayAuth RelayAuthKeeps RelayAuthFacts RelayAuthInvariants.
Local Open Scope js_scope.

(** ** Statements that keep what they computed in view *)

Section At.

Context {S : Type} (R : S -> S -> Prop).
Hypothesis R_trans : forall a b c, R a b -> R b c -> R a c.

(** Like [respects_bind], but the continuation may use the run of the
    first statement that led to it. *)
Lemma respects_bind_from {A B} (m : Stmt S A) (k : A -> Stmt S B) (w : S) :
  R w (snd (m w)) ->
  (forall a w1, m w = (Normal a, w1) -> R w1 (snd (k a w1))) ->
  R w (snd (bind m k w)).
Proof.
  intros Hm Hk. unfold bind. destruct (m w) as [[a|e] w1] eqn:E; simpl in *; [|assumption].
  eapply R_trans; [exact Hm|]. now apply Hk.
Qed.

End At.

Section Answers.

Context {host : Host}.

Variable heard : value -> Prop.

Lemma answers_kept_refl w : answers_kept heard w w.
Proof. intros H. exact H. Qed.

Lemma answers_kept_trans a b c :
  answers_kept heard a b -> answers_kept heard b c -> answers_kept heard a c.
Proof. intros Hab Hbc H. apply Hbc, Hab, H. Qed.

Lemma answers_same w w' :
  tasks w' = tasks w -> sockets w' = sockets w -> answers_kept heard w w'.
Proof. intros Ht Hs [H1 H2]. split; [now rewrite Ht|now rewrite Hs]. Qed.

Lemma answers_settle p st : respects (answers_kept heard) (settle p st).
Proof. intros w. apply answers_same; [apply settle_tasks|apply settle_sockets]. Qed.

Lemma answers_new_Promise : respects (answers_kept heard) new_Promise.
Proof. intros w. now apply answers_same. Qed.

Lemma answers_setTimeout p e ms : respects (answers_kept heard) (setTimeout p e ms).
Proof. intros w. now apply answers_same. Qed.

Lemma answers_clearTimeout t : respects (answers_kept heard) (clearTimeout t).
Proof. intros w. now apply answers_same. Qed.

Lemma answers_this_relay : respects (answers_kept heard) this_relay.
Proof. intros w. unfold this_relay. destruct (relay (this w)); now apply answers_same. Qed.

Lemma answers_get_onmessage s : respects (answers_kept heard) (get_onmessage s).
Proof. intros w. unfold get_onmessage. destruct (sockets w !! s); now apply answers_same. Qed.

Lemma answers_with_this f w : answers_kept heard w (with_this f w).
Proof. now apply answers_same. Qed.

Lemma answers_suspend k :
  task_answers heard (Some k) -> respects (answers_kept heard) (suspend k).
Proof.
  intros Hk w [Ht Hs]. split; [|exact Hs]. simpl.
  apply Forall_app. split; [exact Ht|]. now constructor.
Qed.

Lemma answers_task_done k w :
  answers_kept heard w (with_tasks (fun ts => <[k := None]> ts) w).
Proof. intros [Ht Hs]. split; [|exact Hs]. simpl. now apply Forall_insert. Qed.

Lemma answers_insert s ws ws' w :
  sockets w !! s = Some ws ->
  (Forall (frame_answers heard) (sent ws) -> Forall (frame_answers heard) (sent ws')) ->
  answers_kept heard w (with_sockets (fun l => <[s := ws']> l) w).
Proof.
  intros Hs Hsent [Ht Hss]. split; [exact Ht|]. simpl.
  apply Forall_insert; [exact Hss|].
  apply Hsent. now apply (Forall_lookup_1 _ _ _ _ Hss Hs).
Qed.

Lemma answers_alter (f : WebSocket -> WebSocket) s w :
  (forall ws, sent (f ws) = sent ws) ->
  answers_kept heard w (with_sockets (fun l => alter f s l) w).
Proof.
  intros Hf [Ht Hss]. split; [exact Ht|]. simpl.
  apply Forall_alter; [exact Hss|]. intros ws _ H. now rewrite Hf.
Qed.

Lemma answers_ws_send s f :
  frame_answers heard f -> respects (answers_kept heard) (ws_send s f).
Proof.
  intros Hf w. unfold ws_send.
  destruct (sockets w !! s) as [ws|] eqn:Hs; [|apply answers_kept_refl].
  destruct (readyState ws); try apply answers_kept_refl. simpl.
  apply (answers_insert s ws); [exact Hs|]. simpl. intros H.
  apply Forall_app. split; [exact H|]. now constructor.
Qed.

Lemma answers_ws_close s : respects (answers_kept heard) (ws_close s).
Proof.
  intros w. unfold ws_close.
  destruct (sockets w !! s) as [ws|] eqn:Hs; [|apply answers_kept_refl].
  destruct (readyState ws); try apply answers_kept_refl; simpl;
    now apply (answers_insert s ws).
Qed.

Lemma answers_new_WebSocket u : respects (answers_kept heard) (new_WebSocket u).
Proof.
  intros w. unfold new_WebSocket.
  destruct (WebSocket_accepts u); [|apply answers_kept_refl].
  intros [Ht Hs]. split; [exact Ht|]. simpl.
  apply Forall_app. split; [exact Hs|]. repeat constructor.
Qed.

Create HintDb answers discriminated.
#[local] Hint Resolve answers_settle answers_new_Promise answers_setTimeout
  answers_clearTimeout answers_this_relay answers_get_onmessage answers_ws_close
  answers_new_WebSocket : answers.

Ltac answers_leaf :=
  first
    [ solve [auto with answers]
    | apply respects_modify; intro;
      first [ apply answers_with_this | apply answers_alter; reflexivity ]
    | unfold resolve, reject; apply answers_settle
    | apply answers_suspend; exact I
    | apply answers_ws_send; exact I ].

Ltac answers_auto :=
  repeat first [ respects_combinator answers_kept_refl answers_kept_trans | answers_leaf ].

Lemma answers_parse data : respects (answers_kept heard) (parse data).
Proof. unfold parse. destruct (JSON_parse data); answers_auto. Qed.

Lemma answers_signEvent k :
  task_answers heard (Some k) -> respects (answers_kept heard) (signEvent k).
Proof.
  intros Hk. unfold signEvent.
  apply respects_bind; [exact answers_kept_trans| |intros []].
  - apply respects_gets. exact answers_kept_refl.
  - apply respects_bind; [exact answers_kept_trans|now apply answers_suspend|].
    intros _. apply respects_ret. exact answers_kept_refl.
  - apply respects_throw. exact answers_kept_refl.
Qed.

Lemma answers_relay_send f :
  frame_answers heard f -> respects (answers_kept heard) (relay_send f).
Proof.
  intros Hf. unfold relay_send.
  apply respects_bind; [exact answers_kept_trans|apply answers_this_relay|].
  intros s. now apply answers_ws_send.
Qed.

#[local] Hint Resolve answers_parse : answers.

Lemma is_str_says v lit : is_str v lit = true -> v = str lit.
Proof.
  destruct v as [[| | |s| |]|]; try discriminate. simpl.
  intros H. apply String.eqb_eq in H. now subst.
Qed.

(** What [lift] and [parse] hand on. *)
Lemma lift_ran {A} (c : Completion A) (a : A) (w w1 : World) :
  lift c w = (Normal a, w1) -> c = Normal a /\ w1 = w.
Proof. unfold lift. now intros [= -> ->]. Qed.

Lemma parse_ran data msg (w w1 : World) :
  parse data w = (Normal msg, w1) -> JSON_parse data = Some msg /\ w1 = w.
Proof. unfold parse. destruct (JSON_parse data); unfold ret, throw; now intros [= -> ->]. Qed.

(** The closure of [authenticate]: the record it hands to the signer is
    for the challenge of the message it is handling. *)
Lemma answers_authOnMessage promise timer pubkey data :
  (forall c, carries_challenge data c -> heard c) ->
  respects (answers_kept heard) (authOnMessage promise timer pubkey data).
Proof.
  intros Hh w. unfold authOnMessage.
  assert (Hbody : forall (body : M unit),
            answers_kept heard w (snd (body w)) ->
            answers_kept heard w (snd (try_catch body (fun _ => ret tt) w))).
  { intros body Hb. unfold try_catch, ret. now destruct (body w) as [[[]|e] w1]. }
  apply Hbody.
  apply (respects_bind_from _ answers_kept_trans); [apply answers_parse|].
  intros msg w1 Hparsed. apply parse_ran in Hparsed as [Hparse ->].
  apply (respects_bind_from _ answers_kept_trans); [apply answers_kept_refl|].
  intros m0 w1 H0. apply lift_ran in H0 as [H0 ->].
  destruct (is_str m0 "AUTH") eqn:Hauth.
  - apply is_str_says in Hauth. subst m0.
    apply (respects_bind_from _ answers_kept_trans); [apply answers_kept_refl|].
    intros m1 w1 H1. apply lift_ran in H1 as [H1 ->].
    assert (Hm1 : heard m1) by (apply Hh; exists msg; now repeat split).
    unfold bind at 1. unfold modify at 1. unfold bind at 1. unfold gets at 1. simpl.
    assert (K : respects (answers_kept heard)
                  (_ <- lift (toString_value m1) ;;
                   now <- Date_now ;;
                   signEvent (ChallengeAwaitsSignature
                                (authEvent_of (relayUrl config) m1 now pubkey)))).
    { unfold Date_now.
      repeat first
        [ apply answers_signEvent; simpl; unfold answers; solve [eauto 10]
        | respects_combinator answers_kept_refl answers_kept_trans
        | answers_leaf ]. }
    eapply answers_kept_trans; [apply (answers_with_this (set_authChallenge m1))|apply K].
  - assert (K : forall message,
              respects (answers_kept heard)
                (accepted <- (if is_str m0 "OK" then
                                m2 <- lift (index message 2) ;;
                                if is_bool m2 true then
                                  m1 <- lift (index message 1) ;;
                                  len <- lift (length_of m1) ;;
                                  ret (is_num len 64)
                                else ret false
                              else ret false) ;;
                 if accepted then
                   modify (with_this (set_isAuthenticated true)) ;;
                   clearTimeout timer ;;
                   resolve promise (JBool true)
                 else if is_str m0 "CLOSED" then
                   m2 <- lift (index message 2) ;;
                   if truthy m2
                   then (_ <- lift (startsWith m2 "auth-required") ;; ret tt) else ret tt
                 else
                   refused <- (if is_str m0 "OK" then
                                 m2 <- lift (index message 2) ;; ret (is_bool m2 false)
                               else ret false) ;;
                   if refused then
                     m3 <- lift (index message 3) ;;
                     _ <- lift (text_or_unknown m3) ;;
                     needs_auth <- (if truthy m3 then lift (includes m3 "auth-required")
                                    else ret false) ;;
                     if needs_auth then
                       clearTimeout timer ;;
                       reject promise AuthenticationFailed
                     else ret tt
                   else ret tt)) by (intros message; answers_auto).
    apply K.
Qed.

Lemma answers_publishOnMessage original promise timer eid data :
  respects (answers_kept heard) (publishOnMessage original promise timer eid data).
Proof. unfold publishOnMessage, assign_onmessage. answers_auto. Qed.

Lemma answers_dispatch data :
  (forall c, carries_challenge data c -> heard c) ->
  forall h, respects (answers_kept heard) (dispatch h data).
Proof.
  intros Hh. fix IH 1. intros [promise timer pubkey | original promise timer eid]; simpl.
  - now apply answers_authOnMessage.
  - apply respects_bind; [exact answers_kept_trans| |].
    + destruct original as [h'|]; [apply IH|answers_auto].
    + intros _. apply answers_publishOnMessage.
Qed.

Lemma answers_authenticate : respects (answers_kept heard) authenticate.
Proof. unfold authenticate, getNip07Signer. answers_auto. Qed.

Lemma answers_authenticate_connect promise pubkey :
  respects (answers_kept heard) (authenticate_connect promise pubkey).
Proof. unfold authenticate_connect, assign_handlers. answers_auto. Qed.

Lemma answers_publishKind30078Event content dTag additionalTags :
  respects (answers_kept heard) (publishKind30078Event content dTag additionalTags).
Proof. unfold publishKind30078Event, getNip07Signer. answers_auto. Qed.

Lemma answers_publish_build promise content dTag additionalTags pubkey :
  respects (answers_kept heard) (publish_build promise content dTag additionalTags pubkey).
Proof.
  unfold publish_build, Date_now.
  repeat first
    [ apply answers_signEvent; exact I
    | respects_combinator answers_kept_refl answers_kept_trans
    | answers_leaf ].
Qed.

Lemma answers_publish_send promise signedEvent :
  respects (answers_kept heard) (publish_send promise signedEvent).
Proof.
  unfold publish_send, assign_onmessage.
  repeat first
    [ apply answers_relay_send; exact I
    | respects_combinator answers_kept_refl answers_kept_trans
    | answers_leaf ].
Qed.

Lemma answers_disconnect : respects (answers_kept heard) disconnect.
Proof. unfold disconnect. answers_auto. Qed.

Lemma answers_resume t reply continuation :
  task_answers heard (Some t) -> resume t reply = Some continuation ->
  respects (answers_kept heard) continuation.
Proof.
  intros Hok. destruct t, reply; simpl in *; intros [= <-].
  - apply answers_authenticate_connect.
  - answers_auto.
  - apply respects_try_catch; [exact answers_kept_trans|now apply answers_relay_send|].
    intros e. apply respects_ret. exact answers_kept_refl.
  - apply respects_ret. exact answers_kept_refl.
  - apply answers_publish_build.
  - answers_auto.
  - apply answers_publish_send.
  - answers_auto.
Qed.

Lemma answers_step (i : Input) (w : World) :
  (forall s data c, i = Ws_message s data -> carries_challenge data c -> heard c) ->
  answers_kept heard w (step i w).
Proof.
  intros Hh. unfold step.
  destruct i as [ | text dTag additionalTags | | s | s data | s | s | t | k reply | ms | present ];
    simpl.
  - revert w. change (respects (answers_kept heard) (_ <- authenticate ;; ret tt)).
    apply respects_bind; [exact answers_kept_trans|apply answers_authenticate|].
    intros _. apply respects_ret. exact answers_kept_refl.
  - revert w.
    change (respects (answers_kept heard)
              (_ <- publishKind30078Event text dTag additionalTags ;; ret tt)).
    apply respects_bind; [exact answers_kept_trans|apply answers_publishKind30078Event|].
    intros _. apply respects_ret. exact answers_kept_refl.
  - apply answers_disconnect.
  - destruct (sockets w !! s) as [ws|] eqn:Hs; [|apply answers_kept_refl].
    destruct (readyState ws); try apply answers_kept_refl.
    destruct (onopen ws) as [[]|]; simpl.
    + eapply answers_kept_trans; [|apply answers_relay_send; exact I].
      now apply (answers_insert s ws).
    + now apply (answers_insert s ws).
  - destruct (sockets w !! s) as [ws|]; [|apply answers_kept_refl].
    destruct (readyState ws); try apply answers_kept_refl.
    destruct (onmessage ws); [|apply answers_kept_refl].
    apply answers_dispatch. intros c Hc. exact (Hh s data c eq_refl Hc).
  - destruct (sockets w !! s) as [ws|]; [|apply answers_kept_refl].
    destruct (readyState ws), (onerror ws) as [[promise timer]|];
      try apply answers_kept_refl; simpl;
      revert w;
      change (respects (answers_kept heard)
                (clearTimeout timer ;; reject promise TransportError));
      answers_auto.
  - destruct (sockets w !! s) as [ws|] eqn:Hs; [|apply answers_kept_refl].
    destruct (readyState ws), (onclose ws) as [[]|];
      try apply answers_kept_refl; simpl;
      first [ eapply answers_kept_trans; [|apply answers_with_this];
              now apply (answers_insert s ws)
            | now apply (answers_insert s ws) ].
  - destruct (timers w !! t) as [tm|]; [|apply answers_kept_refl].
    destruct (armed tm); [|apply answers_kept_refl].
    revert w.
    change (respects (answers_kept heard)
              (clearTimeout t ;; reject (rejects tm) (reason tm))).
    answers_auto.
  - destruct (tasks w !! k) as [[t|]|] eqn:Hk; try apply answers_kept_refl.
    destruct (resume t reply) as [continuation|] eqn:Hr; [|apply answers_kept_refl].
    intros Hw.
    assert (Hok : task_answers heard (Some t)).
    { destruct Hw as [Ht _]. exact (Forall_lookup_1 _ _ _ _ Ht Hk). }
    apply (answers_resume t reply continuation Hok Hr), answers_task_done, Hw.
  - now apply answers_same.
  - now apply answers_same.
Qed.

Lemma answers_run (inputs : list Input) : forall w,
  (forall s data c, Ws_message s data ∈ inputs -> carries_challenge data c -> heard c) ->
  answers_ok heard w -> answers_ok heard (run inputs w).
Proof.
  unfold run. induction inputs as [|i rest IH]; intros w Hh Hw; simpl; [exact Hw|].
  apply IH.
  - intros s data c Hin Hc. apply (Hh s data c); [constructor; exact Hin|exact Hc].
  - apply answers_step; [|exact Hw].
    intros s data c -> Hc. apply (Hh s data c); [constructor|exact Hc].
Qed.

End Answers.

Section Always.

Context {host : Host}.

(** From a fresh page on, whatever the environment does and in whatever
    order, every [AUTH] frame that has gone out on any socket carries a
    proof record of this service for a challenge that came in with one of
    the messages of that run. *)
Lemma answers_always (inputs : list Input) (nostr : bool) (now : Z) s ws signedAuthEvent :
  sockets (run inputs (new_world nostr now)) !! s = Some ws ->
  AUTH signedAuthEvent ∈ sent ws ->
  exists c t pk,
    received inputs c /\
    unsigned signedAuthEvent = authEvent_of (relayUrl config) c t pk.
Proof.
  intros Hs Hf.
  assert (Hw : answers_ok (received inputs) (run inputs (new_world nostr now))).
  { apply answers_run.
    - intros s' data c Hin Hc. now exists s', data.
    - split; constructor. }
  destruct Hw as [_ Hss].
  pose proof (Forall_lookup_1 _ _ _ _ Hss Hs) as Hsent. simpl in Hsent.
  rewrite Forall_forall in Hsent. exact (Hsent _ Hf).
Qed.

End Always.

End RelayAuthAnswers.

(** * The session contract *)

Module Session.
Import Js Nostr Eff RelayAuth.

(** C1 (as the code has it). An acceptance is not correlated with the
    proof record.  While the closure of [authenticate] is the socket's
    [onmessage] and the handshake is pending, a result
    [["OK", eid, ok, text]] resolves it [true] exactly when [ok] is true and
    [eid] is 64 characters long, rejects it exactly when [ok] is false and
    [text] contains [auth-required], and otherwise leaves it pending; no
    identifier of a proof record enters the decision. *)
Theorem acceptance_by_flag_alone :
  forall (host : Host) w s ws promise timer pubkey data eid ok text rest,
    sockets w !! s = Some ws -> readyState ws = OPEN ->
    onmessage ws = Some (AuthOnMessage promise timer pubkey) ->
    promises w !! promise = Some Pending ->
    JSON_parse data
      = Some (JArr (JStr "OK" :: JStr eid :: JBool ok :: JStr text :: rest)) ->
    let w' := step (Ws_message s data) w in
    promises w' !! promise
      = Some (if ok
              then if (String.length eid =? 64)%nat then Fulfilled (JBool true) else Pending
              else if is_substring "auth-required" text
                   then Rejected AuthenticationFailed else Pending) /\
    isAuthenticated (this w')
      = (if ok && (String.length eid =? 64)%nat then true
         else isAuthenticated (this w)) /\
    sockets w' = sockets w.
Proof.
  intros host w s ws promise timer pubkey data eid ok text rest.
  apply RelayAuthFacts.ws_acceptance_by_flag_and_length.
Qed.


(** C5. While [isAuthenticated] is false (or no relay is held),
    [publishKind30078Event] returns a fresh promise that is already rejected
    with the must-authenticate-first error, whatever the configured URL and
    timeout, on both services.  No socket or relay object is touched, so
    nothing is sent; no timer is armed and nothing is left suspended that
    could send later. *)
Theorem publish_requires_authentication :
  (forall w content dTag additionalTags,
     isAuthenticated (this w) = false \/ relay (this w) = None ->
     exists p w',
       publishKind30078Event content dTag additionalTags w = (Normal p, w') /\
       promises w !! p = None /\
       promises w' !! p = Some (Rejected NotAuthenticated) /\
       sockets w' = sockets w /\
       tasks w' = tasks w /\
       timers w' = timers w /\
       this w' = this w) /\
  (forall w content dTag additionalTags,
     NostrAuth.isAuthenticated (NostrAuth.this w) = false \/
     NostrAuth.relay (NostrAuth.this w) = None ->
     exists p w',
       NostrAuth.publishKind30078Event content dTag additionalTags w = (Normal p, w') /\
       NostrAuth.promises w !! p = None /\
       NostrAuth.promises w' !! p = Some (Rejected NotAuthenticated) /\
       NostrAuth.relays w' = NostrAuth.relays w /\
       NostrAuth.tasks w' = NostrAuth.tasks w /\
       NostrAuth.timers w' = NostrAuth.timers w /\
       NostrAuth.this w' = NostrAuth.this w).
Proof.
  split.
  - intros w content dTag additionalTags.
    apply RelayAuthFacts.ws_publish_requires_authentication.
  - intros w content dTag additionalTags.
    apply NostrAuthFacts.pool_publish_requires_authentication.
Qed.

(** C6 (as the code has it). A proof record answers the challenge it
    was built for, which need not be the last one received when it is
    sent.  While the closure of [authenticate] handles a challenge message
    [["AUTH", c]], [c] becomes the stored challenge and the record that
    goes to the signer is built there and then: kind 22242, empty content,
    the public key obtained at the start, and exactly the two tags
    [["relay", config.relayUrl]] and [["challenge", c]].  While the record
    waits for the signer nothing alters it: no later message (another
    challenge among them), call or timer.  When the signer hands it back it
    goes out in an [AUTH] frame as it was built, on the socket the service
    holds, without a look at the stored challenge.  And whatever the
    environment does from a fresh page on, every [AUTH] frame that ever
    went out on a socket carries a record of that kind, with empty content
    and those two tags for the configured URL and a challenge that came
    in, at index 1 of an ['AUTH'] message, among the inputs of that run. *)
Theorem proof_record_answers_its_challenge :
  (forall (host : Host) w s ws promise timer pk data c rest,
     sockets w !! s = Some ws -> readyState ws = OPEN ->
     onmessage ws = Some (AuthOnMessage promise timer pk) ->
     window_nostr w = true ->
     JSON_parse data = Some (JArr (JStr "AUTH" :: JStr c :: rest)) ->
     let w1 := step (Ws_message s data) w in
     authChallenge (this w1) = str c /\
     exists authEvent,
       tasks w1 = tasks w ++ [Some (ChallengeAwaitsSignature authEvent)] /\
       kind authEvent = 22242 /\
       content authEvent = EmptyString /\
       pubkey authEvent = pk /\
       tags authEvent
         = [ [str "relay"; str (relayUrl config)]; [str "challenge"; str c] ]) /\
  (forall (host : Host) (i : Input) w k authEvent,
     tasks w !! k = Some (Some (ChallengeAwaitsSignature authEvent)) ->
     (forall reply, i <> Signer_replies k reply) ->
     tasks (step i w) !! k = Some (Some (ChallengeAwaitsSignature authEvent))) /\
  (forall (host : Host) w k authEvent s ws i sg,
     tasks w !! k = Some (Some (ChallengeAwaitsSignature authEvent)) ->
     relay (this w) = Some s -> sockets w !! s = Some ws -> readyState ws = OPEN ->
     let w2 := step (Signer_replies k (Signature i sg)) w in
     authChallenge (this w2) = authChallenge (this w) /\
     exists ws2,
       sockets w2 !! s = Some ws2 /\
       sent ws2 = sent ws ++ [AUTH {| unsigned := authEvent; id := i; sig := sg |}]) /\
  (forall (host : Host) inputs nostr now s ws signedAuthEvent,
     sockets (run inputs (new_world nostr now)) !! s = Some ws ->
     AUTH signedAuthEvent ∈ sent ws ->
     kind (unsigned signedAuthEvent) = 22242 /\
     content (unsigned signedAuthEvent) = EmptyString /\
     exists challenge s' data,
       Ws_message s' data ∈ inputs /\
       RelayAuthKeeps.carries_challenge data challenge /\
       tags (unsigned signedAuthEvent)
       = [ [str "relay"; str (relayUrl config)]; [str "challenge"; challenge] ]).
Proof.
  split; [|split; [|split]].
  - intros host w s ws promise timer pk data c rest Hs Hst Hh Hn Hm w1.
    destruct (RelayAuthTasks.proof_is_built_from_the_challenge
                w s ws promise timer pk data c rest Hs Hst Hh Hn Hm) as (Hc & Ht).
    split; [exact Hc|].
    exists (authEvent_of (relayUrl config) (str c) (clock w) pk).
    split; [exact Ht|]. now repeat split.
  - intros host i w k authEvent Hk Hi.
    exact (RelayAuthTasks.task_step k _ i w Hi Hk).
  - intros host w k authEvent s ws i sg.
    apply RelayAuthTasks.proof_goes_out_as_built.
  - intros host inputs nostr now s ws signedAuthEvent Hs Hin.
    destruct (RelayAuthAnswers.answers_always inputs nostr now s ws _ Hs Hin)
      as (c & t & pk & (s' & data & Hheard & Hc) & ->).
    split; [reflexivity|]. split; [reflexivity|].
    exists c, s', data. now repeat split.
Qed.

(** C7 (as the code has it). A publication on an authenticated service
    with an open socket puts one [EVENT] frame on that socket, whose record
    has kind 30078, the caller's content, the signer's public key, and as
    tags [["d", dTag]] followed by the caller's tags in their order.  The
    caller's tags are not inspected: the record has one distinguishing-tag
    entry more than they contain, hence exactly one precisely when they
    contain none.  And whatever the environment does from a fresh page on,
    every [EVENT] frame that ever went out on a socket carries a record of
    kind 30078 whose tags start with a distinguishing tag. *)
Theorem publish_record_shape :
  (forall (host : Host) w s ws text dTag additionalTags pk i sg,
     isAuthenticated (this w) = true -> relay (this w) = Some s ->
     sockets w !! s = Some ws -> readyState ws = OPEN ->
     window_nostr w = true ->
     let w' := run [ Call_publishKind30078Event text dTag additionalTags;
                     Signer_replies (length (tasks w)) (PublicKey pk);
                     Signer_replies (S (length (tasks w))) (Signature i sg) ] w in
     exists event ws',
       sockets w' !! s = Some ws' /\
       sent ws' = sent ws ++ [EVENT {| unsigned := event; id := i; sig := sg |}] /\
       kind event = 30078 /\
       content event = text /\
       pubkey event = pk /\
       tags event = [str "d"; str dTag] :: map (map str) additionalTags /\
       count_d_tags (tags event) = S (count_d_tags (map (map str) additionalTags)) /\
       (count_d_tags (tags event) = 1%nat <->
        count_d_tags (map (map str) additionalTags) = 0%nat)) /\
  (forall (host : Host) inputs nostr now s ws signedEvent,
     sockets (run inputs (new_world nostr now)) !! s = Some ws ->
     EVENT signedEvent ∈ sent ws ->
     kind (unsigned signedEvent) = 30078 /\
     exists dTag additionalTags,
       tags (unsigned signedEvent) = [str "d"; str dTag] :: map (map str) additionalTags).
Proof.
  split.
  - intros host w s ws text dTag additionalTags pk i sg.
    apply RelayAuthFacts.ws_publish_record_shape.
  - intros host inputs nostr now s ws signedEvent Hs Hin.
    exact (RelayAuthInvariants.wire_always inputs nostr now s ws _ Hs Hin).
Qed.


(** ** The scenarios B and C as instances *)

#[local] Existing Instance Scenario.browser.

Ltac by_running := vm_compute; reflexivity.

Lemma acceptance_by_flag_alone_witness :
  promises (step (Ws_message 0%nat (Scenario.JSON_text Scenario.ok_proof))
                 Scenario.proof_sent) !! 0%nat
    = Some (Fulfilled (JBool true)).
Proof.
  exact (proj1 (acceptance_by_flag_alone Scenario.browser
                  Scenario.proof_sent 0%nat _ 0%nat 0%nat "npub"
                  (Scenario.JSON_text Scenario.ok_proof) Scenario.proofId true EmptyString []
                  eq_refl eq_refl eq_refl eq_refl eq_refl)).
Defined.


Lemma publish_requires_authentication_witness :
  (exists p w',
     publishKind30078Event "hello" "note-1" [] Scenario.connected = (Normal p, w') /\
     promises w' !! p = Some (Rejected NotAuthenticated) /\
     sockets w' = sockets Scenario.connected) /\
  (exists p w',
     NostrAuth.publishKind30078Event "hello" "note-1" [] NostrAuth.proof_signed = (Normal p, w') /\
     NostrAuth.promises w' !! p = Some (Rejected NotAuthenticated) /\
     NostrAuth.relays w' = NostrAuth.relays NostrAuth.proof_signed).
Proof.
  split.
  - destruct (proj1 publish_requires_authentication
                Scenario.connected "hello" "note-1" [] (or_introl eq_refl))
      as (p & w' & Hcall & _ & Hp & Hs & _).
    exists p, w'. repeat split; assumption.
  - destruct (proj2 publish_requires_authentication
                NostrAuth.proof_signed "hello" "note-1" [] (or_introl eq_refl))
      as (p & w' & Hcall & _ & Hp & Hs & _).
    exists p, w'. repeat split; assumption.
Defined.

Lemma proof_record_answers_its_challenge_witness :
  authChallenge (this (step (Ws_message 0%nat (Scenario.JSON_text Scenario.challenge_c1))
                               Scenario.connected)) = str "c1" /\
  (exists ws2 authEvent,
     sockets Scenario.proof_sent !! 0%nat = Some ws2 /\
     last (sent ws2)
       = Some (AUTH {| unsigned := authEvent; id := Scenario.proofId; sig := "sig" |}) /\
     tags authEvent
       = [ [str "relay"; str "wss://relay.example"]; [str "challenge"; str "c1"] ]).
Proof.
  split.
  - exact (proj1 (proj1 proof_record_answers_its_challenge Scenario.browser
                    Scenario.connected 0%nat _ 0%nat 0%nat "npub"
                    (Scenario.JSON_text Scenario.challenge_c1) "c1" []
                    eq_refl eq_refl eq_refl eq_refl eq_refl)).
  - pose (w := step (host := Scenario.browser)
                 (Ws_message 0%nat (Scenario.JSON_text Scenario.challenge_c1))
                 Scenario.connected).
    let found := eval vm_compute in (sockets w !! 0%nat) in
    match found with
    | Some ?ws =>
        destruct (proj1 (proj2 (proj2 proof_record_answers_its_challenge)) Scenario.browser
                    w 1%nat
                    (authEvent_of "wss://relay.example" (str "c1") 1700000000123 "npub")
                    0%nat ws Scenario.proofId "sig"
                    ltac:(by_running) ltac:(by_running) ltac:(by_running) ltac:(by_running))
          as (_ & ws2 & Hs & Hsent)
    end.
    exists ws2, (authEvent_of "wss://relay.example" (str "c1") 1700000000123 "npub").
    split; [exact Hs|]. split; [|reflexivity].
    rewrite Hsent. apply last_snoc.
Defined.

Lemma publish_record_shape_witness :
  exists event ws',
    sockets Scenario.publishing !! 0%nat = Some ws' /\
    last (sent ws')
      = Some (EVENT {| unsigned := event; id := Scenario.eventId; sig := "sig" |}) /\
    tags event = [ [str "d"; str "note-1"]; [str "t"; str "demo"] ] /\
    count_d_tags (tags event) = 1%nat.
Proof.
  destruct (proj1 publish_record_shape Scenario.browser
              Scenario.authenticated 0%nat _ "hello" "note-1" [["t"; "demo"]]
              "npub" Scenario.eventId "sig" eq_refl eq_refl eq_refl eq_refl eq_refl)
    as (event & ws' & Hs & Hsent & _ & _ & _ & Htags & Hcount & _).
  exists event, ws'. split; [exact Hs|]. split.
  - rewrite Hsent. apply last_snoc.
  - split; [exact Htags|]. rewrite Hcount. reflexivity.
Defined.


End Session.

(** * Further properties of the WebSocket service *)

Module RelayAuthMore.
Import Js Nostr Eff RelayAuth RelayAuthKeeps RelayAuthFacts.
Local Open Scope js_scope.

Ltac unfold_stmt :=
  unfold bind, ret, throw, lift, gets, modify, try_catch in *.

Section More.

Context {host : Host}.

(** ** Results of a publication *)

(** What the closure of [authenticate] leaves alone when it sees a
    correlation result. *)
Lemma authOnMessage_OK_frame promise timer pubkey data eid ok text rest w :
  JSON_parse data = Some (JArr (JStr "OK" :: JStr eid :: JBool ok :: JStr text :: rest)) ->
  let w' := snd (authOnMessage promise timer pubkey data w) in
  sockets w' = sockets w /\
  relay (this w') = relay (this w) /\
  tasks w' = tasks w /\
  (forall q, promise <> q -> promises w' !! q = promises w !! q).
Proof.
  intros Hm. simpl. rewrite (authOnMessage_OK _ _ _ _ _ _ _ _ _ Hm). simpl.
  destruct ok.
  - destruct (String.length eid =? 64)%nat; [|now repeat split].
    unfold resolve. rewrite settle_sockets, settle_this, settle_tasks. simpl.
    repeat split. intros q Hq. now rewrite settle_other.
  - destruct (is_substring "auth-required" text); [|now repeat split].
    unfold reject. rewrite settle_sockets, settle_this, settle_tasks. simpl.
    repeat split. intros q Hq. now rewrite settle_other.
Qed.

(** What the closure of a publication does with [["OK", mid, ok, text, ...]]. *)
Lemma publishOnMessage_result original promise timer eid data mid ok text rest w :
  JSON_parse data = Some (JArr (JStr "OK" :: JStr mid :: JBool ok :: JStr text :: rest)) ->
  publishOnMessage original promise timer eid data w =
  (Normal tt,
   if String.eqb mid eid then
     let w1 := snd (settle promise
                      (if ok then Fulfilled (JStr eid)
                       else Rejected (PublishFailed (reason_or_unknown text)))
                      (with_timers (fun ts => alter disarm timer ts) w)) in
     match relay (this w1) with
     | Some s => with_sockets (fun l => alter (set_onmessage original) s l) w1
     | None => w1
     end
   else w).
Proof.
  intros Hp. unfold publishOnMessage, parse. rewrite Hp. unfold_stmt. simpl.
  destruct (String.eqb mid eid); simpl; [|reflexivity].
  unfold clearTimeout, modify, resolve, reject, this_relay, assign_onmessage, modify.
  destruct ok; simpl.
  - destruct (settle promise (Fulfilled (JStr eid)) _) as [[[]|e] w1] eqn:Hset; simpl.
    + now destruct (relay (this w1)).
    + exfalso. unfold settle in Hset. simpl in Hset.
      now destruct (promises w !! promise) as [[]|].
  - unfold reason_or_unknown. destruct text as [|c text']; simpl.
    + destruct (settle promise _ _) as [[[]|e] w1] eqn:Hset; simpl.
      * now destruct (relay (this w1)).
      * exfalso. unfold settle in Hset. simpl in Hset.
        now destruct (promises w !! promise) as [[]|].
    + destruct (settle promise _ _) as [[[]|e] w1] eqn:Hset; simpl.
      * now destruct (relay (this w1)).
      * exfalso. unfold settle in Hset. simpl in Hset.
        now destruct (promises w !! promise) as [[]|].
Qed.

(** The result for the identifier of the publication in flight settles
    it: resolved with the identifier when the relay accepted, rejected
    with the relay's text (or [Unknown error] when the text is empty) when
    it refused.  The timer of the publication is disarmed, the closure
    found at the start is back in [onmessage], and nothing is sent. *)
Theorem publish_result_settles_and_restores
    w s ws p0 t0 pk0 p t eid data ok text rest :
  relay (this w) = Some s -> sockets w !! s = Some ws -> readyState ws = OPEN ->
  onmessage ws = Some (PublishOnMessage (Some (AuthOnMessage p0 t0 pk0)) p t eid) ->
  promises w !! p = Some Pending -> p0 <> p ->
  JSON_parse data = Some (JArr (JStr "OK" :: JStr eid :: JBool ok :: JStr text :: rest)) ->
  let w' := step (Ws_message s data) w in
  promises w' !! p
    = Some (if ok then Fulfilled (JStr eid)
            else Rejected (PublishFailed (reason_or_unknown text))) /\
  (exists ws',
     sockets w' !! s = Some ws' /\
     onmessage ws' = Some (AuthOnMessage p0 t0 pk0) /\
     readyState ws' = OPEN /\
     sent ws' = sent ws) /\
  (forall tm, timers w' !! t = Some tm -> armed tm = false).
Proof.
  intros Hr Hs Hst Hh Hp Hne Hm w'. subst w'.
  rewrite (step_message s ws _ data w Hs Hst Hh), dispatch_stacked. simpl.
  destruct (authOnMessage_OK_frame p0 t0 pk0 data eid ok text rest w Hm)
    as (Hsock & Hrel & _ & Hprom).
  set (wa := snd (authOnMessage p0 t0 pk0 data w)) in *.
  rewrite (publishOnMessage_result _ _ _ _ _ _ _ _ _ _ Hm), String.eqb_refl. simpl.
  rewrite settle_this. simpl. rewrite Hrel, Hr. simpl.
  assert (Hpa : promises wa !! p = Some Pending) by (rewrite Hprom; assumption).
  split; [|split].
  - apply (settle_lookup p _ (with_timers (fun ts => alter disarm t ts) wa)). exact Hpa.
  - exists (set_onmessage (Some (AuthOnMessage p0 t0 pk0)) ws).
    split; [|simpl; now rewrite Hst].
    rewrite list_lookup_alter_eq, settle_sockets. simpl. now rewrite Hsock, Hs.
  - intros tm. rewrite settle_timers. simpl. rewrite list_lookup_alter_eq.
    destruct (timers wa !! t) as [tm0|]; [|discriminate]. simpl. now intros [= <-].
Qed.

(** A result for any other identifier is not taken for the outcome of
    the publication: its promise stays pending and its closure stays in
    [onmessage]; no socket changes. *)
Theorem other_results_leave_publication_pending
    w s ws p0 t0 pk0 p t eid data mid ok text rest :
  sockets w !! s = Some ws -> readyState ws = OPEN ->
  onmessage ws = Some (PublishOnMessage (Some (AuthOnMessage p0 t0 pk0)) p t eid) ->
  promises w !! p = Some Pending -> p0 <> p -> mid <> eid ->
  JSON_parse data = Some (JArr (JStr "OK" :: JStr mid :: JBool ok :: JStr text :: rest)) ->
  let w' := step (Ws_message s data) w in
  promises w' !! p = Some Pending /\
  sockets w' = sockets w.
Proof.
  intros Hs Hst Hh Hp Hne Hmid Hm w'. subst w'.
  rewrite (step_message s ws _ data w Hs Hst Hh), dispatch_stacked. simpl.
  destruct (authOnMessage_OK_frame p0 t0 pk0 data mid ok text rest w Hm)
    as (Hsock & _ & _ & Hprom).
  rewrite (publishOnMessage_result _ _ _ _ _ _ _ _ _ _ Hm).
  apply String.eqb_neq in Hmid. rewrite Hmid.
  split; [rewrite Hprom; assumption|assumption].
Qed.

(** ** Messages that are not results *)

Lemma publishOnMessage_other_tag original promise timer eid data tag rest w :
  JSON_parse data = Some (JArr (JStr tag :: rest)) -> tag <> "OK" ->
  publishOnMessage original promise timer eid data w = (Normal tt, w).
Proof.
  intros Hp Htag. unfold publishOnMessage, parse. rewrite Hp. unfold_stmt. simpl.
  apply String.eqb_neq in Htag. now rewrite Htag.
Qed.

(** Challenge detection stays active while a publication is in flight:
    a challenge that arrives then is handled by the closure of
    [authenticate] underneath exactly as during the handshake (it becomes
    the stored challenge and a proof record for it goes to the signer),
    and the publication is not touched. *)
Theorem challenge_during_publication
    w s ws p0 t0 pk0 p t eid data c rest :
  sockets w !! s = Some ws -> readyState ws = OPEN ->
  onmessage ws = Some (PublishOnMessage (Some (AuthOnMessage p0 t0 pk0)) p t eid) ->
  window_nostr w = true ->
  JSON_parse data = Some (JArr (JStr "AUTH" :: JStr c :: rest)) ->
  let w' := step (Ws_message s data) w in
  authChallenge (this w') = str c /\
  tasks w' = tasks w ++ [Some (ChallengeAwaitsSignature
                                 (authEvent_of (relayUrl config) (str c) (clock w) pk0))] /\
  promises w' = promises w /\
  sockets w' = sockets w /\
  timers w' = timers w.
Proof.
  intros Hs Hst Hh Hn Hm w'. subst w'.
  rewrite (step_message s ws _ data w Hs Hst Hh), dispatch_stacked. simpl.
  rewrite (authOnMessage_AUTH _ _ _ _ _ _ _ Hm Hn). simpl.
  rewrite (publishOnMessage_other_tag _ _ _ _ _ "AUTH" _ _ Hm) by discriminate.
  now simpl.
Qed.

Lemma authOnMessage_other_tag promise timer pubkey data tag rest w :
  JSON_parse data = Some (JArr (JStr tag :: rest)) -> tag <> "AUTH" -> tag <> "OK" ->
  authOnMessage promise timer pubkey data w = (Normal tt, w).
Proof.
  intros Hp Hauth Hok. unfold authOnMessage, parse. rewrite Hp. unfold_stmt. simpl.
  apply String.eqb_neq in Hauth, Hok. rewrite Hauth, Hok.
  destruct (String.eqb tag "CLOSED"); [|reflexivity].
  destruct (truthy (rest !! 1%nat)); [|reflexivity].
  now destruct (startsWith (rest !! 1%nat) "auth-required").
Qed.

(** A message that is an array headed by any tag other than [AUTH] and
    [OK] (the events and the end-of-stored-events marker of the trigger
    subscription, notices, and the [CLOSED] advisory whatever its reason)
    changes nothing, whatever closures are stacked in [onmessage]. *)
Theorem other_tags_are_ignored data tag rest :
  JSON_parse data = Some (JArr (JStr tag :: rest)) -> tag <> "AUTH" -> tag <> "OK" ->
  (forall h w, dispatch h data w = (Normal tt, w)) /\
  (forall s w, step (Ws_message s data) w = w).
Proof.
  intros Hp Hauth Hok.
  assert (Hd : forall h w, dispatch h data w = (Normal tt, w)).
  { fix IH 1. intros [promise timer pubkey | original promise timer eid] w; simpl.
    - now apply (authOnMessage_other_tag _ _ _ _ tag rest).
    - unfold bind. destruct original as [h'|].
      + rewrite IH. now apply (publishOnMessage_other_tag _ _ _ _ _ tag rest).
      + unfold ret. now apply (publishOnMessage_other_tag _ _ _ _ _ tag rest). }
  split; [exact Hd|].
  intros s w. unfold step. simpl.
  destruct (sockets w !! s) as [ws|]; [|reflexivity].
  destruct (readyState ws); try reflexivity.
  destruct (onmessage ws); [|reflexivity].
  now rewrite Hd.
Qed.

(** ** Transport events *)

(** When the socket closes, the service is marked unauthenticated and a
    publication is refused from then on; but the service still holds the
    closed socket, and no pending promise is settled and no timer
    disarmed by the closure. *)
Theorem close_clears_the_flag_only w s ws text dTag additionalTags :
  sockets w !! s = Some ws -> readyState ws <> CLOSED ->
  onclose ws = Some ClearAuthenticated ->
  let w' := step (Ws_close s) w in
  isAuthenticated (this w') = false /\
  relay (this w') = relay (this w) /\
  promises w' = promises w /\
  timers w' = timers w /\
  (exists ws', sockets w' !! s = Some ws' /\ readyState ws' = CLOSED /\ sent ws' = sent ws) /\
  (exists p w'',
     publishKind30078Event text dTag additionalTags w' = (Normal p, w'') /\
     promises w'' !! p = Some (Rejected NotAuthenticated) /\
     sockets w'' = sockets w').
Proof.
  intros Hs Hst Hc w'.
  assert (Hw' : w' = with_this (set_isAuthenticated false)
                       (with_sockets (fun l => <[s := set_readyState CLOSED ws]> l) w)).
  { subst w'. unfold step. simpl. rewrite Hs, Hc.
    destruct (readyState ws); try reflexivity. congruence. }
  rewrite Hw'. simpl. repeat split.
  - eexists. split; [apply list_lookup_insert_eq; now apply lookup_lt_Some in Hs|].
    now split.
  - destruct (ws_publish_requires_authentication
                (with_this (set_isAuthenticated false)
                   (with_sockets (fun l => <[s := set_readyState CLOSED ws]> l) w))
                text dTag additionalTags (or_introl eq_refl))
      as (p & w'' & Hcall & _ & Hp & Hsock & _).
    exists p, w''. now repeat split.
Qed.

(** A transport error rejects the pending handshake with the
    connection-failed error and disarms its timer; the service keeps its
    relay and its flag, and no socket is closed by it. *)
Theorem transport_error_only_rejects w s ws promise timer :
  sockets w !! s = Some ws -> readyState ws <> CLOSED ->
  onerror ws = Some (FailConnection promise timer) ->
  promises w !! promise = Some Pending ->
  let w' := step (Ws_error s) w in
  promises w' !! promise = Some (Rejected TransportError) /\
  this w' = this w /\
  sockets w' = sockets w /\
  (forall tm, timers w' !! timer = Some tm -> armed tm = false).
Proof.
  intros Hs Hst He Hp w'.
  assert (Hw' : w' = snd (reject promise TransportError
                            (with_timers (fun ts => alter disarm timer ts) w))).
  { subst w'. unfold step, react. rewrite Hs, He.
    destruct (readyState ws); try congruence;
      unfold run_onerror, clearTimeout; unfold_stmt;
      now destruct (reject promise TransportError _) as [[[]|e] w1]. }
  rewrite Hw'. unfold reject.
  rewrite settle_lookup, settle_this, settle_sockets, settle_timers by assumption.
  simpl. repeat split.
  intros tm. rewrite list_lookup_alter_eq.
  destruct (timers w !! timer) as [tm0|]; [|discriminate]. simpl. now intros [= <-].
Qed.

(** When the [WebSocket] constructor refuses the configured URL,
    [authenticate] is rejected with the constructor's exception at once:
    no socket exists, the service's fields are untouched, and the timer
    just armed is disarmed again. *)
Theorem refused_url_rejects_at_once promise pubkey w :
  WebSocket_accepts (relayUrl config) = false ->
  promises w !! promise = Some Pending ->
  let w' := snd (authenticate_connect promise pubkey w) in
  promises w' !! promise = Some (Rejected SyntaxError) /\
  sockets w' = sockets w /\
  this w' = this w /\
  tasks w' = tasks w /\
  exists tm, timers w' = timers w ++ [tm] /\ armed tm = false.
Proof.
  intros Hu Hp w'. subst w'.
  unfold authenticate_connect, setTimeout, new_WebSocket, clearTimeout, reject.
  unfold_stmt. simpl. rewrite Hu. simpl.
  match goal with |- context [settle ?p ?st ?w0] =>
    pose proof (settle_lookup p st w0 Hp) as Hl;
    pose proof (settle_sockets p st w0) as Hso;
    pose proof (settle_this p st w0) as Hth;
    pose proof (settle_tasks p st w0) as Hta;
    pose proof (settle_timers p st w0) as Hti;
    destruct (settle p st w0) as [[[]|e] w1] end;
    simpl in *; rewrite Hl, Hso, Hth, Hta, Hti; simpl;
    (repeat split; eexists; split; [apply alter_fresh|reflexivity]).
Qed.

(** ** The start of the handshake *)

Lemma authenticate_call w :
  window_nostr w = true ->
  authenticate w =
  (Normal (length (promises w)),
   with_tasks (fun ts => ts ++ [Some (AuthenticateAwaitsPublicKey (length (promises w)))])
     (with_promises (fun ps => ps ++ [Pending]) w)).
Proof.
  intros Hn. unfold authenticate, getNip07Signer, new_Promise, suspend. unfold_stmt. simpl.
  now rewrite Hn.
Qed.

Lemma authenticate_connect_eq promise pk w :
  WebSocket_accepts (relayUrl config) = true ->
  authenticate_connect promise pk w =
  (Normal tt,
   with_sockets (fun l => l ++ [{| url := relayUrl config; readyState := CONNECTING;
                                   onopen := Some SendTriggerReq;
                                   onmessage := Some (AuthOnMessage promise (length (timers w)) pk);
                                   onerror := Some (FailConnection promise (length (timers w)));
                                   onclose := Some ClearAuthenticated;
                                   sent := [] |}])
     (with_this (set_relay (Some (length (sockets w))))
        (with_timers (fun ts => ts ++ [{| armed := true; delay := timeout_or_default config;
                                          rejects := promise;
                                          reason := AuthenticationTimeout |}]) w))).
Proof.
  intros Hu. unfold authenticate_connect, setTimeout, new_WebSocket, assign_handlers.
  unfold_stmt. simpl. rewrite Hu. simpl. unfold with_sockets. simpl.
  now rewrite alter_fresh.
Qed.

(** [authenticate], once the signer has given the public key and the
    socket has opened: one promise, still pending; one timer, armed with
    the configured delay; one new socket to the configured URL, open, with
    the four handlers of the handshake, on which exactly the trigger
    request has been sent.  The sockets that existed before, the one the
    service held among them, are left as they were, and the flag is not
    reset. *)
Theorem authenticate_connects_and_triggers w pk :
  window_nostr w = true -> WebSocket_accepts (relayUrl config) = true ->
  let p := length (promises w) in
  let t := length (timers w) in
  let s := length (sockets w) in
  let w' := run [ Call_authenticate;
                  Signer_replies (length (tasks w)) (PublicKey pk);
                  Ws_open s ] w in
  promises w' = promises w ++ [Pending] /\
  timers w' = timers w ++ [{| armed := true; delay := timeout_or_default config;
                              rejects := p; reason := AuthenticationTimeout |}] /\
  relay (this w') = Some s /\
  isAuthenticated (this w') = isAuthenticated (this w) /\
  sockets w' = sockets w ++ [{| url := relayUrl config; readyState := OPEN;
                                onopen := Some SendTriggerReq;
                                onmessage := Some (AuthOnMessage p t pk);
                                onerror := Some (FailConnection p t);
                                onclose := Some ClearAuthenticated;
                                sent := [REQ "auth_trigger" [1] 1] |}].
Proof.
  intros Hn Hu p t s w'. subst w'. unfold run. simpl.
  set (w1 := step Call_authenticate w).
  assert (Hw1 : w1 = with_tasks (fun ts => ts ++ [Some (AuthenticateAwaitsPublicKey p)])
                       (with_promises (fun ps => ps ++ [Pending]) w)).
  { subst w1. unfold step. simpl. unfold bind. now rewrite (authenticate_call w Hn). }
  set (w2 := step (Signer_replies (length (tasks w)) (PublicKey pk)) w1).
  assert (Hw2 : w2 = snd (authenticate_connect p pk
                            (with_tasks (fun ts => <[length (tasks w) := None]> ts) w1))).
  { subst w2.
    apply (step_reply (length (tasks w)) (AuthenticateAwaitsPublicKey p) (PublicKey pk)).
    - rewrite Hw1. simpl. apply lookup_fresh.
    - reflexivity. }
  rewrite authenticate_connect_eq in Hw2 by assumption.
  rewrite Hw1 in Hw2. simpl in Hw2.
  unfold step. simpl. rewrite Hw2. simpl.
  subst s. rewrite lookup_fresh. simpl.
  unfold relay_send, this_relay, ws_send. unfold_stmt. simpl.
  rewrite insert_fresh, lookup_fresh. simpl.
  rewrite ?insert_fresh. simpl. rewrite ?insert_fresh. now repeat split.
Qed.

(** ** The signer refuses, or the service is disconnected meanwhile *)

(** A refusal of the signer to sign the proof record is caught inside the
    message closure and changes nothing: nothing is sent, the handshake is
    still pending and its timer still armed.  The handshake is then open
    to whatever comes next; if that is its timer, it is rejected with the
    timeout error. *)
Theorem signer_refusal_leaves_handshake_to_timer w k authEvent why t tm promise :
  tasks w !! k = Some (Some (ChallengeAwaitsSignature authEvent)) ->
  timers w !! t = Some tm -> armed tm = true ->
  rejects tm = promise -> reason tm = AuthenticationTimeout ->
  promises w !! promise = Some Pending ->
  let w1 := step (Signer_replies k (Refused why)) w in
  let w2 := step (Timer_fires t) w1 in
  promises w1 = promises w /\
  sockets w1 = sockets w /\
  timers w1 = timers w /\
  this w1 = this w /\
  promises w2 !! promise = Some (Rejected AuthenticationTimeout).
Proof.
  intros Hk Ht Ha Hrj Hre Hp w1 w2.
  assert (Hw1 : w1 = with_tasks (fun ts => <[k := None]> ts) w).
  { subst w1. now rewrite (step_reply k _ (Refused why) _ w Hk eq_refl). }
  subst w2. rewrite Hw1. simpl. repeat split.
  rewrite (step_timer t tm) by assumption.
  rewrite Hrj, Hre. unfold reject. now apply settle_lookup.
Qed.

(** A refusal of the signer during a publication, at the public key or
    at the signature, rejects the publication with the signer's reason;
    nothing is sent, no timer is armed and no closure installed. *)
Theorem signer_refusal_rejects_publication w k promise why :
  (exists text dTag additionalTags,
     tasks w !! k = Some (Some (PublishAwaitsPublicKey promise text dTag additionalTags))) \/
  (exists event, tasks w !! k = Some (Some (PublishAwaitsSignature promise event))) ->
  promises w !! promise = Some Pending ->
  let w' := step (Signer_replies k (Refused why)) w in
  promises w' !! promise = Some (Rejected (SignerRejection why)) /\
  sockets w' = sockets w /\
  timers w' = timers w /\
  this w' = this w.
Proof.
  intros Hk Hp w'.
  assert (Hw' : w' = snd (reject promise (SignerRejection why)
                            (with_tasks (fun ts => <[k := None]> ts) w))).
  { subst w'. destruct Hk as [(text & dTag & additionalTags & Hk) | (event & Hk)];
      now rewrite (step_reply k _ (Refused why) _ w Hk eq_refl). }
  rewrite Hw'. unfold reject.
  rewrite settle_lookup, settle_sockets, settle_timers, settle_this by assumption.
  now repeat split.
Qed.

(** [disconnect] while a publication waits for its signature: when the
    signature arrives the service holds no relay, the executor throws on
    [this.relay!], and the publication is rejected with that [TypeError];
    no frame goes out on any socket. *)
Theorem disconnect_during_signing_rejects_publication w k promise event i sg :
  tasks w !! k = Some (Some (PublishAwaitsSignature promise event)) ->
  promises w !! promise = Some Pending ->
  let w1 := step Call_disconnect w in
  let w2 := step (Signer_replies k (Signature i sg)) w1 in
  promises w2 !! promise = Some (Rejected TypeError) /\
  sockets w2 = sockets w1 /\
  this w2 = new_service.
Proof.
  intros Hk Hp w1 w2.
  assert (Hw1 : w1 = with_this (fun _ => new_service) (close_held w)).
  { subst w1. unfold step. simpl. now rewrite disconnect_eq. }
  assert (Hct : tasks (close_held w) = tasks w /\ promises (close_held w) = promises w).
  { unfold close_held, ws_close. destruct (relay (this w)) as [s|]; [|now split].
    destruct (sockets w !! s) as [ws|]; [|now split]. now destruct (readyState ws). }
  destruct Hct as [Hct Hcp].
  assert (Hk1 : tasks w1 !! k = Some (Some (PublishAwaitsSignature promise event))).
  { rewrite Hw1. simpl. now rewrite Hct. }
  subst w2. rewrite (step_reply k _ (Signature i sg) _ w1 Hk1 eq_refl).
  unfold publish_send, setTimeout, this_relay, reject. unfold_stmt.
  rewrite Hw1. simpl.
  match goal with |- context [settle ?p ?st ?w0] =>
    assert (Hp0 : promises w0 !! p = Some Pending) by (simpl; now rewrite Hcp);
    pose proof (settle_lookup p st w0 Hp0) as Hl;
    pose proof (settle_sockets p st w0) as Hso;
    pose proof (settle_this p st w0) as Hth;
    destruct (settle p st w0) as [[[]|e] w3] end;
    simpl in *; rewrite Hl, Hso, Hth; now repeat split.
Qed.

(** After [disconnect] a publication is refused, from any state. *)
Theorem publish_after_disconnect_is_refused w text dTag additionalTags :
  let w1 := step Call_disconnect w in
  exists p w2,
    publishKind30078Event text dTag additionalTags w1 = (Normal p, w2) /\
    promises w2 !! p = Some (Rejected NotAuthenticated) /\
    sockets w2 = sockets w1 /\
    this w2 = new_service.
Proof.
  intros w1.
  assert (Hw1 : this w1 = new_service).
  { subst w1. unfold step. simpl. now rewrite disconnect_eq. }
  destruct (ws_publish_requires_authentication w1 text dTag additionalTags)
    as (p & w2 & Hcall & _ & Hp & Hs & _ & _ & Ht).
  { left. now rewrite Hw1. }
  exists p, w2. repeat split; try assumption. now rewrite Ht.
Qed.

End More.

End RelayAuthMore.

(** * More invariants of the WebSocket service *)

Module RelayAuthKeepsFacts.
Import Js Nostr Eff RelayAuth RelayAuthKeeps RelayAuthFacts RelayAuthInvariants.
Local Open Scope js_scope.

Section KeepsFacts.

Context {host : Host}.

(** ** The fields of the service *)

Lemma this_kept_refl w : this_kept w w.
Proof. reflexivity. Qed.

Lemma this_kept_trans a b c : this_kept a b -> this_kept b c -> this_kept a c.
Proof. unfold this_kept. congruence. Qed.

Ltac this_prim := intros w; unfold this_kept; repeat case_match; reflexivity.

Lemma this_settle p st : respects this_kept (settle p st).
Proof. intros w. apply settle_this. Qed.
Lemma this_new_Promise : respects this_kept new_Promise.
Proof. this_prim. Qed.
Lemma this_setTimeout p e ms : respects this_kept (setTimeout p e ms).
Proof. this_prim. Qed.
Lemma this_clearTimeout t : respects this_kept (clearTimeout t).
Proof. this_prim. Qed.
Lemma this_suspend k : respects this_kept (suspend k).
Proof. this_prim. Qed.
Lemma this_ws_send s f : respects this_kept (ws_send s f).
Proof. intros w. unfold this_kept, ws_send. repeat case_match; reflexivity. Qed.
Lemma this_this_relay : respects this_kept this_relay.
Proof. intros w. unfold this_kept, this_relay. repeat case_match; reflexivity. Qed.
Lemma this_get_onmessage s : respects this_kept (get_onmessage s).
Proof. intros w. unfold this_kept, get_onmessage. repeat case_match; reflexivity. Qed.
Lemma this_assign_onmessage s h : respects this_kept (assign_onmessage s h).
Proof. this_prim. Qed.

Create HintDb this_kept discriminated.
#[local] Hint Resolve this_settle this_new_Promise this_setTimeout this_clearTimeout
  this_suspend this_ws_send this_this_relay this_get_onmessage this_assign_onmessage
  : this_kept.

Ltac this_auto :=
  repeat first
    [ respects_combinator this_kept_refl this_kept_trans
    | solve [auto with this_kept]
    | unfold resolve, reject; apply this_settle ].

Lemma this_parse data : respects this_kept (parse data).
Proof. unfold parse. destruct (JSON_parse data); this_auto. Qed.
Lemma this_signEvent k : respects this_kept (signEvent k).
Proof. unfold signEvent. this_auto. Qed.
Lemma this_relay_send f : respects this_kept (relay_send f).
Proof. unfold relay_send. this_auto. Qed.

#[local] Hint Resolve this_parse this_signEvent this_relay_send : this_kept.

(** The closure of a publication never writes a field of the service. *)
Lemma this_publishOnMessage original promise timer eid data :
  respects this_kept (publishOnMessage original promise timer eid data).
Proof. unfold publishOnMessage. this_auto. Qed.

Lemma this_authenticate : respects this_kept authenticate.
Proof. unfold authenticate, getNip07Signer. this_auto. Qed.
Lemma this_publishKind30078Event text dTag additionalTags :
  respects this_kept (publishKind30078Event text dTag additionalTags).
Proof. unfold publishKind30078Event, getNip07Signer. this_auto. Qed.
Lemma this_publish_build promise text dTag additionalTags pk :
  respects this_kept (publish_build promise text dTag additionalTags pk).
Proof. unfold publish_build, Date_now. this_auto. Qed.
Lemma this_publish_send promise signedEvent :
  respects this_kept (publish_send promise signedEvent).
Proof. unfold publish_send. this_auto. Qed.

(** ** The flag *)

Lemma flag_of_this w w' : this_kept w w' -> flag_kept w w'.
Proof. unfold this_kept, flag_kept. now intros ->. Qed.

Lemma authenticate_connect_flag promise pk w :
  isAuthenticated (this (snd (authenticate_connect promise pk w))) = isAuthenticated (this w).
Proof.
  unfold authenticate_connect, setTimeout, new_WebSocket, assign_handlers, clearTimeout, reject.
  unfold bind, try_catch, modify. simpl.
  destruct (WebSocket_accepts (relayUrl config)); simpl; [reflexivity|].
  match goal with |- context [settle ?p ?st ?w0] =>
    pose proof (settle_this p st w0) as Ht; destruct (settle p st w0) as [[[]|e] w1] end;
    simpl in *; now rewrite Ht.
Qed.

(** The closure of [authenticate] raises the flag on an acceptance only. *)
Lemma is_str_true v lit : is_str v lit = true -> v = str lit.
Proof.
  destruct v as [[| | |s| |]|]; try discriminate. simpl.
  intros H. apply String.eqb_eq in H. now subst.
Qed.

Lemma is_bool_true v : is_bool v true = true -> v = Some (JBool true).
Proof. destruct v as [[|[]| | | |]|]; try discriminate. reflexivity. Qed.

Lemma is_num_true v n : is_num v n = true -> v = Some (JNum n).
Proof.
  destruct v as [[| |m| | |]|]; try discriminate. simpl.
  intros H. apply Z.eqb_eq in H. now subst.
Qed.

Lemma authOnMessage_flag promise timer pubkey data w :
  isAuthenticated (this (snd (authOnMessage promise timer pubkey data w))) = true ->
  isAuthenticated (this w) = true \/ is_acceptance data.
Proof.
  unfold authOnMessage, parse, signEvent, suspend, Date_now, clearTimeout,
    resolve, reject, settle.
  unfold bind, try_catch, ret, throw, lift, gets, modify.
  intros H.
  repeat (case_match; simplify_eq/=; try (left; assumption)).
  all: try (left; assumption).
  all: right;
    repeat match goal with
      | H : is_str _ _ = true |- _ => apply is_str_true in H
      | H : is_bool _ true = true |- _ => apply is_bool_true in H
      | H : is_num _ _ = true |- _ => apply is_num_true in H
      end;
    subst; eexists _, _; (split; [eassumption|]); simpl;
    repeat split; try reflexivity; try eassumption;
    try (f_equal; eassumption).
Qed.

Lemma dispatch_flag data : forall h w,
  isAuthenticated (this (snd (dispatch h data w))) = true ->
  isAuthenticated (this w) = true \/ is_acceptance data.
Proof.
  fix IH 1. intros [promise timer pubkey | original promise timer eid] w.
  - apply authOnMessage_flag.
  - rewrite dispatch_stacked, (this_publishOnMessage original promise timer eid data).
    destruct original as [h'|]; [apply IH|now left].
Qed.

Lemma resume_flag t reply continuation w :
  resume t reply = Some continuation ->
  isAuthenticated (this (snd (continuation w))) = isAuthenticated (this w).
Proof.
  destruct t, reply; simpl; intros [= <-].
  - apply authenticate_connect_flag.
  - unfold reject. now rewrite settle_this.
  - f_equal. apply (respects_try_catch this_kept this_kept_trans); [apply this_relay_send|].
    intros e. apply respects_ret. exact this_kept_refl.
  - reflexivity.
  - f_equal. apply this_publish_build.
  - unfold reject. now rewrite settle_this.
  - f_equal. apply this_publish_send.
  - unfold reject. now rewrite settle_this.
Qed.

(** Nothing but an inbound acceptance marks the service authenticated:
    if one step of the environment raises the flag, that step is the
    delivery of a message that parses to an array (or array-like value)
    headed ["OK"] with [true] at index 2 and, at index 1, a value whose
    [length] is 64.  No call of the interface, no reply of the signer, no
    timer and no open, error or close event does it. *)
Theorem only_an_acceptance_authenticates (i : Input) (w : World) :
  isAuthenticated (this w) = false ->
  isAuthenticated (this (step i w)) = true ->
  exists s data, i = Ws_message s data /\ is_acceptance data.
Proof.
  intros Hf Ht.
  assert (Hno : isAuthenticated (this (step i w)) = isAuthenticated (this w) -> False)
    by (rewrite Hf, Ht; discriminate).
  unfold step in *.
  destruct i as [ | text dTag additionalTags | | s | s data | s | s | t | k reply | ms | present ];
    simpl in *.
  - exfalso. apply Hno. f_equal.
    apply (respects_bind this_kept this_kept_trans); [apply this_authenticate|].
    intros _. apply respects_ret. exact this_kept_refl.
  - exfalso. apply Hno. f_equal.
    apply (respects_bind this_kept this_kept_trans); [apply this_publishKind30078Event|].
    intros _. apply respects_ret. exact this_kept_refl.
  - rewrite disconnect_eq in Ht. discriminate.
  - exfalso. apply Hno.
    destruct (sockets w !! s) as [ws|]; [|reflexivity].
    destruct (readyState ws); try reflexivity.
    destruct (onopen ws) as [[]|]; simpl; [|reflexivity].
    now rewrite (this_relay_send (REQ "auth_trigger" [1] 1)).
  - exists s, data. split; [reflexivity|].
    destruct (sockets w !! s) as [ws|]; [|simpl in Ht; congruence].
    destruct (readyState ws); try (simpl in Ht; congruence).
    destruct (onmessage ws) as [h|]; [|simpl in Ht; congruence].
    destruct (dispatch_flag data h w Ht) as [H|H]; [congruence|exact H].
  - exfalso. apply Hno.
    destruct (sockets w !! s) as [ws|]; [|reflexivity].
    destruct (readyState ws), (onerror ws) as [[promise timer]|]; try reflexivity; simpl;
      f_equal;
      (apply (respects_bind this_kept this_kept_trans); [apply this_clearTimeout|]);
      intros _; apply this_settle.
  - destruct (sockets w !! s) as [ws|]; [|simpl in Ht; congruence].
    destruct (readyState ws), (onclose ws) as [[]|]; simpl in Ht; congruence.
  - exfalso. apply Hno.
    destruct (timers w !! t) as [tm|]; [|reflexivity].
    destruct (armed tm); [|reflexivity]. f_equal.
    apply (respects_bind this_kept this_kept_trans); [apply this_clearTimeout|].
    intros _. apply this_settle.
  - exfalso. apply Hno.
    destruct (tasks w !! k) as [[t|]|]; try reflexivity.
    destruct (resume t reply) as [continuation|] eqn:Hr; [|reflexivity].
    now rewrite (resume_flag t reply continuation _ Hr).
  - congruence.
  - congruence.
Qed.

(** ** Timers *)

Lemma timers_kept_refl w : timers_kept w w.
Proof. intros H. exact H. Qed.

Lemma timers_kept_trans a b c : timers_kept a b -> timers_kept b c -> timers_kept a c.
Proof. intros Hab Hbc H. apply Hbc, Hab, H. Qed.

Lemma timers_same w w' : timers w' = timers w -> timers_kept w w'.
Proof. intros He H. now rewrite He. Qed.

Ltac timers_prim := intros w; apply timers_same; repeat case_match; reflexivity.

Lemma timers_settle p st : respects timers_kept (settle p st).
Proof. intros w. apply timers_same, settle_timers. Qed.
Lemma timers_new_Promise : respects timers_kept new_Promise.
Proof. timers_prim. Qed.
Lemma timers_suspend k : respects timers_kept (suspend k).
Proof. timers_prim. Qed.
Lemma timers_ws_send s f : respects timers_kept (ws_send s f).
Proof. intros w. apply timers_same. unfold ws_send. repeat case_match; reflexivity. Qed.
Lemma timers_ws_close s : respects timers_kept (ws_close s).
Proof. intros w. apply timers_same. unfold ws_close. repeat case_match; reflexivity. Qed.
Lemma timers_this_relay : respects timers_kept this_relay.
Proof. intros w. apply timers_same. unfold this_relay. repeat case_match; reflexivity. Qed.
Lemma timers_get_onmessage s : respects timers_kept (get_onmessage s).
Proof. intros w. apply timers_same. unfold get_onmessage. repeat case_match; reflexivity. Qed.
Lemma timers_new_WebSocket u : respects timers_kept (new_WebSocket u).
Proof. intros w. apply timers_same. unfold new_WebSocket. repeat case_match; reflexivity. Qed.

Lemma timers_clearTimeout t : respects timers_kept (clearTimeout t).
Proof.
  intros w H. simpl. apply Forall_alter; [exact H|].
  intros tm _ Hok. exact Hok.
Qed.

Lemma timers_setTimeout p e :
  e = AuthenticationTimeout \/ e = PublishTimeout ->
  respects timers_kept (setTimeout p e (timeout_or_default config)).
Proof.
  intros He w H. simpl. apply Forall_app. split; [exact H|].
  constructor; [|constructor]. now split.
Qed.

Create HintDb timers_kept discriminated.
#[local] Hint Resolve timers_settle timers_new_Promise timers_suspend timers_ws_send
  timers_ws_close timers_this_relay timers_get_onmessage timers_new_WebSocket
  timers_clearTimeout : timers_kept.

Ltac timers_auto :=
  repeat first
    [ respects_combinator timers_kept_refl timers_kept_trans
    | solve [auto with timers_kept]
    | apply respects_modify; intro; apply timers_same; reflexivity
    | unfold resolve, reject; apply timers_settle
    | apply timers_setTimeout; solve [auto] ].

Lemma timers_relay_send f : respects timers_kept (relay_send f).
Proof. unfold relay_send. timers_auto. Qed.

Lemma timers_dispatch data : forall h, respects timers_kept (dispatch h data).
Proof.
  fix IH 1. intros [promise timer pubkey | original promise timer eid]; simpl.
  - unfold authOnMessage, parse, signEvent, Date_now.
    destruct (JSON_parse data); timers_auto.
  - apply respects_bind; [exact timers_kept_trans| |].
    + destruct original as [h'|]; [apply IH|timers_auto].
    + intros _. unfold publishOnMessage, parse, assign_onmessage.
      destruct (JSON_parse data); timers_auto.
Qed.

Lemma timers_resume t reply continuation :
  resume t reply = Some continuation -> respects timers_kept continuation.
Proof.
  destruct t, reply; simpl; intros [= <-];
    unfold authenticate_connect, assign_handlers, relay_send, publish_build,
      publish_send, signEvent, assign_onmessage, Date_now;
    timers_auto.
Qed.

Lemma timers_step (i : Input) (w : World) : timers_kept w (step i w).
Proof.
  unfold step.
  destruct i as [ | text dTag additionalTags | | s | s data | s | s | t | k reply | ms | present ];
    simpl.
  - revert w. change (respects timers_kept (_ <- authenticate ;; ret tt)).
    unfold authenticate, getNip07Signer. timers_auto.
  - revert w.
    change (respects timers_kept (_ <- publishKind30078Event text dTag additionalTags ;; ret tt)).
    unfold publishKind30078Event, getNip07Signer. timers_auto.
  - revert w. change (respects timers_kept disconnect). unfold disconnect. timers_auto.
  - destruct (sockets w !! s) as [ws|]; [|apply timers_kept_refl].
    destruct (readyState ws); try apply timers_kept_refl.
    destruct (onopen ws) as [[]|]; simpl; [|now apply timers_same].
    eapply timers_kept_trans; [|apply timers_relay_send]. now apply timers_same.
  - destruct (sockets w !! s) as [ws|]; [|apply timers_kept_refl].
    destruct (readyState ws); try apply timers_kept_refl.
    destruct (onmessage ws); [apply timers_dispatch|apply timers_kept_refl].
  - destruct (sockets w !! s) as [ws|]; [|apply timers_kept_refl].
    destruct (readyState ws), (onerror ws) as [[promise timer]|];
      try apply timers_kept_refl; simpl;
      revert w;
      change (respects timers_kept (clearTimeout timer ;; reject promise TransportError));
      timers_auto.
  - destruct (sockets w !! s) as [ws|]; [|apply timers_kept_refl].
    destruct (readyState ws), (onclose ws) as [[]|];
      try apply timers_kept_refl; simpl; now apply timers_same.
  - destruct (timers w !! t) as [tm|]; [|apply timers_kept_refl].
    destruct (armed tm); [|apply timers_kept_refl].
    revert w. change (respects timers_kept (clearTimeout t ;; reject (rejects tm) (reason tm))).
    timers_auto.
  - destruct (tasks w !! k) as [[t|]|]; try apply timers_kept_refl.
    destruct (resume t reply) as [continuation|] eqn:Hr; [|apply timers_kept_refl].
    eapply timers_kept_trans; [|eapply timers_resume; eassumption].
    now apply timers_same.
  - now apply timers_same.
  - now apply timers_same.
Qed.

(** From a fresh page on, every timer the service has ever armed, for a
    handshake or for a publication, carries the configured delay, which is
    10000 when no timeout or a timeout of 0 is configured, and rejects
    with one of the two timeout errors. *)
Theorem timers_carry_the_configured_delay inputs nostr now t tm :
  timers (run inputs (new_world nostr now)) !! t = Some tm ->
  delay tm = timeout_or_default config /\
  (reason tm = AuthenticationTimeout \/ reason tm = PublishTimeout) /\
  (timeout config = None \/ timeout config = Some 0 -> delay tm = 10000).
Proof.
  intros Ht.
  assert (Hall : Forall timer_ok (timers (run inputs (new_world nostr now)))).
  { clear Ht.
    generalize (new_world nostr now),
      (Forall_nil_2 timer_ok : Forall timer_ok (timers (new_world nostr now))).
    unfold run. induction inputs as [|i rest IH]; intros w0 H0; simpl; [exact H0|].
    apply IH. now apply timers_step. }
  destruct (Forall_lookup_1 _ _ _ _ Hall Ht) as [Hd Hr].
  split; [exact Hd|]. split; [exact Hr|].
  intros Hc. rewrite Hd. unfold timeout_or_default. now destruct Hc as [-> | ->].
Qed.

End KeepsFacts.

End RelayAuthKeepsFacts.

(** * The further properties on the scenarios *)

Module RelayAuthMoreWitnesses.
Import Js Nostr Eff RelayAuth RelayAuthKeeps Scenario Moments.
Import RelayAuthMore RelayAuthKeepsFacts.

(** Hypotheses about a scenario are settled by running it. *)
Ltac by_running := vm_compute; reflexivity.

(** [k] applied to the socket [s] of the world [w]. *)
Ltac with_socket w s k :=
  let found := eval vm_compute in (sockets w !! s) in
  match found with
  | Some ?ws => k ws
  end.

Ltac with_timer w t k :=
  let found := eval vm_compute in (timers w !! t) in
  match found with
  | Some ?tm => k tm
  end.

Lemma publish_result_settles_and_restores_witness :
  promises (step (Ws_message 0%nat (JSON_text ok_event)) publishing) !! 1%nat
    = Some (Fulfilled (JStr eventId)) /\
  promises (step (Ws_message 0%nat (JSON_text rate_limited)) publishing) !! 1%nat
    = Some (Rejected (PublishFailed "rate-limited")).
Proof.
  split.
  - with_socket publishing 0%nat ltac:(fun ws =>
      exact (proj1 (publish_result_settles_and_restores (host := browser)
                      publishing 0%nat ws 0%nat 0%nat "npub"
                      1%nat 1%nat eventId (JSON_text ok_event) true EmptyString []
                      ltac:(by_running) ltac:(by_running) ltac:(by_running)
                      ltac:(by_running) ltac:(by_running) ltac:(discriminate)
                      ltac:(by_running)))).
  - with_socket publishing 0%nat ltac:(fun ws =>
      exact (proj1 (publish_result_settles_and_restores (host := browser)
                      publishing 0%nat ws 0%nat 0%nat "npub"
                      1%nat 1%nat eventId (JSON_text rate_limited) false "rate-limited" []
                      ltac:(by_running) ltac:(by_running) ltac:(by_running)
                      ltac:(by_running) ltac:(by_running) ltac:(discriminate)
                      ltac:(by_running)))).
Defined.

Lemma other_results_leave_publication_pending_witness :
  promises (step (Ws_message 0%nat (JSON_text ok_other)) publishing) !! 1%nat = Some Pending.
Proof.
  with_socket publishing 0%nat ltac:(fun ws =>
    exact (proj1 (other_results_leave_publication_pending (host := browser)
                    publishing 0%nat ws 0%nat 0%nat "npub"
                    1%nat 1%nat eventId (JSON_text ok_other) otherId true EmptyString []
                    ltac:(by_running) ltac:(by_running) ltac:(by_running)
                    ltac:(by_running) ltac:(discriminate) ltac:(discriminate)
                    ltac:(by_running)))).
Defined.

Lemma challenge_during_publication_witness :
  authChallenge (this (step (Ws_message 0%nat (JSON_text challenge_c2)) publishing)) = str "c2".
Proof.
  with_socket publishing 0%nat ltac:(fun ws =>
    exact (proj1 (challenge_during_publication (host := browser)
                    publishing 0%nat ws 0%nat 0%nat "npub"
                    1%nat 1%nat eventId (JSON_text challenge_c2) "c2" []
                    ltac:(by_running) ltac:(by_running) ltac:(by_running)
                    ltac:(by_running) ltac:(by_running)))).
Defined.

Lemma other_tags_are_ignored_witness :
  step (host := talkative) (Ws_message 0%nat (JSON_text end_of_stored_events)) publishing
    = publishing /\
  step (host := talkative) (Ws_message 0%nat (JSON_text closed_advisory)) publishing
    = publishing.
Proof.
  split.
  - exact (proj2 (other_tags_are_ignored (host := talkative)
                    (JSON_text end_of_stored_events) "EOSE" [JStr "auth_trigger"]
                    ltac:(by_running) ltac:(discriminate) ltac:(discriminate))
             0%nat publishing).
  - exact (proj2 (other_tags_are_ignored (host := talkative)
                    (JSON_text closed_advisory) "CLOSED"
                    [JStr "auth_trigger"; JStr "auth-required: subscription needs auth"]
                    ltac:(by_running) ltac:(discriminate) ltac:(discriminate))
             0%nat publishing).
Defined.

Lemma close_clears_the_flag_only_witness :
  isAuthenticated (this authenticated) = true /\
  isAuthenticated (this (step (Ws_close 0%nat) authenticated)) = false /\
  relay (this (step (Ws_close 0%nat) authenticated)) = Some 0%nat.
Proof.
  split; [by_running|].
  with_socket authenticated 0%nat ltac:(fun ws =>
    destruct (close_clears_the_flag_only (host := browser)
                authenticated 0%nat ws "hello" "note-1" []
                ltac:(by_running) ltac:(vm_compute; discriminate) ltac:(by_running))
      as (Hf & Hr & _)).
  split; [exact Hf|]. rewrite Hr. by_running.
Defined.

Lemma transport_error_only_rejects_witness :
  promises (step (Ws_error 0%nat) connected) !! 0%nat = Some (Rejected TransportError) /\
  sockets (step (Ws_error 0%nat) connected) = sockets connected.
Proof.
  with_socket connected 0%nat ltac:(fun ws =>
    destruct (transport_error_only_rejects (host := browser) connected 0%nat ws 0%nat 0%nat
                ltac:(by_running) ltac:(vm_compute; discriminate)
                ltac:(by_running) ltac:(by_running))
      as (Hp & _ & Hs & _)).
  split; [exact Hp|exact Hs].
Defined.

Lemma refused_url_rejects_at_once_witness :
  promises (step (host := mistyped) (Signer_replies 0%nat (PublicKey "npub")) mistyped_called)
    !! 0%nat
    = Some (Rejected SyntaxError) /\
  sockets (step (host := mistyped) (Signer_replies 0%nat (PublicKey "npub")) mistyped_called)
    = [].
Proof.
  destruct (refused_url_rejects_at_once (host := mistyped) 0%nat "npub"
              (with_tasks (fun ts => <[0%nat := None]> ts) mistyped_called)
              ltac:(by_running) ltac:(by_running)) as (Hp & Hs & _).
  split; [exact Hp|exact Hs].
Defined.

Lemma authenticate_connects_and_triggers_witness :
  exists ws,
    sockets connected = [ws] /\
    readyState ws = OPEN /\
    sent ws = [REQ "auth_trigger" [1] 1] /\
    promises connected = [Pending].
Proof.
  destruct (authenticate_connects_and_triggers (host := browser) page "npub"
              ltac:(by_running) ltac:(by_running))
    as (Hp & _ & _ & _ & Hs).
  eexists. split; [exact Hs|]. split; [reflexivity|]. split; [reflexivity|exact Hp].
Defined.

Lemma signer_refusal_leaves_handshake_to_timer_witness :
  promises (step (Signer_replies 1%nat (Refused "denied")) signing_proof) !! 0%nat
    = Some Pending /\
  promises (step (Timer_fires 0%nat)
              (step (Signer_replies 1%nat (Refused "denied")) signing_proof)) !! 0%nat
    = Some (Rejected AuthenticationTimeout).
Proof.
  with_timer signing_proof 0%nat ltac:(fun tm =>
    destruct (signer_refusal_leaves_handshake_to_timer (host := browser) signing_proof 1%nat
                (authEvent_of "wss://relay.example" (str "c1") 1700000000123 "npub")
                "denied" 0%nat tm 0%nat
                ltac:(by_running) ltac:(by_running) ltac:(by_running)
                ltac:(by_running) ltac:(by_running) ltac:(by_running))
      as (Hp & _ & _ & _ & Ht)).
  split; [rewrite Hp; by_running|exact Ht].
Defined.

Lemma signer_refusal_rejects_publication_witness :
  promises (step (Signer_replies 2%nat (Refused "denied")) publish_called) !! 1%nat
    = Some (Rejected (SignerRejection "denied")) /\
  promises (step (Signer_replies 3%nat (Refused "denied")) signing_publication) !! 1%nat
    = Some (Rejected (SignerRejection "denied")).
Proof.
  split.
  - refine (proj1 (signer_refusal_rejects_publication (host := browser)
                     publish_called 2%nat 1%nat "denied" _ _)); [|by_running].
    left. exists "hello", "note-1", [["t"; "demo"]]. by_running.
  - refine (proj1 (signer_refusal_rejects_publication (host := browser)
                     signing_publication 3%nat 1%nat "denied" _ _)); [|by_running].
    right. exists (publishEvent_of "hello" "note-1" [["t"; "demo"]] 1700000000123 "npub").
    by_running.
Defined.

Lemma disconnect_during_signing_rejects_publication_witness :
  promises (step (Signer_replies 3%nat (Signature eventId "sig"))
              (step Call_disconnect signing_publication)) !! 1%nat
  = Some (Rejected TypeError).
Proof.
  exact (proj1 (disconnect_during_signing_rejects_publication (host := browser)
                  signing_publication 3%nat 1%nat
                  (publishEvent_of "hello" "note-1" [["t"; "demo"]] 1700000000123 "npub")
                  eventId "sig" ltac:(by_running) ltac:(by_running))).
Defined.

Lemma only_an_acceptance_authenticates_witness :
  exists s data,
    Ws_message 0%nat (JSON_text ok_proof) = Ws_message s data /\ is_acceptance data.
Proof.
  exact (only_an_acceptance_authenticates (host := browser)
           (Ws_message 0%nat (JSON_text ok_proof)) proof_sent
           ltac:(by_running) ltac:(by_running)).
Defined.

Lemma timers_carry_the_configured_delay_witness :
  exists tm, timers publishing !! 1%nat = Some tm /\ delay tm = 10000.
Proof.
  with_timer publishing 1%nat ltac:(fun tm =>
    exists tm; split; [by_running|];
    refine (proj2 (proj2 (timers_carry_the_configured_delay (host := browser)
      ([ Call_authenticate; Signer_replies 0%nat (PublicKey "npub"); Ws_open 0%nat;
         Ws_message 0%nat (JSON_text challenge_c1);
         Signer_replies 1%nat (Signature proofId "sig");
         Ws_message 0%nat (JSON_text ok_proof) ] ++ first_publish)
      true 1700000000123 1%nat tm ltac:(by_running))) (or_introl eq_refl))).
Defined.

End RelayAuthMoreWitnesses.

(** * More of the pooled-relay service *)

Module NostrAuthMore.
Import Js Nostr Eff NostrAuth NostrAuthKeeps NostrAuthFacts RelayAuthInvariants.
Local Open Scope js_scope.

Section More.

Variable config : AuthConfig.

(** ** The handshake ends at the trigger request *)

(** Once the pool has handed the relay object over, [authenticate]
    arms its timer, registers its listener for ['auth'] and then calls
    [this.relay.send], which the relay object does not have: the call
    throws inside the executor of the promise, and the handshake is
    rejected with that [TypeError] there and then.  The catch clears
    nothing: the timer stays armed and the listener registered, the service
    holds the relay object, and the flag is as it was. *)
Theorem pool_handshake_is_rejected_at_the_trigger w k promise pk :
  tasks w !! k = Some (Some (AuthenticateAwaitsRelay promise pk)) ->
  promises w !! promise = Some Pending ->
  let w' := step config (Replies k Connected) w in
  promises w' !! promise = Some (Rejected TypeError) /\
  isAuthenticated (this w') = isAuthenticated (this w) /\
  relay (this w') = Some 0%nat /\
  timers w' = timers w ++ [{| armed := true; delay := timeout_or_default config;
                              rejects := promise; reason := AuthenticationTimeout |}] /\
  exists o,
    relays w' !! 0%nat = Some o /\
    closed o = false /\
    on_auth o = match relays w !! 0%nat with
                | Some before => on_auth before
                | None => []
                end ++ [OnAuth promise (length (timers w)) pk].
Proof.
  intros Hk Hp w'. subst w'.
  rewrite (pool_step_reply config k _ Connected _ w Hk eq_refl).
  unfold authenticate_listen, ensureRelay, setTimeout, relay_on_auth, relay_send,
    this_relay, reject, bind, try_catch, modify, throw.
  simpl. destruct (relays w) as [|o rest] eqn:Hrel; simpl;
    (rewrite pool_settle_lookup by (simpl; assumption));
    match goal with |- context [settle ?q ?st ?w0] =>
      destruct (pool_settle_frame q st w0) as (-> & -> & -> & _) end;
    simpl; repeat split; rewrite ?Hrel; eexists; repeat split.
Qed.

(** ** The service is never authenticated *)

Lemma unauthenticated_kept_refl w : unauthenticated_kept w w.
Proof. intros H. exact H. Qed.

Lemma unauthenticated_kept_trans a b c :
  unauthenticated_kept a b -> unauthenticated_kept b c -> unauthenticated_kept a c.
Proof. unfold unauthenticated_kept. auto. Qed.

Lemma unauthenticated_same w w' :
  isAuthenticated (this w') = isAuthenticated (this w) -> promises w' = promises w ->
  unauthenticated_kept w w'.
Proof. intros Hf Hp (H1 & H2). split; [congruence|]. now rewrite Hp. Qed.

Lemma unauthenticated_reject p e : respects unauthenticated_kept (reject p e).
Proof.
  intros w (H1 & H2). unfold reject.
  destruct (pool_settle_frame p (Rejected e) w) as (Hthis & _).
  split; [now rewrite Hthis|].
  intros q v. destruct (decide (p = q)) as [<-|Hne].
  - unfold settle. destruct (promises w !! p) as [[]|] eqn:Hp; simpl; try apply H2.
    rewrite list_lookup_insert_eq by (now apply lookup_lt_Some in Hp). discriminate.
  - rewrite pool_settle_other by assumption. apply H2.
Qed.

Lemma unauthenticated_new_Promise : respects unauthenticated_kept new_Promise.
Proof.
  intros w (H1 & H2). split; [exact H1|]. intros p v. simpl. intros Hp.
  apply lookup_app_Some in Hp as [Hp|[_ Hp]]; [exact (H2 _ _ Hp)|].
  destruct (p - length (promises w))%nat; simpl in Hp; [discriminate|].
  now rewrite lookup_nil in Hp.
Qed.

Lemma unauthenticated_setTimeout p e ms : respects unauthenticated_kept (setTimeout p e ms).
Proof. intros w. now apply unauthenticated_same. Qed.

Lemma unauthenticated_clearTimeout t : respects unauthenticated_kept (clearTimeout t).
Proof. intros w. now apply unauthenticated_same. Qed.

Lemma unauthenticated_suspend k : respects unauthenticated_kept (suspend k).
Proof. intros w. now apply unauthenticated_same. Qed.

Lemma unauthenticated_this_relay : respects unauthenticated_kept this_relay.
Proof.
  intros w. apply unauthenticated_same; unfold this_relay; now destruct (relay (this w)).
Qed.

Lemma unauthenticated_ensureRelay : respects unauthenticated_kept ensureRelay.
Proof.
  intros w. apply unauthenticated_same; unfold ensureRelay; now destruct (relays w).
Qed.

Lemma unauthenticated_with_relays f w : unauthenticated_kept w (with_relays f w).
Proof. now apply unauthenticated_same. Qed.

Lemma unauthenticated_with_tasks f w : unauthenticated_kept w (with_tasks f w).
Proof. now apply unauthenticated_same. Qed.

Lemma unauthenticated_set_relay r w : unauthenticated_kept w (with_this (set_relay r) w).
Proof. now apply unauthenticated_same. Qed.

Lemma unauthenticated_clear_flag w :
  unauthenticated_kept w (with_this (set_isAuthenticated false) w).
Proof. intros (_ & H2). now split. Qed.

Create HintDb unauthenticated discriminated.
#[local] Hint Resolve unauthenticated_reject unauthenticated_new_Promise
  unauthenticated_setTimeout unauthenticated_clearTimeout unauthenticated_suspend
  unauthenticated_this_relay unauthenticated_ensureRelay : unauthenticated.

Ltac unauthenticated_leaf :=
  first
    [ solve [auto with unauthenticated]
    | apply respects_modify; intro;
      first [ apply unauthenticated_with_relays
            | apply unauthenticated_set_relay
            | apply unauthenticated_clear_flag ] ].

Ltac unauthenticated_auto :=
  repeat first [ unauthenticated_leaf
               | respects_combinator unauthenticated_kept_refl unauthenticated_kept_trans ].

Lemma unauthenticated_relay_on_auth l : respects unauthenticated_kept (relay_on_auth l).
Proof. unfold relay_on_auth. unauthenticated_auto. Qed.

Lemma unauthenticated_relay_on_ok l : respects unauthenticated_kept (relay_on_ok l).
Proof. unfold relay_on_ok. unauthenticated_auto. Qed.

Lemma unauthenticated_relay_send f : respects unauthenticated_kept (relay_send f).
Proof. unfold relay_send. unauthenticated_auto. Qed.

#[local] Hint Resolve unauthenticated_relay_on_auth unauthenticated_relay_on_ok
  unauthenticated_relay_send : unauthenticated.

Lemma unauthenticated_getNip07Signer : respects unauthenticated_kept getNip07Signer.
Proof. unfold getNip07Signer. unauthenticated_auto. Qed.

Lemma unauthenticated_signEvent k : respects unauthenticated_kept (signEvent k).
Proof. unfold signEvent. unauthenticated_auto. Qed.

#[local] Hint Resolve unauthenticated_getNip07Signer unauthenticated_signEvent
  : unauthenticated.

Lemma unauthenticated_onAuth promise timer pk challenge :
  respects unauthenticated_kept (onAuth config promise timer pk challenge).
Proof. unfold onAuth, Date_now. unauthenticated_auto. Qed.

Lemma unauthenticated_onAuth_signed promise timer signedAuthEvent :
  respects unauthenticated_kept (onAuth_signed promise timer signedAuthEvent).
Proof. unfold onAuth_signed. unauthenticated_auto. Qed.

Lemma unauthenticated_authenticate : respects unauthenticated_kept authenticate.
Proof. unfold authenticate. unauthenticated_auto. Qed.

Lemma unauthenticated_authenticate_listen promise pk :
  respects unauthenticated_kept (authenticate_listen config promise pk).
Proof. unfold authenticate_listen. unauthenticated_auto. Qed.

Lemma unauthenticated_publishKind30078Event text dTag additionalTags :
  respects unauthenticated_kept (publishKind30078Event text dTag additionalTags).
Proof. unfold publishKind30078Event. unauthenticated_auto. Qed.

Lemma unauthenticated_publish_build promise text dTag additionalTags pk :
  respects unauthenticated_kept (publish_build promise text dTag additionalTags pk).
Proof. unfold publish_build, Date_now. unauthenticated_auto. Qed.

Lemma unauthenticated_publish_send promise signedEvent :
  respects unauthenticated_kept (publish_send config promise signedEvent).
Proof. unfold publish_send. unauthenticated_auto. Qed.

Lemma unauthenticated_disconnect : respects unauthenticated_kept disconnect.
Proof. unfold disconnect, pool_close. unauthenticated_auto. Qed.

Lemma unauthenticated_emit {L} (call : L -> M unit) (ls : list L) :
  (forall l, respects unauthenticated_kept (call l)) ->
  respects unauthenticated_kept (emit call ls).
Proof. intros Hc. induction ls as [|l rest IH]; simpl; unauthenticated_auto; auto. Qed.

Lemma unauthenticated_resume t reply continuation :
  resume config t reply = Some continuation -> respects unauthenticated_kept continuation.
Proof.
  destruct t, reply; simpl; intros [= <-];
    auto using unauthenticated_authenticate_listen, unauthenticated_onAuth_signed,
      unauthenticated_publish_build, unauthenticated_publish_send;
    unauthenticated_auto.
Qed.

Lemma unauthenticated_step (i : Input) (w : World) :
  unauthenticated_kept w (step config i w).
Proof.
  unfold step.
  destruct i as [ | text dTag additionalTags | | r challenge | t | k reply ]; simpl.
  - apply (respects_bind unauthenticated_kept unauthenticated_kept_trans);
      [apply unauthenticated_authenticate
      |intro; apply respects_ret, unauthenticated_kept_refl].
  - apply (respects_bind unauthenticated_kept unauthenticated_kept_trans);
      [apply unauthenticated_publishKind30078Event
      |intro; apply respects_ret, unauthenticated_kept_refl].
  - apply unauthenticated_disconnect.
  - destruct (relays w !! r) as [o|]; [|apply unauthenticated_kept_refl].
    destruct (closed o); [apply unauthenticated_kept_refl|].
    apply unauthenticated_emit. intros [promise timer pk]. apply unauthenticated_onAuth.
  - destruct (timers w !! t) as [tm|]; [|apply unauthenticated_kept_refl].
    destruct (armed tm); [|apply unauthenticated_kept_refl].
    assert (H : respects unauthenticated_kept
                  (clearTimeout t ;; reject (rejects tm) (reason tm)))
      by unauthenticated_auto.
    apply H.
  - destruct (tasks w !! k) as [[task|]|]; try apply unauthenticated_kept_refl.
    destruct (resume config task reply) as [continuation|] eqn:Hres;
      [|apply unauthenticated_kept_refl].
    eapply unauthenticated_kept_trans;
      [apply (unauthenticated_with_tasks (fun ts => <[k := None]> ts))|].
    apply (unauthenticated_resume _ _ _ Hres).
Qed.

Lemma unauthenticated_run (inputs : list Input) (w : World) :
  unauthenticated w -> unauthenticated (run config inputs w).
Proof.
  unfold run. revert w. induction inputs as [|i rest IH]; intros w Hw; simpl.
  - exact Hw.
  - apply IH. now apply unauthenticated_step.
Qed.

Lemma unauthenticated_new nostr now : unauthenticated (new_world nostr now).
Proof. split; [reflexivity|]. intros p v. simpl. now rewrite lookup_nil. Qed.

(** Whatever is called and whatever the relay, the signer and the
    timers do, from a new service on: the flag is never raised and no
    promise of [authenticate] or [publishKind30078Event] is ever fulfilled,
    since the only statements that would do either sit in the listeners for
    ['ok'], which are never stored.  A publication is therefore refused in
    every state the service reaches. *)
Theorem pool_never_authenticates (inputs : list Input) nostr now :
  let w := run config inputs (new_world nostr now) in
  isAuthenticated (this w) = false /\
  (forall p v, promises w !! p <> Some (Fulfilled v)) /\
  (forall text dTag additionalTags,
     exists p w',
       publishKind30078Event text dTag additionalTags w = (Normal p, w') /\
       promises w' !! p = Some (Rejected NotAuthenticated) /\
       relays w' = relays w /\
       tasks w' = tasks w).
Proof.
  intros w.
  destruct (unauthenticated_run inputs _ (unauthenticated_new nostr now)) as (Hf & Hp).
  split; [exact Hf|]. split; [exact Hp|].
  intros text dTag additionalTags.
  destruct (pool_publish_requires_authentication w text dTag additionalTags
              (or_introl Hf)) as (p & w' & Hcall & _ & Hrej & Hrel & Htasks & _).
  exists p, w'. now repeat split.
Qed.

End More.

Ltac by_running := vm_compute; reflexivity.

Lemma pool_handshake_is_rejected_at_the_trigger_witness :
  promises triggered !! 0%nat = Some (Rejected TypeError) /\
  isAuthenticated (this triggered) = false.
Proof.
  destruct (pool_handshake_is_rejected_at_the_trigger relay_example
              (run relay_example
                 [Call_authenticate; Replies 0%nat (PublicKey "npub")]
                 (new_world true 1700000000123))
              1%nat 0%nat "npub" ltac:(by_running) ltac:(by_running))
    as (Hp & _).
  split; [exact Hp|by_running].
Defined.

End NostrAuthMore.

(** * Properties of the state holder *)

Module UseNostrAuthFacts.
Import Js Nostr Eff UseNostrAuth RelayAuthInvariants.
Local Open Scope js_scope.

Ltac unfold_holder :=
  unfold bind, ret, throw, lift, gets, modify, try_catch in *.

Section Facts.

Variable options : UseNostrAuthOptions.
Variable HIVETALK_RELAYS : option string.
Variable message_of : Exn -> option string.

Local Abbreviation step := (step options HIVETALK_RELAYS message_of).
Local Abbreviation run := (run options HIVETALK_RELAYS message_of).
Local Abbreviation config := (config options HIVETALK_RELAYS).

(** ** The calls of the service never throw: they hand back a promise *)

Lemma pool_authenticate_returns s :
  fst (NostrAuth.authenticate s) = Normal (length (NostrAuth.promises s)).
Proof.
  unfold NostrAuth.authenticate, NostrAuth.getNip07Signer, NostrAuth.new_Promise,
    NostrAuth.suspend, NostrAuth.reject. unfold_holder. simpl.
  destruct (NostrAuth.window_nostr s); simpl; [reflexivity|].
  match goal with |- context [NostrAuth.settle ?p ?st ?w0] =>
    pose proof (NostrAuthFacts.pool_settle_normal p st w0) as Hn;
    destruct (NostrAuth.settle p st w0) as [c w1]; simpl in *; now subst c end.
Qed.

Lemma pool_publish_returns text dTag additionalTags s :
  fst (NostrAuth.publishKind30078Event text dTag additionalTags s)
  = Normal (length (NostrAuth.promises s)).
Proof.
  unfold NostrAuth.publishKind30078Event, NostrAuth.getNip07Signer, NostrAuth.new_Promise,
    NostrAuth.suspend, NostrAuth.reject. unfold_holder. simpl.
  destruct (negb (NostrAuth.isAuthenticated (NostrAuth.this s))
            || negb (bool_decide (is_Some (NostrAuth.relay (NostrAuth.this s))))); simpl.
  - match goal with |- context [NostrAuth.settle ?p ?st ?w0] =>
      pose proof (NostrAuthFacts.pool_settle_normal p st w0) as Hn;
      destruct (NostrAuth.settle p st w0) as [c w1]; simpl in *; now subst c end.
  - destruct (NostrAuth.window_nostr s); simpl; [reflexivity|].
    match goal with |- context [NostrAuth.settle ?p ?st ?w0] =>
      pose proof (NostrAuthFacts.pool_settle_normal p st w0) as Hn;
      destruct (NostrAuth.settle p st w0) as [c w1]; simpl in *; now subst c end.
Qed.

Lemma pool_disconnect_returns s : fst (NostrAuth.disconnect s) = Normal tt.
Proof.
  destruct (NostrAuthFacts.pool_disconnect_idempotent s) as (s' & -> & _). reflexivity.
Qed.

(** ** The pieces *)

Lemma finish_fresh (o : Outcome) (w : World) (rs : list Outcome) :
  returned w = rs ++ [Running] ->
  finish (length rs) o w =
  (Normal tt,
   {| service := service w; state := state w; listeners := listeners w;
      calls := calls w; returned := rs ++ [o]; tasks := tasks w |}).
Proof.
  intros H. unfold finish. rewrite H, RelayAuthFacts.lookup_fresh.
  unfold with_returned. now rewrite H, RelayAuthFacts.insert_fresh.
Qed.

Lemma finish_running result (o : Outcome) (w : World) :
  returned w !! result = Some Running ->
  finish result o w =
  (Normal tt,
   {| service := service w; state := state w; listeners := listeners w;
      calls := calls w; returned := <[result := o]> (returned w); tasks := tasks w |}).
Proof. intros H. unfold finish. now rewrite H. Qed.

Lemma holder_step_continues k t continuation w :
  tasks w !! k = Some (Some t) -> resume message_of t (service w) = Some continuation ->
  step (Continues k) w
  = snd (continuation (with_tasks (fun ts => <[k := None]> ts) w)).
Proof. intros Hk Hr. unfold UseNostrAuth.step. simpl. now rewrite Hk, Hr. Qed.

(** ** The guards *)

(** Without the extension [authenticate] resolves with [false] at once:
    the error is set to ['NIP-07 extension not found'], every listener is
    told, and the service is not called. *)
Theorem holder_authenticate_needs_the_extension w :
  NostrAuth.window_nostr (service w) = false ->
  let w' := step Call_authenticate w in
  service w' = service w /\
  state w' = assign (state w) (Set_error (Some "NIP-07 extension not found")) /\
  returned w' = returned w ++ [Returns (Some (JBool false))] /\
  calls w' = calls w ++ map (fun l => (l, state w')) (listeners w) /\
  listeners w' = listeners w /\
  tasks w' = tasks w.
Proof.
  intros Hn w'. subst w'. unfold UseNostrAuth.step, react, authenticate, isNip07Available,
    new_result, updateState. unfold_holder. simpl. rewrite Hn. simpl.
  rewrite (finish_fresh _ _ (returned w)) by reflexivity. simpl. repeat split; reflexivity.
Qed.

(** [publishEvent] looks at the holder's own flag: while it is not
    set, the call resolves with [null] at once, the error is set to ['Must
    authenticate first'], and the service is not called, whatever the
    service's own flag says. *)
Theorem holder_publish_needs_its_own_flag w text dTag additionalTags :
  isAuthenticated (state w) = false ->
  let w' := step (Call_publishEvent text dTag additionalTags) w in
  service w' = service w /\
  state w' = assign (state w) (Set_error (Some "Must authenticate first")) /\
  returned w' = returned w ++ [Returns null] /\
  calls w' = calls w ++ map (fun l => (l, state w')) (listeners w) /\
  listeners w' = listeners w /\
  tasks w' = tasks w.
Proof.
  intros Hn w'. subst w'. unfold UseNostrAuth.step, react, publishEvent,
    new_result, updateState. unfold_holder. simpl. rewrite Hn. simpl.
  rewrite (finish_fresh _ _ (returned w)) by reflexivity. simpl.
  repeat split; rewrite ?Hn; reflexivity.
Qed.

(** ** What the holder makes of the service's outcome *)

(** When the promise of the service's [authenticate] has settled, the
    holder's [authenticate] resolves, never rejects: with the service's
    value when it fulfilled, with [false] when it rejected.  The state
    becomes: not connecting; authenticated as that value says; the error
    the rejection's message (or ['Authentication failed'] for a falsy
    value); and every listener is told once. *)
Theorem holder_authenticate_reports_the_outcome w k result promise p :
  tasks w !! k = Some (Some (AuthenticateAwaits result promise)) ->
  NostrAuth.promises (service w) !! promise = Some p -> p <> Pending ->
  returned w !! result = Some Running ->
  let w' := step (Continues k) w in
  returned w' !! result
    = Some (Returns (Some (match p with Fulfilled v => v | _ => JBool false end))) /\
  state w'
    = {| isAuthenticated := match p with Fulfilled v => truthy (Some v) | _ => false end;
         isConnecting := false;
         error := match p with
                  | Fulfilled v =>
                      if truthy (Some v) then None else Some "Authentication failed"
                  | Rejected e =>
                      Some (error_message message_of e "Unknown authentication error")
                  | Pending => None
                  end;
         eventId := eventId (state w) |} /\
  service w' = service w /\
  listeners w' = listeners w /\
  calls w' = calls w ++ map (fun l => (l, state w')) (listeners w).
Proof.
  intros Hk Hp Hs Hr w'. subst w'.
  destruct p as [|v|e]; [congruence| |].
  - rewrite (holder_step_continues k _ _ w Hk
               ltac:(simpl; rewrite Hp; reflexivity)).
    unfold updateState. unfold_holder. simpl.
    rewrite finish_running by assumption. simpl.
    rewrite list_lookup_insert_eq by (now apply lookup_lt_Some in Hr). repeat split; reflexivity.
  - rewrite (holder_step_continues k _ _ w Hk
               ltac:(simpl; rewrite Hp; reflexivity)).
    unfold authenticate_failed, updateState. unfold_holder. simpl.
    rewrite finish_running by assumption. simpl.
    rewrite list_lookup_insert_eq by (now apply lookup_lt_Some in Hr). repeat split; reflexivity.
Qed.

(** A failed handshake is shown by the UI manager, unless the message
    of the rejection is empty: the status element gets the error class and
    the message, the authenticate button is enabled and visible, and the
    publish section hidden.  With an empty message the status reads as if
    nothing had happened. *)
Theorem holder_failure_is_shown_unless_its_message_is_empty w k result promise e :
  tasks w !! k = Some (Some (AuthenticateAwaits result promise)) ->
  NostrAuth.promises (service w) !! promise = Some (Rejected e) ->
  let w' := step (Continues k) w in
  let message := error_message message_of e "Unknown authentication error" in
  error (state w') = Some message /\
  statusElement_className (render (state w'))
    = (if String.eqb message EmptyString then "status info" else "status error") /\
  statusElement_textContent (render (state w'))
    = (if String.eqb message EmptyString then "Ready to authenticate"
       else "❌ " +:+ message) /\
  authButton_disabled (render (state w')) = false /\
  authButton_display (render (state w')) = "inline-block" /\
  publishSection_display (render (state w')) = "none" /\
  disconnectButton_display (render (state w')) = "none".
Proof.
  intros Hk Hp w' message. subst w'.
  rewrite (holder_step_continues k _ _ w Hk ltac:(simpl; rewrite Hp; reflexivity)).
  unfold authenticate_failed, updateState, finish. unfold_holder. simpl.
  fold message.
  destruct (returned w !! result) as [[]|]; simpl; unfold render, status; simpl;
    fold message; destruct (String.eqb message EmptyString); repeat split; reflexivity.
Qed.

(** ** The constructor *)

(** The service the holder builds never falls back on its own default
    of 10000: its delay is the option given, or 15000 when that is missing
    or 0.  Its relay URL is never empty. *)
Theorem holder_never_uses_the_service_default :
  timeout_or_default config
    = match timeout options with
      | Some t => if t =? 0 then 15000 else t
      | None => 15000
      end /\
  Nostr.relayUrl config <> EmptyString.
Proof.
  split.
  - unfold timeout_or_default. simpl. destruct (timeout options) as [t|]; [|reflexivity].
    destruct (t =? 0) eqn:E; [reflexivity|]. now rewrite E.
  - simpl. unfold or_else.
    destruct (relayUrl options) as [u|].
    + destruct (String.eqb_spec u EmptyString) as [_|Hu]; [|exact Hu].
      destruct HIVETALK_RELAYS as [v|]; [|discriminate].
      destruct (String.eqb_spec v EmptyString) as [_|Hv]; [discriminate|exact Hv].
    + destruct HIVETALK_RELAYS as [v|]; [|discriminate].
      destruct (String.eqb_spec v EmptyString) as [_|Hv]; [discriminate|exact Hv].
Qed.

(** ** Disconnecting *)


(** ** What no run of the holder does *)

Lemma finish_view result (o : Outcome) (w : World) :
  fst (finish result o w) = Normal tt /\
  service (snd (finish result o w)) = service w /\
  state (snd (finish result o w)) = state w /\
  listeners (snd (finish result o w)) = listeners w /\
  calls (snd (finish result o w)) = calls w /\
  tasks (snd (finish result o w)) = tasks w.
Proof. unfold finish. now destruct (returned w !! result) as [[]|]. Qed.

Lemma on_service_view {A} (m : NostrAuth.M A) (w : World) :
  state (snd (on_service m w)) = state w /\
  listeners (snd (on_service m w)) = listeners w /\
  calls (snd (on_service m w)) = calls w /\
  returned (snd (on_service m w)) = returned w /\
  tasks (snd (on_service m w)) = tasks w.
Proof. unfold on_service. now destruct (m (service w)). Qed.

(** *** A listener that is not subscribed is not called *)

Section Quiet.

Variable listener : nat.

Lemma quiet_refl w : stays_quiet listener w w.
Proof. intros H. now split. Qed.

Lemma quiet_trans a b c :
  stays_quiet listener a b -> stays_quiet listener b c -> stays_quiet listener a c.
Proof.
  intros Hab Hbc H. destruct (Hab H) as (H1 & E1). destruct (Hbc H1) as (H2 & E2).
  split; [assumption|congruence].
Qed.

Lemma quiet_same w w' :
  listeners w' = listeners w -> calls w' = calls w -> stays_quiet listener w w'.
Proof. intros Hl Hc H. unfold calls_to. rewrite Hl, Hc. now split. Qed.

Lemma no_call_among (s : NostrAuthState) (ls : list nat) :
  listener ∉ ls ->
  filter (fun c : nat * NostrAuthState => fst c = listener) (map (fun l => (l, s)) ls) = [].
Proof.
  induction ls as [|l rest IH]; intros H; [reflexivity|].
  apply not_elem_of_cons in H as [Hne Hrest]. simpl.
  rewrite filter_cons_False by (simpl; congruence). now apply IH.
Qed.

Lemma quiet_new_result : respects (stays_quiet listener) new_result.
Proof. intros w. now apply quiet_same. Qed.

Lemma quiet_finish result o : respects (stays_quiet listener) (finish result o).
Proof.
  intros w. destruct (finish_view result o w) as (_ & _ & _ & Hl & Hc & _).
  now apply quiet_same.
Qed.

Lemma quiet_suspend k : respects (stays_quiet listener) (suspend k).
Proof. intros w. now apply quiet_same. Qed.

Lemma quiet_on_service {A} (m : NostrAuth.M A) : respects (stays_quiet listener) (on_service m).
Proof.
  intros w. destruct (on_service_view m w) as (_ & Hl & Hc & _). now apply quiet_same.
Qed.

Lemma quiet_updateState updates : respects (stays_quiet listener) (updateState updates).
Proof.
  intros w H. simpl. split; [assumption|].
  unfold calls_to. simpl. rewrite filter_app, no_call_among by assumption.
  now rewrite app_nil_r.
Qed.

Lemma quiet_subscribe l : l <> listener -> respects (stays_quiet listener) (subscribe l).
Proof.
  intros Hne w H. simpl. split.
  - destruct (bool_decide (l ∈ listeners w)); [assumption|].
    rewrite elem_of_app, list_elem_of_singleton. intros [?|?]; [contradiction|congruence].
  - unfold calls_to. simpl. rewrite filter_app.
    rewrite filter_cons_False by (simpl; congruence). simpl. now rewrite app_nil_r.
Qed.

Lemma quiet_unsubscribe l : respects (stays_quiet listener) (unsubscribe l).
Proof.
  intros w H. simpl. split; [|reflexivity].
  rewrite list_elem_of_filter. tauto.
Qed.

Create HintDb quiet discriminated.
#[local] Hint Resolve quiet_new_result quiet_finish quiet_suspend quiet_on_service
  quiet_updateState quiet_unsubscribe : quiet.

Ltac quiet_auto :=
  repeat first [ solve [auto with quiet]
               | respects_combinator quiet_refl quiet_trans ].

Lemma quiet_authenticate_failed result e :
  respects (stays_quiet listener) (authenticate_failed message_of result e).
Proof. unfold authenticate_failed. quiet_auto. Qed.

Lemma quiet_publish_failed result e :
  respects (stays_quiet listener) (publish_failed message_of result e).
Proof. unfold publish_failed. quiet_auto. Qed.

#[local] Hint Resolve quiet_authenticate_failed quiet_publish_failed : quiet.

Lemma quiet_authenticate : respects (stays_quiet listener) (authenticate message_of).
Proof. unfold authenticate, isNip07Available. quiet_auto. Qed.

Lemma quiet_publishEvent text dTag additionalTags :
  respects (stays_quiet listener) (publishEvent message_of text dTag additionalTags).
Proof. unfold publishEvent. quiet_auto. Qed.

Lemma quiet_disconnect : respects (stays_quiet listener) disconnect.
Proof. unfold disconnect. quiet_auto. Qed.

Lemma quiet_resume t s continuation :
  resume message_of t s = Some continuation -> respects (stays_quiet listener) continuation.
Proof.
  destruct t as [result promise|result promise|result]; simpl.
  - destruct (NostrAuth.promises s !! promise) as [[|v|e]|]; simpl; intros [= <-]; quiet_auto.
  - destruct (NostrAuth.promises s !! promise) as [[|v|e]|]; simpl; intros [= <-]; quiet_auto.
  - intros [= <-]. unfold disconnect_settled. quiet_auto.
Qed.

Lemma quiet_step (i : Input) (w : World) :
  i <> Call_subscribe listener -> stays_quiet listener w (step i w).
Proof.
  intros Hi. unfold UseNostrAuth.step.
  destruct i as [ l | l | | text dTag additionalTags | | | i | k ]; simpl.
  - apply quiet_subscribe. congruence.
  - apply quiet_unsubscribe.
  - assert (H : respects (stays_quiet listener) (_ <- authenticate message_of ;; ret tt))
      by (pose proof quiet_authenticate; quiet_auto).
    apply H.
  - assert (H : respects (stays_quiet listener)
                  (_ <- publishEvent message_of text dTag additionalTags ;; ret tt))
      by (pose proof (quiet_publishEvent text dTag additionalTags); quiet_auto).
    apply H.
  - assert (H : respects (stays_quiet listener) (_ <- disconnect ;; ret tt))
      by (pose proof quiet_disconnect; quiet_auto).
    apply H.
  - assert (H : respects (stays_quiet listener)
                  (if autoConnect options then
                     present <- gets (fun w => NostrAuth.window_nostr (service w)) ;;
                     if present then _ <- authenticate message_of ;; ret tt else ret tt
                   else ret tt))
      by (pose proof quiet_authenticate; quiet_auto).
    apply H.
  - now apply quiet_same.
  - destruct (tasks w !! k) as [[t|]|]; try apply quiet_refl.
    destruct (resume message_of t (service w)) as [continuation|] eqn:Hres;
      [|apply quiet_refl].
    eapply quiet_trans; [|apply (quiet_resume _ _ _ Hres)].
    now apply quiet_same.
Qed.

End Quiet.

(** A listener that is not subscribed, because it never was or because
    the function [subscribe] returned has been called, is not called by
    anything the holder does, and nothing subscribes it but [subscribe]
    itself. *)
Theorem holder_unsubscribed_listener_is_never_called listener inputs w :
  listener ∉ listeners w -> Call_subscribe listener ∉ inputs ->
  (listener ∉ listeners (run inputs w)) /\
  calls_to listener (run inputs w) = calls_to listener w.
Proof.
  unfold UseNostrAuth.run. revert w.
  induction inputs as [|i rest IH]; intros w Hl Hin; simpl; [now split|].
  apply not_elem_of_cons in Hin as [Hi Hrest].
  destruct (quiet_step listener i w ltac:(congruence) Hl) as (Hl1 & Hc1).
  destruct (IH _ Hl1 Hrest) as (Hl2 & Hc2).
  split; [assumption|congruence].
Qed.

(** *** No method rejects *)

Lemma rejected_kept_refl w : rejected_kept w w.
Proof. intros H. exact H. Qed.

Lemma rejected_kept_trans a b c :
  rejected_kept a b -> rejected_kept b c -> rejected_kept a c.
Proof. unfold rejected_kept. auto. Qed.

Lemma rejected_same w w' : returned w' = returned w -> rejected_kept w w'.
Proof. intros He H result e. rewrite He. apply H. Qed.

Lemma rejected_new_result : respects rejected_kept new_result.
Proof.
  intros w H result e. simpl. intros Hr.
  apply lookup_app_Some in Hr as [Hr|[_ Hr]]; [exact (H _ _ Hr)|].
  destruct (result - length (returned w))%nat; simpl in Hr; [discriminate|].
  now rewrite lookup_nil in Hr.
Qed.

Lemma rejected_finish result v : respects rejected_kept (finish result (Returns v)).
Proof.
  intros w H r e. unfold finish.
  destruct (returned w !! result) as [[]|] eqn:Hres; simpl; try apply H.
  destruct (decide (result = r)) as [<-|Hne].
  - rewrite list_lookup_insert_eq by (now apply lookup_lt_Some in Hres). discriminate.
  - rewrite list_lookup_insert_ne by assumption. apply H.
Qed.

Lemma rejected_suspend k : respects rejected_kept (suspend k).
Proof. intros w. now apply rejected_same. Qed.

Lemma rejected_on_service {A} (m : NostrAuth.M A) : respects rejected_kept (on_service m).
Proof.
  intros w. destruct (on_service_view m w) as (_ & _ & _ & Hr & _). now apply rejected_same.
Qed.

Lemma rejected_updateState updates : respects rejected_kept (updateState updates).
Proof. intros w. now apply rejected_same. Qed.

Create HintDb rejected discriminated.
#[local] Hint Resolve rejected_new_result rejected_finish rejected_suspend
  rejected_on_service rejected_updateState : rejected.

Ltac rejected_auto :=
  repeat first [ solve [auto with rejected]
               | respects_combinator rejected_kept_refl rejected_kept_trans ].

Lemma rejected_authenticate : respects rejected_kept (authenticate message_of).
Proof. unfold authenticate, authenticate_failed, isNip07Available. rejected_auto. Qed.

Lemma rejected_publishEvent text dTag additionalTags :
  respects rejected_kept (publishEvent message_of text dTag additionalTags).
Proof. unfold publishEvent, publish_failed. rejected_auto. Qed.

(** The service's [disconnect] does not throw, so the holder's never
    rejects. *)
Lemma rejected_disconnect : respects rejected_kept disconnect.
Proof.
  intros w.
  assert (H : snd (disconnect w)
              = snd ((result <- new_result ;;
                      on_service NostrAuth.disconnect ;;
                      _ <- suspend (DisconnectAwaits result) ;;
                      ret result) w)).
  { unfold disconnect, on_service, new_result, suspend. unfold_holder. simpl.
    pose proof (pool_disconnect_returns (service w)) as Hn.
    destruct (NostrAuth.disconnect (service w)) as [c s']. simpl in Hn. now subst c. }
  rewrite H.
  assert (K : respects rejected_kept
                (result <- new_result ;;
                 on_service NostrAuth.disconnect ;;
                 _ <- suspend (DisconnectAwaits result) ;;
                 ret result)) by rejected_auto.
  apply K.
Qed.

Lemma rejected_resume t s continuation :
  resume message_of t s = Some continuation -> respects rejected_kept continuation.
Proof.
  destruct t as [result promise|result promise|result]; simpl.
  - destruct (NostrAuth.promises s !! promise) as [[|v|e]|]; simpl; intros [= <-];
      unfold authenticate_failed; rejected_auto.
  - destruct (NostrAuth.promises s !! promise) as [[|v|e]|]; simpl; intros [= <-];
      unfold publish_failed; rejected_auto.
  - intros [= <-]. unfold disconnect_settled. rejected_auto.
Qed.

Lemma rejected_step (i : Input) (w : World) : rejected_kept w (step i w).
Proof.
  unfold UseNostrAuth.step.
  destruct i as [ l | l | | text dTag additionalTags | | | i | k ]; simpl.
  - now apply rejected_same.
  - now apply rejected_same.
  - assert (H : respects rejected_kept (_ <- authenticate message_of ;; ret tt))
      by (pose proof rejected_authenticate; rejected_auto).
    apply H.
  - assert (H : respects rejected_kept
                  (_ <- publishEvent message_of text dTag additionalTags ;; ret tt))
      by (pose proof (rejected_publishEvent text dTag additionalTags); rejected_auto).
    apply H.
  - assert (H : respects rejected_kept (_ <- disconnect ;; ret tt))
      by (pose proof rejected_disconnect; rejected_auto).
    apply H.
  - assert (H : respects rejected_kept
                  (if autoConnect options then
                     present <- gets (fun w => NostrAuth.window_nostr (service w)) ;;
                     if present then _ <- authenticate message_of ;; ret tt else ret tt
                   else ret tt))
      by (pose proof rejected_authenticate; rejected_auto).
    apply H.
  - now apply rejected_same.
  - destruct (tasks w !! k) as [[t|]|]; try apply rejected_kept_refl.
    destruct (resume message_of t (service w)) as [continuation|] eqn:Hres;
      [|apply rejected_kept_refl].
    eapply rejected_kept_trans; [|apply (rejected_resume _ _ _ Hres)].
    now apply rejected_same.
Qed.

(** No call of [authenticate], [publishEvent] or [disconnect] ever ends
    in a rejection, whatever the service, the relay, the signer and the
    timers do: a failure is an error in the state and a [false] or [null]
    result. *)
Theorem holder_methods_never_reject inputs nostr now result e :
  returned (run inputs (new_UseNostrAuth nostr now)) !! result <> Some (Throws e).
Proof.
  assert (H : forall w, none_rejected w -> none_rejected (run inputs w)).
  { unfold UseNostrAuth.run. induction inputs as [|i rest IH]; intros w Hw; simpl.
    - exact Hw.
    - apply IH. now apply rejected_step. }
  apply H. intros r e'. simpl. now rewrite lookup_nil.
Qed.

(** *** No state change goes unannounced *)

Ltac run_finish :=
  match goal with
  | |- context [finish ?r ?o ?w0] =>
      let Hfn := fresh "Hfn" in
      let Hfs := fresh "Hfs" in
      let Hfl := fresh "Hfl" in
      let Hfc := fresh "Hfc" in
      let c := fresh "c" in
      let wf := fresh "wf" in
      destruct (finish_view r o w0) as (Hfn & _ & Hfs & Hfl & Hfc & _);
      destruct (finish r o w0) as [c wf];
      simpl in Hfn, Hfs, Hfl, Hfc; subst c; simpl;
      right; split; [rewrite Hfl|rewrite Hfc, Hfs]; reflexivity
  end.

Lemma authenticate_announces w :
  state (snd (authenticate message_of w)) = state w \/
  announced w (snd (authenticate message_of w)).
Proof.
  unfold authenticate, isNip07Available, new_result, updateState, suspend.
  unfold_holder. simpl.
  destruct (NostrAuth.window_nostr (service w)); simpl; [|run_finish].
  unfold on_service. simpl.
  pose proof (pool_authenticate_returns (service w)) as Hn.
  destruct (NostrAuth.authenticate (service w)) as [c s']. simpl in Hn. subst c. simpl.
  right. split; reflexivity.
Qed.

Lemma publishEvent_announces text dTag additionalTags w :
  state (snd (publishEvent message_of text dTag additionalTags w)) = state w \/
  announced w (snd (publishEvent message_of text dTag additionalTags w)).
Proof.
  unfold publishEvent, new_result, updateState, suspend.
  unfold_holder. simpl.
  destruct (isAuthenticated (state w)); simpl; [|run_finish].
  unfold on_service. simpl.
  pose proof (pool_publish_returns text dTag additionalTags (service w)) as Hn.
  destruct (NostrAuth.publishKind30078Event text dTag additionalTags (service w)) as [c s'].
  simpl in Hn. subst c. simpl.
  right. split; reflexivity.
Qed.

Lemma disconnect_keeps_state w : state (snd (disconnect w)) = state w.
Proof.
  unfold disconnect, new_result, suspend, on_service. unfold_holder. simpl.
  destruct (NostrAuth.disconnect (service w)) as [[[]|e] s']; simpl; [reflexivity|].
  match goal with |- context [finish ?r ?o ?w0] =>
    destruct (finish_view r o w0) as (Hfn & _ & Hfs & _);
    destruct (finish r o w0) as [c wf]; simpl in Hfn, Hfs; now subst c end.
Qed.

Lemma bind_ret_snd {A} (m : M A) (w : World) : snd ((_ <- m ;; ret tt) w) = snd (m w).
Proof. unfold_holder. now destruct (m w) as [[a|e] w1]. Qed.

Lemma step_announces (i : Input) (w : World) :
  state (step i w) = state w \/ announced w (step i w).
Proof.
  unfold UseNostrAuth.step.
  destruct i as [ l | l | | text dTag additionalTags | | | i | k ];
    cbn [react]; try (left; reflexivity).
  - rewrite bind_ret_snd. apply authenticate_announces.
  - rewrite bind_ret_snd. apply publishEvent_announces.
  - rewrite bind_ret_snd. left. apply disconnect_keeps_state.
  - destruct (autoConnect options); [|left; reflexivity].
    pose proof (authenticate_announces w) as H.
    unfold_holder. simpl.
    destruct (NostrAuth.window_nostr (service w)); [|left; reflexivity].
    now destruct (authenticate message_of w) as [[a|e] w1].
  - destruct (tasks w !! k) as [[t|]|]; try (left; reflexivity).
    destruct t as [result promise|result promise|result]; simpl.
    + destruct (NostrAuth.promises (service w) !! promise) as [[|v|e]|]; simpl;
        try (left; reflexivity);
        unfold authenticate_failed, updateState; unfold_holder; simpl; run_finish.
    + destruct (NostrAuth.promises (service w) !! promise) as [[|v|e]|]; simpl;
        try (left; reflexivity);
        unfold publish_failed, updateState; unfold_holder; simpl; run_finish.
    + unfold disconnect_settled, updateState; unfold_holder; simpl; run_finish.
Qed.

(** Whenever a step changes the state of the holder, every listener
    subscribed at that moment is called exactly once, in the order of
    subscription, with a copy of the new state; and nothing else is
    called. *)
Theorem holder_state_changes_are_announced (i : Input) (w : World) :
  state (step i w) <> state w ->
  listeners (step i w) = listeners w /\
  calls (step i w) = calls w ++ map (fun l => (l, state (step i w))) (listeners w).
Proof.
  intros Hne. destruct (step_announces i w) as [Hs|Ha]; [contradiction|exact Ha].
Qed.

(** *** The holder is never authenticated *)

Lemma never_kept_refl w : never_kept w w.
Proof. intros H. exact H. Qed.

Lemma never_kept_trans a b c : never_kept a b -> never_kept b c -> never_kept a c.
Proof. unfold never_kept. auto. Qed.

Lemma never_same w w' :
  service w' = service w -> state w' = state w -> never_kept w w'.
Proof. intros Hs Ht (H1 & H2 & H3). unfold never_authenticated. now rewrite Hs, Ht. Qed.

Lemma never_new_result : respects never_kept new_result.
Proof. intros w. now apply never_same. Qed.

Lemma never_finish result o : respects never_kept (finish result o).
Proof.
  intros w. destruct (finish_view result o w) as (_ & Hs & Ht & _). now apply never_same.
Qed.

Lemma never_suspend k : respects never_kept (suspend k).
Proof. intros w. now apply never_same. Qed.

Lemma never_on_service {A} (m : NostrAuth.M A) :
  respects NostrAuthKeeps.unauthenticated_kept m -> respects never_kept (on_service m).
Proof.
  intros Hm w (H1 & H2 & H3). specialize (Hm (service w) H1).
  unfold on_service. destruct (m (service w)) as [c s']. simpl in *. now split.
Qed.

Lemma merge_harmless updates : forall s,
  Forall harmless updates ->
  isAuthenticated s = false -> eventId s = None ->
  isAuthenticated (merge s updates) = false /\ eventId (merge s updates) = None.
Proof.
  unfold merge. induction updates as [|u rest IH]; intros s Hh Ha He; simpl; [now split|].
  apply Forall_cons in Hh as [Hu Hrest].
  apply IH; [assumption| |]; destruct u; simpl in *; congruence.
Qed.

Lemma never_updateState updates :
  Forall harmless updates -> respects never_kept (updateState updates).
Proof.
  intros Hh w (H1 & H2 & H3). simpl.
  destruct (merge_harmless updates (state w) Hh H2 H3) as (Ha & He).
  now split.
Qed.

Create HintDb never discriminated.
#[local] Hint Resolve never_new_result never_finish never_suspend : never.

Ltac never_leaf :=
  first
    [ solve [auto with never]
    | apply never_updateState; repeat constructor
    | apply never_on_service;
      first [ apply NostrAuthMore.unauthenticated_authenticate
            | apply NostrAuthMore.unauthenticated_publishKind30078Event
            | apply NostrAuthMore.unauthenticated_disconnect ] ].

Ltac never_auto :=
  repeat first [ never_leaf | respects_combinator never_kept_refl never_kept_trans ].

Lemma never_authenticate : respects never_kept (authenticate message_of).
Proof. unfold authenticate, authenticate_failed, isNip07Available. never_auto. Qed.

Lemma never_publishEvent text dTag additionalTags :
  respects never_kept (publishEvent message_of text dTag additionalTags).
Proof. unfold publishEvent, publish_failed. never_auto. Qed.

Lemma never_disconnect : respects never_kept disconnect.
Proof. unfold disconnect. never_auto. Qed.

Lemma never_step (i : Input) (w : World) : never_kept w (step i w).
Proof.
  unfold UseNostrAuth.step.
  destruct i as [ l | l | | text dTag additionalTags | | | i | k ]; simpl.
  - now apply never_same.
  - now apply never_same.
  - assert (H : respects never_kept (_ <- authenticate message_of ;; ret tt))
      by (pose proof never_authenticate; never_auto).
    apply H.
  - assert (H : respects never_kept
                  (_ <- publishEvent message_of text dTag additionalTags ;; ret tt))
      by (pose proof (never_publishEvent text dTag additionalTags); never_auto).
    apply H.
  - assert (H : respects never_kept (_ <- disconnect ;; ret tt))
      by (pose proof never_disconnect; never_auto).
    apply H.
  - assert (H : respects never_kept
                  (if autoConnect options then
                     present <- gets (fun w => NostrAuth.window_nostr (service w)) ;;
                     if present then _ <- authenticate message_of ;; ret tt else ret tt
                   else ret tt))
      by (pose proof never_authenticate; never_auto).
    apply H.
  - intros (H1 & H2 & H3). split; [|now split]. simpl.
    now apply NostrAuthMore.unauthenticated_step.
  - intros Hw. pose proof Hw as ((_ & Hnone) & _).
    destruct (tasks w !! k) as [[t|]|]; try exact Hw.
    destruct t as [result promise|result promise|result]; simpl.
    + destruct (NostrAuth.promises (service w) !! promise) as [[|v|e]|] eqn:Hp;
        simpl; try exact Hw; [exfalso; exact (Hnone _ _ Hp)|].
      assert (K : respects never_kept (authenticate_failed message_of result e))
        by (unfold authenticate_failed; never_auto).
      apply K. now apply (never_same w).
    + destruct (NostrAuth.promises (service w) !! promise) as [[|v|e]|] eqn:Hp;
        simpl; try exact Hw; [exfalso; exact (Hnone _ _ Hp)|].
      assert (K : respects never_kept (publish_failed message_of result e))
        by (unfold publish_failed; never_auto).
      apply K. now apply (never_same w).
    + assert (K : respects never_kept (disconnect_settled result))
        by (unfold disconnect_settled; never_auto).
      apply K. now apply (never_same w).
Qed.

(** Whatever is called on the holder or on its service and whatever the
    relay, the signer and the timers do, from the constructor on: the
    holder is never authenticated and never records a published event, and
    the UI manager never shows the publish section.  The service under it
    never fulfils a promise, and the holder raises its flag on nothing
    else. *)
Theorem holder_is_never_authenticated inputs nostr now :
  let w := run inputs (new_UseNostrAuth nostr now) in
  isAuthenticated (state w) = false /\
  eventId (state w) = None /\
  NostrAuth.isAuthenticated (NostrAuth.this (service w)) = false /\
  publishSection_display (render (state w)) = "none" /\
  disconnectButton_display (render (state w)) = "none".
Proof.
  intros w.
  assert (H : never_authenticated w).
  { subst w. unfold UseNostrAuth.run.
    assert (H0 : never_authenticated (new_UseNostrAuth nostr now)).
    { split; [|now split]. apply NostrAuthMore.unauthenticated_new. }
    revert H0. generalize (new_UseNostrAuth nostr now).
    induction inputs as [|i rest IH]; intros w0 H0; simpl; [exact H0|].
    apply IH. now apply never_step. }
  destruct H as ((Hs & _) & Ha & He).
  repeat split; try assumption; unfold render; simpl; rewrite Ha; reflexivity.
Qed.

End Facts.

End UseNostrAuthFacts.

(** * The properties of the holder on the examples *)

Module UseNostrAuthWitnesses.
Import Js Nostr Eff UseNostrAuth UseNostrAuthFacts.

Ltac by_running := vm_compute; reflexivity.

Lemma holder_authenticate_needs_the_extension_witness :
  returned (step defaults None engine_message Call_authenticate page_without_extension)
    = [Returns (Some (JBool false))] /\
  service (step defaults None engine_message Call_authenticate page_without_extension)
    = service page_without_extension.
Proof.
  destruct (holder_authenticate_needs_the_extension defaults None engine_message
              page_without_extension ltac:(by_running)) as (Hs & _ & Hr & _).
  split; [exact Hr|exact Hs].
Defined.

Lemma holder_publish_needs_its_own_flag_witness :
  returned (step defaults None engine_message (Call_publishEvent "hello" "note-1" []) reported)
    = [Returns (Some (JBool false)); Returns null] /\
  error (state (step defaults None engine_message
                  (Call_publishEvent "hello" "note-1" []) reported))
    = Some "Must authenticate first".
Proof.
  destruct (holder_publish_needs_its_own_flag defaults None engine_message
              reported "hello" "note-1" [] ltac:(by_running)) as (_ & Hs & Hr & _).
  split; [rewrite Hr; by_running|]. rewrite Hs. reflexivity.
Defined.

Lemma holder_authenticate_reports_the_outcome_witness :
  state reported
    = {| isAuthenticated := false; isConnecting := false;
         error := Some "this.relay.send is not a function"; eventId := None |} /\
  returned reported = [Returns (Some (JBool false))].
Proof.
  destruct (holder_authenticate_reports_the_outcome defaults None engine_message
              failed 0%nat 0%nat 0%nat (Rejected TypeError)
              ltac:(by_running) ltac:(by_running) ltac:(discriminate) ltac:(by_running))
    as (_ & Hs & _).
  split; [exact Hs|by_running].
Defined.

Lemma holder_failure_is_shown_unless_its_message_is_empty_witness :
  statusElement_className (render (state reported)) = "status error" /\
  statusElement_textContent (render (state reported))
    = "❌ this.relay.send is not a function".
Proof.
  destruct (holder_failure_is_shown_unless_its_message_is_empty defaults None engine_message
              failed 0%nat 0%nat 0%nat TypeError ltac:(by_running) ltac:(by_running))
    as (_ & Hc & Ht & _).
  split; [exact Hc|exact Ht].
Defined.

Lemma holder_unsubscribed_listener_is_never_called_witness :
  calls_to 7%nat
    (run defaults None engine_message [Call_disconnect; Continues 1%nat]
       (step defaults None engine_message (Call_unsubscribe 7%nat) reported))
  = calls_to 7%nat reported.
Proof.
  refine (proj2 (holder_unsubscribed_listener_is_never_called defaults None engine_message
                   7%nat [Call_disconnect; Continues 1%nat]
                   (step defaults None engine_message (Call_unsubscribe 7%nat) reported)
                   _ _)).
  - vm_compute. apply not_elem_of_nil.
  - rewrite !not_elem_of_cons. repeat split; try discriminate. apply not_elem_of_nil.
Defined.

Lemma holder_state_changes_are_announced_witness :
  calls reported = calls failed ++ [(7%nat, state reported)].
Proof.
  exact (proj2 (holder_state_changes_are_announced defaults None engine_message
                  (Continues 0%nat) failed ltac:(vm_compute; discriminate))).
Defined.

End UseNostrAuthWitnesses.
